(** * WIKI_Scraper: the text-reconstruction core of [wiki_scrawler.py]

    A shallow embedding of the HTML-to-text engine (inline text joiner,
    list renderer, table flattener, label/value repair, section walker,
    normalizer) together with the properties stated for it.

    Python [str] values are sequences of Unicode code points, modelled as
    [list N]; the parsed document is a tree of text and element nodes. *)

From Stdlib Require Import String Ascii.
From Stdlib Require Import List NArith ZArith Bool Arith Lia.
Import ListNotations.

Set Implicit Arguments.
Set Warnings "-register-all".

(* ================================================================= *)
(** ** Python strings *)

Definition ustr := list N.

Module Utf8.
(** String literals of this file are written in UTF-8; [decode] turns the
    bytes into code points. *)
Fixpoint bytes (s : string) : list N :=
  match s with
  | EmptyString => []
  | String a r => N_of_ascii a :: bytes r
  end.

Fixpoint decode (bs : list N) : ustr :=
  match bs with
  | [] => []
  | b0 :: r =>
    if (b0 <? 128)%N then b0 :: decode r
    else if (b0 <? 224)%N then
      match r with
      | b1 :: r1 => ((b0 - 192) * 64 + (b1 - 128))%N :: decode r1
      | _ => []
      end
    else if (b0 <? 240)%N then
      match r with
      | b1 :: b2 :: r2 =>
        ((b0 - 224) * 4096 + (b1 - 128) * 64 + (b2 - 128))%N :: decode r2
      | _ => []
      end
    else
      match r with
      | b1 :: b2 :: b3 :: r3 =>
        ((b0 - 240) * 262144 + (b1 - 128) * 4096 + (b2 - 128) * 64
         + (b3 - 128))%N :: decode r3
      | _ => []
      end
  end.
End Utf8.

Definition U (s : string) : ustr := Utf8.decode (Utf8.bytes s).

Definition NL : N := 10%N.
Definition SP : N := 32%N.

Definition ustr_eqb (a b : ustr) : bool :=
  if list_eq_dec N.eq_dec a b then true else false.

(** [ch in s] for a character. *)
Definition in_str (s : ustr) (c : N) : bool := existsb (N.eqb c) s.

(** [c.isascii()] *)
Definition isascii (c : N) : bool := (c <? 128)%N.

(** Unicode whitespace, as tested by [str.strip], [str.isspace] and the
    regular-expression class [\s] on [str] patterns. *)
Definition is_space (c : N) : bool :=
  ((9 <=? c) && (c <=? 13))%N || ((28 <=? c) && (c <=? 32))%N
  || (c =? 133)%N || (c =? 160)%N || (c =? 5760)%N
  || ((8192 <=? c) && (c <=? 8202))%N
  || (c =? 8232)%N || (c =? 8233)%N || (c =? 8239)%N || (c =? 8287)%N
  || (c =? 12288)%N.

Fixpoint lstrip (s : ustr) : ustr :=
  match s with
  | c :: t => if is_space c then lstrip t else s
  | [] => []
  end.

Definition rstrip (s : ustr) : ustr := rev (lstrip (rev s)).

(** [s.strip()] *)
Definition strip (s : ustr) : ustr := rstrip (lstrip s).

Fixpoint starts_with (p s : ustr) : bool :=
  match p, s with
  | [], _ => true
  | a :: p', b :: s' => (a =? b)%N && starts_with p' s'
  | _ :: _, [] => false
  end.

(** [s.endswith(p)] *)
Definition ends_with (p s : ustr) : bool := starts_with (rev p) (rev s).

(** [needle in s] *)
Fixpoint contains (needle s : ustr) : bool :=
  starts_with needle s ||
  match s with
  | [] => false
  | _ :: t => contains needle t
  end.

(** [s.find(needle)]: [None] stands for -1. *)
Fixpoint find (needle s : ustr) : option nat :=
  if starts_with needle s then Some 0
  else match s with
       | [] => None
       | _ :: t => option_map S (find needle t)
       end.

(** [s.replace(old, new)] for a non-empty [old]. *)
Fixpoint replace_fuel (n : nat) (old new s : ustr) : ustr :=
  match n with
  | 0 => s
  | S n' =>
    match s with
    | [] => []
    | c :: t =>
      if starts_with old s
      then new ++ replace_fuel n' old new (skipn (length old) s)
      else c :: replace_fuel n' old new t
    end
  end.

Definition replace (old new s : ustr) : ustr :=
  replace_fuel (S (length s)) old new s.

(** [s.split('\n')] *)
Fixpoint split_on (sep : N) (s : ustr) : list ustr :=
  match s with
  | [] => [[]]
  | c :: t =>
    if (c =? sep)%N then [] :: split_on sep t
    else match split_on sep t with
         | l :: ls => (c :: l) :: ls
         | [] => [[c]]
         end
  end.

(** [sep.join(parts)] *)
Fixpoint join (sep : ustr) (parts : list ustr) : ustr :=
  match parts with
  | [] => []
  | [p] => p
  | p :: ps => p ++ sep ++ join sep ps
  end.

(* ================================================================= *)
(** ** Regular expressions ([re]) *)

Module Re.

(** The fragment of Python's pattern language used by the program. *)
Inductive re :=
| Eps
| Chr (p : N -> bool)                       (* a literal or a class *)
| Seq (a b : re)
| Alt (a b : re)
| Rep (greedy : bool) (lo : nat) (hi : option nat) (a : re)
| Grp (i : nat) (a : re)                    (* capturing group *)
| Ahead (a : re)                            (* (?=...) *)
| Behind (p : N -> bool)                    (* (?<=[...]) *)
| Eos.                                      (* $ *)

Record mstate := MS { bef : ustr; aft : ustr; caps : list (nat * ustr) }.

Definition K := mstate -> option mstate.

Definition pred_opt (hi : option nat) : option nat := option_map pred hi.

Definition is_zero (hi : option nat) : bool :=
  match hi with Some 0 => true | _ => false end.

(** Repetition of a sub-matcher [ma].  The counter [n] is
    [lo + 1 + len(remaining input)]: a mandatory round uses up [lo], an
    optional round must consume a character, so [n] never runs out. *)
Fixpoint rep_loop (ma : mstate -> K -> option mstate) (greedy : bool)
         (lo : nat) (hi : option nat) (n : nat) (s : mstate) (k : K)
  : option mstate :=
  match n with
  | 0 => None
  | S n' =>
    match lo with
    | S lo' => ma s (fun s' => rep_loop ma greedy lo' (pred_opt hi) n' s' k)
    | 0 =>
      if is_zero hi then k s
      else if greedy then
        match ma s (fun s' =>
                if length (aft s') <? length (aft s)
                then rep_loop ma greedy 0 (pred_opt hi) n' s' k
                else None) with
        | Some x => Some x
        | None => k s
        end
      else
        match k s with
        | Some x => Some x
        | None =>
          ma s (fun s' =>
                if length (aft s') <? length (aft s)
                then rep_loop ma greedy 0 (pred_opt hi) n' s' k
                else None)
        end
    end
  end.

Definition set_cap (i : nat) (s0 s' : mstate) : mstate :=
  MS (bef s') (aft s')
     ((i, firstn (length (aft s0) - length (aft s')) (aft s0)) :: caps s').

(** Backtracking matcher in continuation-passing style: [m r s k] tries
    the ways [r] can match at [s] in Python's priority order and returns
    the first for which the continuation [k] succeeds. *)
Fixpoint m (r : re) (s : mstate) (k : K) {struct r} : option mstate :=
  match r with
  | Eps => k s
  | Chr p =>
    match aft s with
    | c :: t => if p c then k (MS (c :: bef s) t (caps s)) else None
    | [] => None
    end
  | Seq a b => m a s (fun s' => m b s' k)
  | Alt a b =>
    match m a s k with
    | Some x => Some x
    | None => m b s k
    end
  | Rep g lo hi a => rep_loop (m a) g lo hi (lo + S (length (aft s))) s k
  | Grp i a => m a s (fun s' => k (set_cap i s s'))
  | Ahead a =>
    match m a s Some with
    | Some _ => k s
    | None => None
    end
  | Behind p =>
    match bef s with
    | c :: _ => if p c then k s else None
    | [] => None
    end
  | Eos =>
    match aft s with
    | [] => k s
    | [c] => if (c =? NL)%N then k s else None
    | _ => None
    end
  end.

(** [match_at r bef aft]: the match of [r] starting at the current
    position, if any; the whole match is recorded as group 0. *)
Definition match_at (r : re) (b a : ustr) : option mstate :=
  m (Grp 0 r) (MS b a []) Some.

(** [m.group(i)]; a group that did not take part is [None]. *)
Fixpoint group (i : nat) (cs : list (nat * ustr)) : option ustr :=
  match cs with
  | [] => None
  | (j, v) :: t => if Nat.eqb i j then Some v else group i t
  end.

(** Replacement templates: literal text and group references. *)
Inductive titem := TLit (s : ustr) | TGrp (i : nat).

Definition expand (t : list titem) (s : mstate) : ustr :=
  concat (map (fun it =>
                 match it with
                 | TLit l => l
                 | TGrp i => match group i (caps s) with
                             | Some v => v
                             | None => []
                             end
                 end) t).

(** [re.sub(r, f, text)] with a replacement function over the match.
    The counter is [1 + len(text)]; every round moves right. *)
Fixpoint sub_loop (n : nat) (r : re) (f : mstate -> ustr) (b a : ustr)
  : ustr :=
  match n with
  | 0 => a
  | S n' =>
    match match_at r b a with
    | Some s' =>
      if length (aft s') <? length a
      then f s' ++ sub_loop n' r f (bef s') (aft s')
      else f s' ++ match a with
                   | [] => []
                   | c :: t => c :: sub_loop n' r f (c :: b) t
                   end
    | None =>
      match a with
      | [] => []
      | c :: t => c :: sub_loop n' r f (c :: b) t
      end
    end
  end.

Definition sub_fn (r : re) (f : mstate -> ustr) (text : ustr) : ustr :=
  sub_loop (S (length text)) r f [] text.

(** [re.sub(r, template, text)] *)
Definition sub (r : re) (t : list titem) (text : ustr) : ustr :=
  sub_fn r (expand t) text.

(** [re.search(r, text)] *)
Fixpoint search_loop (r : re) (b a : ustr) : option mstate :=
  match match_at r b a with
  | Some s' => Some s'
  | None =>
    match a with
    | [] => None
    | c :: t => search_loop r (c :: b) t
    end
  end.

Definition search (r : re) (text : ustr) : option mstate :=
  search_loop r [] text.

(** Pattern builders. *)
Definition chr (c : N) : re := Chr (N.eqb c).

Fixpoint lit (s : ustr) : re :=
  match s with
  | [] => Eps
  | c :: t => Seq (chr c) (lit t)
  end.

Definition star (a : re) : re := Rep true 0 None a.
Definition plus (a : re) : re := Rep true 1 None a.
Definition lazy_star (a : re) : re := Rep false 0 None a.
Definition between (lo hi : nat) (a : re) : re := Rep true lo (Some hi) a.
Definition at_least (lo : nat) (a : re) : re := Rep true lo None a.

Fixpoint seqs (rs : list re) : re :=
  match rs with
  | [] => Eps
  | [a] => a
  | a :: t => Seq a (seqs t)
  end.

Fixpoint alts (rs : list re) : re :=
  match rs with
  | [] => Chr (fun _ => false)
  | [a] => a
  | a :: t => Alt a (alts t)
  end.

Definition any_of (s : ustr) : re := Chr (in_str s).
Definition none_of (s : ustr) : re := Chr (fun c => negb (in_str s c)).
Definition dot : re := Chr (fun c => negb (c =? NL)%N).   (* . *)
Definition dot_all : re := Chr (fun _ => true).            (* . with re.S *)
Definition ws : re := Chr is_space.                        (* \s *)

End Re.

Import Re.

(** Decimal digits (category Nd), the regular-expression class [\d] on
    [str] patterns, in the character database of Python 3.11 (version 14
    of the standard): each entry starts a run of ten digits; the
    mathematical digits fill 1D7CE-1D7FF. *)
Definition nd_starts : list N :=
  [48; 1632; 1776; 1984; 2406; 2534; 2662; 2790; 2918; 3046; 3174; 3302;
   3430; 3558; 3664; 3792; 3872; 4160; 4240; 6112; 6160; 6470; 6608; 6784;
   6800; 6992; 7088; 7232; 7248; 42528; 43216; 43264; 43472; 43504; 43600;
   44016; 65296; 66720; 68912; 69734; 69872; 69942; 70096; 70384; 70736;
   70864; 71248; 71360; 71472; 71904; 72016; 72784; 73040; 73120; 92768;
   92864; 93008; 123200; 123632; 125264; 130032]%N.

Definition is_digit (c : N) : bool :=
  existsb (fun a => (a <=? c) && (c <? a + 10))%N nd_starts
  || ((120782 <=? c) && (c <=? 120831))%N.

Definition is_alpha_ascii (c : N) : bool :=      (* [a-zA-Z] *)
  ((97 <=? c) && (c <=? 122))%N || ((65 <=? c) && (c <=? 90))%N.

Definition is_hspace (c : N) : bool :=           (* [ \t\u00A0] *)
  (c =? 32)%N || (c =? 9)%N || (c =? 160)%N.

Definition is_cjk (c : N) : bool :=              (* [一-鿿㐀-䶿] *)
  ((19968 <=? c) && (c <=? 40959))%N || ((13312 <=? c) && (c <=? 19903))%N.

(* ================================================================= *)
(** ** Normalizer: [zh_tidy] *)

Module Tidy.

(** [[ \t\u00A0]+] *)
Definition re_hspace : re := plus (Chr is_hspace).

Definition not_brace : re := none_of (U "{}").
Definition not_rbrace : re := none_of (U "}").

(** [{\displaystyle], a run of [[^{}]], any number of groups
    [{ [^{}]... } [^{}]...], and a closing brace. *)
Definition re_displaystyle : re :=
  seqs [lit (U "{\displaystyle"); star not_brace;
        star (seqs [chr 123; star not_brace; chr 125; star not_brace]);
        chr 125].

(** [\{\\[a-zA-Z]+[^}]*\}] *)
Definition re_brace_cmd : re :=
  seqs [lit (U "{\"); plus (Chr is_alpha_ascii); star not_rbrace; chr 125].

(** [\{\\displaystyle.*?(?=\n|$)] *)
Definition re_displaystyle_open : re :=
  seqs [lit (U "{\displaystyle"); lazy_star dot; Ahead (Alt (chr NL) Eos)].

(** [\\begin\{[^}]+\}.*?\\end\{[^}]+\}] with [re.DOTALL] *)
Definition re_begin_end : re :=
  seqs [lit (U "\begin{"); plus not_rbrace; chr 125; lazy_star dot_all;
        lit (U "\end{"); plus not_rbrace; chr 125].

(** [\\[a-zA-Z]+\{[^}]*\}] *)
Definition re_cmd_arg : re :=
  seqs [chr 92; plus (Chr is_alpha_ascii); chr 123; star not_rbrace; chr 125].

(** [\\[a-zA-Z]+] *)
Definition re_cmd : re := seqs [chr 92; plus (Chr is_alpha_ascii)].

(** [\{[^{}]*\}] *)
Definition re_braces : re := seqs [chr 123; star not_brace; chr 125].

(** [[{}\\^_]+] *)
Definition is_latex_char : N -> bool := in_str (U "{}\^_").
Definition re_latex_chars : re := plus (Chr is_latex_char).

(** The bracket and quotation pairs of step 1. *)
Definition pairs : list (N * N) :=
  Eval vm_compute in
    map (fun p => (hd 0%N (U (fst p)), hd 0%N (U (snd p))))
        [("《", "》"); ("〈", "〉"); ("「", "」"); ("『", "』"); ("（", "）")]%string.

(** [L\s*(.*?)\s*R] with [re.S], replaced by [L\1R] *)
Definition re_pair (l r : N) : re :=
  seqs [chr l; star ws; Grp 1 (lazy_star dot_all); star ws; chr r].

Definition tidy_pair (text : ustr) (p : N * N) : ustr :=
  sub (re_pair (fst p) (snd p)) [TLit [fst p]; TGrp 1; TLit [snd p]] text.

(** [\s+([，。、；：！？》）」』])] *)
Definition closing_punct : ustr := Eval vm_compute in U "，。、；：！？》）」』".
Definition re_before_punct : re := seqs [plus ws; Grp 1 (any_of closing_punct)].

Definition c_year : N := Eval vm_compute in hd 0%N (U "年").
Definition c_month : N := Eval vm_compute in hd 0%N (U "月").
Definition c_day : N := Eval vm_compute in hd 0%N (U "日").
Definition c_dash : N := Eval vm_compute in hd 0%N (U "—").
Definition c_dun : N := Eval vm_compute in hd 0%N (U "、").

(** [(\d{1,4})\s*年\s*(\d{1,2})\s*月\s*(\d{1,2})\s*日] *)
Definition re_date3 : re :=
  seqs [Grp 1 (between 1 4 (Chr is_digit)); star ws; chr c_year; star ws;
        Grp 2 (between 1 2 (Chr is_digit)); star ws; chr c_month; star ws;
        Grp 3 (between 1 2 (Chr is_digit)); star ws; chr c_day].

(** [(\d{1,4})\s*年\s*(\d{1,2})\s*月] *)
Definition re_date2 : re :=
  seqs [Grp 1 (between 1 4 (Chr is_digit)); star ws; chr c_year; star ws;
        Grp 2 (between 1 2 (Chr is_digit)); star ws; chr c_month].

(** [\s*——\s*] and [\s*—\s*] *)
Definition re_dash2 : re := seqs [star ws; chr c_dash; chr c_dash; star ws].
Definition re_dash1 : re := seqs [star ws; chr c_dash; star ws].

(** [(?<=[CJK])[ \t\u00A0]+(?=[CJK])] *)
Definition re_cjk_gap : re :=
  seqs [Behind is_cjk; plus (Chr is_hspace); Ahead (Chr is_cjk)].

(** [\s*、\s*] *)
Definition re_dun : re := seqs [star ws; chr c_dun; star ws].

(** [\n{3,}] *)
Definition re_blank_lines : re := at_least 3 (chr NL).

Definition sentence_marks : ustr := Eval vm_compute in U "。，！？".

(** The body of the loop over [lines] in step 5. *)
Definition tidy_line (line : ustr) : ustr :=
  let stripped := strip line in
  if negb (ustr_eqb stripped []) && (length stripped <? 30)
     && negb (existsb (fun char => in_str stripped char) sentence_marks)
  then line
  else if negb (ustr_eqb stripped []) then sub re_cjk_gap [] stripped
  else line.

(** Step 0.5: LaTeX residue. *)
Definition strip_latex (text : ustr) : ustr :=
  let text := sub re_displaystyle [] text in
  let text := sub re_brace_cmd [] text in
  let text := sub re_displaystyle_open [] text in
  let text := sub re_begin_end [] text in
  let text := sub re_cmd_arg [] text in
  let text := sub re_cmd [] text in
  let text := sub re_braces [] text in
  sub re_latex_chars [] text.

(** Steps 1 to 6. *)
Definition tidy_spacing (text : ustr) : ustr :=
  let text := fold_left tidy_pair pairs text in
  let text := sub re_before_punct [TGrp 1] text in
  let text := sub re_date3 [TGrp 1; TLit [c_year]; TGrp 2; TLit [c_month];
                            TGrp 3; TLit [c_day]] text in
  let text := sub re_date2 [TGrp 1; TLit [c_year]; TGrp 2; TLit [c_month]]
                  text in
  let text := sub re_dash2 [TLit [c_dash; c_dash]] text in
  let text := sub re_dash1 [TLit [c_dash]] text in
  let lines := map tidy_line (split_on NL text) in
  let text := join [NL] lines in
  let text := sub re_dun [TLit [c_dun]] text in
  sub re_blank_lines [TLit [NL; NL]] text.

End Tidy.

Definition zh_tidy (text : ustr) : ustr :=
  let text := sub Tidy.re_hspace [TLit [SP]] text in
  let text := Tidy.strip_latex text in
  Tidy.tidy_spacing text.


(* ================================================================= *)
(** ** Document tree *)

(** The strings of a parsed document that are not ordinary text: comments
    (with declarations and processing instructions), and the strings the
    parser puts inside [rt], [rp], [script], [style] and [template] tags
    ([RubyTextString], [RubyParenthesisString], [Script], [Stylesheet],
    [TemplateString]).  All of them are subclasses of [NavigableString]. *)
Inductive str_class :=
| Comment | RubyTextString | RubyParenthesisString | Script | Stylesheet
| TemplateString.

(** A parsed tag with its name, attributes and ordered children, or a
    string: ordinary text ([NavigableString] itself, or [CData]), or a
    string of another class.  The multi-valued [class] attribute is kept
    apart. *)
Inductive node :=
| Text (s : ustr)
| Other (c : str_class) (s : ustr)
| Elem (name : string) (classes : list string) (attrs : list (string * ustr))
       (children : list node).

Definition children (nd : node) : list node :=
  match nd with
  | Text _ | Other _ _ => []
  | Elem _ _ _ kids => kids
  end.

Definition name_of (nd : node) : option string :=
  match nd with
  | Text _ | Other _ _ => None
  | Elem n _ _ _ => Some n
  end.

Definition has_name (n : string) (nd : node) : bool :=
  match nd with
  | Text _ | Other _ _ => false
  | Elem n' _ _ _ => String.eqb n' n
  end.

Definition name_in (ns : list string) (nd : node) : bool :=
  existsb (fun n => has_name n nd) ns.

Definition classes_of (nd : node) : list string :=
  match nd with
  | Text _ | Other _ _ => []
  | Elem _ cs _ _ => cs
  end.

Definition has_class (c : string) (nd : node) : bool :=
  existsb (String.eqb c) (classes_of nd).

(** [tag.get(key)] *)
Fixpoint assoc (key : string) (l : list (string * ustr)) : option ustr :=
  match l with
  | [] => None
  | (k, v) :: t => if String.eqb k key then Some v else assoc key t
  end.

Definition get_attr (key : string) (nd : node) : option ustr :=
  match nd with
  | Text _ | Other _ _ => None
  | Elem _ _ attrs _ => assoc key attrs
  end.

(** [tag.descendants]: every node below [nd], in document order. *)
Fixpoint preorder (nd : node) : list node :=
  nd :: match nd with
        | Text _ | Other _ _ => []
        | Elem _ _ _ kids => flat_map preorder kids
        end.

Definition descendants (nd : node) : list node := flat_map preorder (children nd).

(** [tag.find_all(names, recursive=True)] *)
Definition find_all (ns : list string) (nd : node) : list node :=
  filter (name_in ns) (descendants nd).

(** [tag.find_all(names, recursive=False)] *)
Definition find_children (ns : list string) (nd : node) : list node :=
  filter (name_in ns) (children nd).

(** [tag.find(name)] *)
Definition find_first (n : string) (nd : node) : option node :=
  hd_error (find_all [n] nd).

Definition nonempty (s : ustr) : bool := negb (ustr_eqb s []).

Definition nonempty_list {A} (l : list A) : bool :=
  match l with [] => false | _ => true end.

Definition str_class_eqb (a b : str_class) : bool :=
  match a, b with
  | Comment, Comment | RubyTextString, RubyTextString
  | RubyParenthesisString, RubyParenthesisString | Script, Script
  | Stylesheet, Stylesheet | TemplateString, TemplateString => true
  | _, _ => false
  end.

(** [builder.string_containers.get(tag.name)]: the class of the strings
    that [get_text] collects below a tag of that name, [None] standing for
    the default, ordinary text. *)
Definition string_container (name : string) : option str_class :=
  if String.eqb name "rt" then Some RubyTextString
  else if String.eqb name "rp" then Some RubyParenthesisString
  else if String.eqb name "style" then Some Stylesheet
  else if String.eqb name "script" then Some Script
  else if String.eqb name "template" then Some TemplateString
  else None.

(** What [_all_strings(strip=True)] yields at one descendant: the stripped
    string, when its class is exactly the wanted one. *)
Definition wanted_string (want : option str_class) (d : node) : list ustr :=
  match d, want with
  | Text s, None => [strip s]
  | Other c s, Some c' => if str_class_eqb c c' then [strip s] else []
  | _, _ => []
  end.

(** [tag.get_text("", strip=True)]: the strings below the tag that are
    ordinary text (below an [rt], [rp], [script], [style] or [template] tag:
    that are of the tag's own class), stripped and put together; comments
    and ruby annotations inside other tags are left out.  For a string it
    stands for [d.strip()]. *)
Definition get_text_strip (nd : node) : ustr :=
  match nd with
  | Text s | Other _ s => strip s
  | Elem name _ _ _ =>
    concat (flat_map (wanted_string (string_container name)) (descendants nd))
  end.

(* ================================================================= *)
(** ** Inline text joiner and list renderer *)

(** The accumulator of the joining loops: [text_parts] and [last_ascii]. *)
Definition acc := (list ustr * bool)%type.

Definition first_ascii (s : ustr) : bool :=
  match s with
  | c :: _ => isascii c
  | [] => false
  end.

Definition last_is_ascii (s : ustr) : bool := first_ascii (rev s).

(** Appending one non-empty fragment [s]: a blank goes in first when
    something was already collected and both sides of the seam are ASCII. *)
Definition push_fragment (s : ustr) (a : acc) : acc :=
  let '(parts, last_ascii) := a in
  let cur_ascii := first_ascii s in
  let parts := if nonempty_list parts && last_ascii && cur_ascii
               then parts ++ [[SP]] else parts in
  (parts ++ [s], last_is_ascii s).

Definition push_br (a : acc) : acc := (fst a ++ [[SP]], false).

(** [extract_text_from_li]: the walk over [li_tag.descendants]; [nested]
    tells that the nearest enclosing [li] is not [li_tag] itself. *)
Fixpoint li_walk (nested : bool) (a : acc) (d : node) : acc :=
  match d with
  | Text s | Other _ s =>
    if nested then a
    else if negb (nonempty s) || negb (nonempty (strip s)) then a
    else push_fragment (strip s) a
  | Elem name _ _ kids =>
    let a := if String.eqb name "br" then push_br a else a in
    fold_left (li_walk (nested || String.eqb name "li")) kids a
  end.

Definition extract_text_from_li (li_tag : node) : ustr :=
  concat (fst (fold_left (li_walk false) (children li_tag) ([], false))).

(** [str(i)] *)
Fixpoint dec_digits (fuel : nat) (n : N) (out : ustr) : ustr :=
  match fuel with
  | 0 => out
  | S f =>
    let out := (48 + n mod 10)%N :: out in
    if (n / 10 =? 0)%N then out else dec_digits f (n / 10)%N out
  end.

Definition str_of_nat (n : nat) : ustr := dec_digits (S n) (N.of_nat n) [].

Definition BULLET : ustr := Eval vm_compute in U "• ".

Fixpoint ordered_items (i : nat) (lis : list node) : list ustr :=
  match lis with
  | [] => []
  | li :: rest =>
    let li_text := extract_text_from_li li in
    (if nonempty li_text then [str_of_nat i ++ U ". " ++ li_text] else [])
      ++ ordered_items (S i) rest
  end.

Definition process_ordered_list (ol_tag : node) : ustr :=
  join [SP] (ordered_items 1 (find_children ["li"%string] ol_tag)).

Definition process_unordered_list (ul_tag : node) : ustr :=
  join [SP]
       (flat_map (fun li =>
                    let li_text := extract_text_from_li li in
                    if nonempty li_text then [BULLET ++ li_text] else [])
                 (find_children ["li"%string] ul_tag)).

(** One round of the loop over [node.children] in [smart_text]; [rec] is
    the recursive call. *)
Definition smart_child (rec : node -> ustr) (a : acc) (child : node) : acc :=
  match child with
  | Text s | Other _ s =>
    let s := strip s in
    if nonempty s then push_fragment s a else a
  | Elem name _ _ _ =>
    if String.eqb name "ol" || String.eqb name "ul" then
      let list_content := if String.eqb name "ol"
                          then process_ordered_list child
                          else process_unordered_list child in
      if nonempty list_content then (fst a ++ [list_content], false) else a
    else if String.eqb name "br" then push_br a
    else
      let child_text := rec child in
      if nonempty child_text then push_fragment child_text a else a
  end.

Fixpoint smart_text (nd : node) : ustr :=
  match nd with
  | Text _ | Other _ _ => []
  | Elem name _ _ kids =>
    if String.eqb name "ol" then process_ordered_list nd
    else if String.eqb name "ul" then process_unordered_list nd
    else concat (fst (fold_left (smart_child smart_text) kids ([], false)))
  end.


(* ================================================================= *)
(** ** Table flattener *)

(** Results of code that indexes lists and loops: a value, Python's
    [IndexError], or a loop that did not finish within its counter.  The
    limits of the interpreter are not part of the model: [smart_text] takes
    one frame for each level of nesting and raises [RecursionError] on a
    page nested deeper than the recursion limit, where the functions below
    give a value.  [Done a] describes the call that returns. *)
Inductive outcome (A : Type) :=
| Done (a : A)
| IndexError
| Unfinished.
Arguments IndexError {A}.
Arguments Unfinished {A}.

Definition bind {A B} (x : outcome A) (f : A -> outcome B) : outcome B :=
  match x with
  | Done a => f a
  | IndexError => IndexError
  | Unfinished => Unfinished
  end.

Notation "x <- e ;; k" := (bind e (fun x => k))
  (at level 61, e at next level, right associativity).
Notation "' p <- e ;; k" := (bind e (fun p => k))
  (at level 61, p pattern, e at next level, right associativity).

(** [l[pos]] and [l[pos] = v] *)
Definition get_item {A} (l : list A) (pos : nat) : outcome A :=
  match nth_error l pos with
  | Some x => Done x
  | None => IndexError
  end.

Definition set_item {A} (l : list A) (pos : nat) (v : A) : outcome (list A) :=
  if pos <? length l then Done (firstn pos l ++ v :: skipn (S pos) l)
  else IndexError.

Fixpoint fold_outcome {A B} (f : A -> B -> outcome A) (l : list B) (a : A)
  : outcome A :=
  match l with
  | [] => Done a
  | x :: t => a' <- f a x ;; fold_outcome f t a'
  end.

(** [int(s)] on a string: surrounding whitespace, an optional sign, and
    decimal digits with single underscores between them, at most
    [sys.int_max_str_digits] digits of them (4300 unless the interpreter is
    told otherwise, which the program does not do); [None] stands for
    [ValueError]. *)
Definition digit_val (c : N) : option N :=
  if is_digit c then
    if (120782 <=? c)%N then Some ((c - 120782) mod 10)%N
    else match filter (fun a => (a <=? c) && (c <? a + 10))%N nd_starts with
         | a :: _ => Some (c - a)%N
         | [] => None
         end
  else None.

Fixpoint digits_val (s : ustr) (v : N) (after_digit : bool) : option N :=
  match s with
  | [] => if after_digit then Some v else None
  | c :: t =>
    if (c =? 95)%N then
      if after_digit then digits_val t v false else None
    else match digit_val c with
         | Some d => digits_val t (v * 10 + d)%N true
         | None => None
         end
  end.

Definition int_max_str_digits : nat := 4300.

(** The digits of a numeral, its underscores left out. *)
Definition count_digits (s : ustr) : nat :=
  length (filter (fun c => negb (c =? 95)%N) s).

Definition numeral_val (s : ustr) : option N :=
  if int_max_str_digits <? count_digits s then None else digits_val s 0 false.

Definition py_int (s : ustr) : option Z :=
  match strip s with
  | c :: t =>
    if (c =? 45)%N then option_map (fun v => (- Z.of_N v)%Z) (numeral_val t)
    else if (c =? 43)%N then option_map Z.of_N (numeral_val t)
    else option_map Z.of_N (numeral_val (c :: t))
  | [] => None
  end.

(** [_parse_int(value, default)]: a missing attribute is the [TypeError]
    case. *)
Definition _parse_int (value : option ustr) (default : Z) : Z :=
  match value with
  | Some s => match py_int s with
              | Some v => Z.max v 1
              | None => default
              end
  | None => default
  end.

(** An active rowspan: [{"rows_left": ..., "value": ...}] *)
Record span := Span { rows_left : Z; value : ustr }.

Definition row_buf := list (option ustr).    (* current_row *)
Definition span_buf := list (option span).   (* row_spans *)
Definition bufs := (row_buf * span_buf)%type.

(** [table_squeeze] *)
Definition table_squeeze (s : ustr) : ustr :=
  let s := replace [NL] [SP] s in
  sub Tidy.re_hspace [TLit [SP]] (strip s).

(** "apply active rowspans to this row" *)
Fixpoint apply_spans (spans : span_buf) : bufs :=
  match spans with
  | [] => ([], [])
  | sp :: rest =>
    let '(row, rest') := apply_spans rest in
    match sp with
    | Some s =>
      let left := (rows_left s - 1)%Z in
      (Some (value s) :: row,
       (if (left =? 0)%Z then None else Some (Span left (value s))) :: rest')
    | None => (None :: row, None :: rest')
    end
  end.

(** [while pos >= len(current_row): current_row.append(None);
    row_spans.append(None)] *)
Definition ensure (pos : nat) (b : bufs) : bufs :=
  let k := S pos - length (fst b) in
  (fst b ++ repeat None k, snd b ++ repeat None k).

(** The [for offset in range(colspan)] test of one candidate column:
    [None] when the span fits, [Some c] with the next candidate when column
    [c - 1] is taken. *)
Fixpoint check_fit (b : bufs) (col_idx : nat) (todo offset : nat)
  : outcome (bufs * option nat) :=
  match todo with
  | 0 => Done (b, None)
  | S todo' =>
    let pos := col_idx + offset in
    let b := ensure pos b in
    cur <- get_item (fst b) pos ;;
    match cur with
    | Some _ => Done (b, Some (pos + 1))
    | None => check_fit b col_idx todo' (S offset)
    end
  end.

(** The [while True] search for the first slot that can host the cell. *)
Fixpoint find_slot (fuel : nat) (b : bufs) (col_idx colspan : nat)
  : outcome (bufs * nat) :=
  match fuel with
  | 0 => Unfinished
  | S fuel' =>
    let b := ensure col_idx b in
    '(b, next) <- check_fit b col_idx colspan 0 ;;
    match next with
    | None => Done (b, col_idx)
    | Some c => find_slot fuel' b c colspan
    end
  end.

(** "place the cell content across the colspan" *)
Fixpoint place (text : ustr) (rowspan : Z) (col_idx : nat)
         (todo offset : nat) (b : bufs) : outcome bufs :=
  match todo with
  | 0 => Done b
  | S todo' =>
    let pos := col_idx + offset in
    let v := if offset =? 0 then text else [] in
    row <- set_item (fst b) pos (Some v) ;;
    spans <- (if (1 <? rowspan)%Z
              then set_item (snd b) pos (Some (Span (rowspan - 1) v))
              else cur <- get_item (snd b) pos ;;
                   match cur with
                   | None => Done (snd b)
                   | Some _ => set_item (snd b) pos None
                   end) ;;
    place text rowspan col_idx todo' (S offset) (row, spans)
  end.

(** A cell as the loop sees it: rendered text, colspan, rowspan. *)
Definition cell_text (cell : node) : ustr := table_squeeze (smart_text cell).
Definition cell_colspan (cell : node) : nat :=
  Z.to_nat (_parse_int (get_attr "colspan" cell) 1).
Definition cell_rowspan (cell : node) : Z :=
  _parse_int (get_attr "rowspan" cell) 1.

(** The body of [for cell in cells].  The search may take one round per
    column of the row buffer, and one more. *)
Definition place_cell (b : bufs) (cell : node) : outcome bufs :=
  '(b, col_idx) <- find_slot (S (length (fst b))) b 0 (cell_colspan cell) ;;
  place (cell_text cell) (cell_rowspan cell) col_idx (cell_colspan cell) 0 b.

Definition or_empty (c : option ustr) : ustr :=
  match c with Some v => v | None => [] end.

Definition blank (s : ustr) : bool := negb (nonempty (strip s)).

(** [while cleaned and not cleaned[-1].strip(): cleaned.pop()], seen from
    the right end. *)
Fixpoint drop_blank (l : list ustr) : list ustr :=
  match l with
  | c :: t => if blank c then drop_blank t else l
  | [] => []
  end.

Definition pop_blank (cleaned : list ustr) : list ustr :=
  rev (drop_blank (rev cleaned)).

(** The body of [for tr in ...]: the row's cleaned columns and the spans
    left for the next row. *)
Definition process_tr (spans : span_buf) (tr : node)
  : outcome (span_buf * list ustr) :=
  b <- fold_outcome place_cell (find_children ["th"; "td"]%string tr)
                    (apply_spans spans) ;;
  Done (snd b, pop_blank (map or_empty (fst b))).

Fixpoint process_rows (spans : span_buf) (trs : list node) (rows : list (list ustr))
  : outcome (list (list ustr)) :=
  match trs with
  | [] => Done rows
  | tr :: rest =>
    '(spans, cleaned) <- process_tr spans tr ;;
    process_rows spans rest
                 (if existsb (fun col => negb (blank col)) cleaned
                  then rows ++ [cleaned] else rows)
  end.

(** The rows of [table.find_all("tr")] whose nearest enclosing table is
    [table] itself. *)
Fixpoint own_rows (nd : node) : list node :=
  match nd with
  | Text _ | Other _ _ => []
  | Elem name _ _ kids =>
    if String.eqb name "table" then []
    else (if String.eqb name "tr" then [nd] else []) ++ flat_map own_rows kids
  end.

Definition table_rows (table : node) : list node :=
  flat_map own_rows (children table).

Definition SEP : ustr := U " | ".

Definition row_lines (rows : list (list ustr)) : list ustr :=
  flat_map (fun row =>
              let line := join SEP row in
              if blank line then [] else [BULLET ++ line]) rows.

Definition caption_lines (squeeze : ustr -> ustr) (table : node) : list ustr :=
  match find_first "caption" table with
  | Some caption =>
    let caption_text := squeeze (smart_text caption) in
    if nonempty caption_text then [caption_text] else []
  | None => []
  end.

Definition table_to_lines (table : node) (squeeze : ustr -> ustr)
  : outcome (list ustr) :=
  rows <- process_rows [] (table_rows table) [] ;;
  Done (caption_lines squeeze table ++ row_lines rows).


(* ================================================================= *)
(** ** Label/value repair *)

Definition _STOP_CHARS : ustr := Eval vm_compute in U "，,、；;,)）」』】〉。.".

Definition COLON_FULL : N := Eval vm_compute in hd 0%N (U "：").
Definition COLON_HALF : N := 58%N.

(** [cut_at_stop] and [consume]: the stripped text up to the first stop
    character, and whether one was met. *)
Fixpoint until_stop (s : ustr) : ustr * bool :=
  match s with
  | [] => ([], false)
  | ch :: t =>
    if in_str _STOP_CHARS ch then ([], true)
    else let '(v, stop) := until_stop t in (ch :: v, stop)
  end.

Definition cut_at_stop (s : ustr) : ustr * bool := until_stop (strip s).

Definition sum_len (parts : list ustr) : nat :=
  fold_right (fun p n => length p + n) 0 parts.

(** Whether [d] is the anchor: its own text equals [label] exactly. *)
Definition exact_text (label : ustr) (d : node) : bool :=
  ustr_eqb (get_text_strip d) label.

(** The nodes of [anchor.next_elements] that lie inside [el]. *)
Fixpoint find_anchor (label : ustr) (ds : list node) : option (list node) :=
  match ds with
  | [] => None
  | d :: rest => if exact_text label d then Some rest else find_anchor label rest
  end.

(** [s[pos + 1:]] for the first full-width colon, else the first
    half-width one. *)
Definition after_colon (s : ustr) : option ustr :=
  match find [COLON_FULL] s with
  | Some pos => Some (skipn (S pos) s)
  | None => match find [COLON_HALF] s with
            | Some pos => Some (skipn (S pos) s)
            | None => None
            end
  end.

(** The loop over [anchor.next_elements]. *)
Fixpoint label_scan (maxlen : nat) (nodes : list node) (saw_colon : bool)
         (parts : list ustr) : list ustr :=
  match nodes with
  | [] => parts
  | (Text s | Other _ s) :: rest =>
    match (if saw_colon then Some s else after_colon s) with
    | None => label_scan maxlen rest saw_colon parts
    | Some s =>
      let '(chunk, stop) := cut_at_stop s in
      let parts := if nonempty chunk then parts ++ [chunk] else parts in
      if stop then parts
      else if maxlen * 2 <? sum_len parts then parts
      else label_scan maxlen rest true parts
    end
  | Elem name _ _ _ :: rest =>
    if String.eqb name "br" then parts
    else if maxlen * 2 <? sum_len parts then parts
    else label_scan maxlen rest saw_colon parts
  end.

(** [" ".join(p for p in parts if p)] *)
Definition join_parts (parts : list ustr) : ustr :=
  join [SP] (filter nonempty parts).

(** [v[:maxlen] if v else None] *)
Definition cap_value (maxlen : nat) (v : ustr) : option ustr :=
  if nonempty v then Some (firstn maxlen v) else None.

(** [_collect_value_after_label(el, label, maxlen)]; [after] holds the
    nodes that follow [el] in the document, which [next_elements] runs
    into once [el] is exhausted. *)
Definition _collect_value_after_label (el : node) (after : list node)
           (label : ustr) (maxlen : nat) : option ustr :=
  match find_anchor label (descendants el) with
  | None => None
  | Some rest =>
    cap_value maxlen (strip (join_parts (label_scan maxlen (rest ++ after) false [])))
  end.

(** The first text node that contains [marker_text], with what follows it. *)
Fixpoint find_needle (marker_text : ustr) (ds : list node)
  : option (ustr * list node) :=
  match ds with
  | [] => None
  | (Text s | Other _ s) :: rest =>
    if contains marker_text s then Some (s, rest) else find_needle marker_text rest
  | Elem _ _ _ _ :: rest => find_needle marker_text rest
  end.

(** [str(needle).split(marker_text, 1)[1]] *)
Definition split_after (marker_text s : ustr) : ustr :=
  match find marker_text s with
  | Some pos => skipn (pos + length marker_text) s
  | None => []
  end.

Definition lower_ascii (c : N) : N :=
  if ((65 <=? c) && (c <=? 90))%N then (c + 32)%N else c.

(** [" ".join(tag.get("class", [])).lower()], for class names written in
    ASCII letters. *)
Definition class_string (nd : node) : ustr :=
  map lower_ascii (join [SP] (map U (classes_of nd))).

(** The loop over [needle.next_elements]; the bound [maxlen * 1.5] is
    compared after doubling both sides. *)
Fixpoint marker_scan (maxlen : nat) (nodes : list node) (parts : list ustr)
  : list ustr :=
  match nodes with
  | [] => parts
  | (Text s | Other _ s) :: rest =>
    let '(chunk, stop) := cut_at_stop s in
    let parts := if nonempty chunk then parts ++ [chunk] else parts in
    if stop then parts
    else if maxlen * 3 <? 2 * sum_len parts then parts
    else marker_scan maxlen rest parts
  | (Elem _ _ _ _ as nd) :: rest =>
    let classes := class_string nd in
    if contains (U "reference") classes || contains (U "mw-editsection") classes
    then marker_scan maxlen rest parts
    else if maxlen * 3 <? 2 * sum_len parts then parts
    else marker_scan maxlen rest parts
  end.

(** [s.strip(" ")] *)
Definition strip_sp (s : ustr) : ustr :=
  let drop := fix drop (l : ustr) : ustr :=
                match l with
                | c :: t => if (c =? SP)%N then drop t else l
                | [] => []
                end in
  rev (drop (rev (drop s))).

Definition _collect_value_after_marker (el : node) (after : list node)
           (marker_text : ustr) (maxlen : nat) : option ustr :=
  match find_needle marker_text (descendants el) with
  | None => None
  | Some (needle, rest) =>
    let tail := split_after marker_text needle in
    let '(chunk, stop) := if nonempty tail then cut_at_stop tail else ([], false) in
    let parts := if nonempty chunk then [chunk] else [] in
    if stop then cap_value maxlen (strip (join_parts parts))
    else cap_value maxlen
                   (strip_sp (join_parts (marker_scan maxlen (rest ++ after) parts)))
  end.

(** The label vocabulary of [_LABEL_CORE_RE], in the order of the
    alternation. *)
Definition LABELS : list ustr :=
  Eval vm_compute in
    map U ["英語"; "英文"; "English"; "日語"; "日文"; "Japanese"; "韓語"; "韓文";
           "法語"; "法文"; "德語"; "德文"; "西班牙語"; "西文"; "西語"; "俄語"; "俄文";
           "義大利語"; "義文"; "意大利語"; "意文"; "葡萄牙語"; "葡文"; "拉丁語";
           "拉丁文"; "越南語"; "越文"; "泰語"; "馬來語"; "馬來文"; "印尼語"; "印尼文";
           "粵語"; "廣東話"; "閩南語"; "臺語"; "台語"; "閩南話"; "客語"; "學名";
           "藝名"; "本名"; "原名"; "舊稱"; "又名"; "別名"; "別稱"; "外文"]%string.

Definition MISSING_STOPS : ustr := Eval vm_compute in U "，、；)）".

(** [_MISSING_AFTER_LABEL]: a label, the full-width colon, and a separator
    right after it (seen through a lookahead). *)
Definition _MISSING_AFTER_LABEL : re :=
  seqs [Grp 1 (alts (map lit LABELS)); chr COLON_FULL;
        Ahead (seqs [star ws; any_of MISSING_STOPS])].

Definition group_or_empty (i : nat) (s : mstate) : ustr :=
  match group i (caps s) with
  | Some v => v
  | None => []
  end.

(** The replacement function [_repl] of [fill_labels_if_missing]. *)
Definition fill_repl (el : node) (after : list node) (mt : mstate) : ustr :=
  let label := group_or_empty 1 mt in
  let val := match _collect_value_after_label el after label 120 with
             | Some v => Some v
             | None => _collect_value_after_marker el after (label ++ [COLON_FULL]) 120
             end in
  match val with
  | Some v => label ++ [COLON_FULL] ++ v
  | None => group_or_empty 0 mt
  end.

Definition fill_labels_if_missing (el : node) (after : list node) (txt : ustr)
  : ustr :=
  sub_fn _MISSING_AFTER_LABEL (fill_repl el after) txt.


(* ================================================================= *)
(** ** Section walker: [html_to_text] *)

(** A node with what the walker asks of its surroundings: its ancestors
    (nearest first) and the nodes after it in the document. *)
Record ctx_node := Ctx { cn_node : node; cn_anc : list node; cn_after : list node }.

Fixpoint ctx_preorder (anc after : list node) (nd : node) : list ctx_node :=
  Ctx nd anc after ::
  match nd with
  | Text _ | Other _ _ => []
  | Elem _ _ _ kids =>
    (fix go (ks : list node) : list ctx_node :=
       match ks with
       | [] => []
       | k :: rest =>
         ctx_preorder (nd :: anc) (flat_map preorder rest ++ after) k ++ go rest
       end) kids
  end.

(** [el.find_parent("table")] and [el.find_parent("table", class_=c)] *)
Definition in_table (c : ctx_node) : bool :=
  existsb (has_name "table") (cn_anc c).

Definition in_table_of_class (cls : string) (c : ctx_node) : bool :=
  existsb (fun a => has_name "table" a && has_class cls a) (cn_anc c).

(** The root of the walk: [soup.select_one("#mw-content-text
    .mw-parser-output") or soup.select_one("div.mw-parser-output") or
    soup.body or soup]. *)
Definition has_id (i : ustr) (nd : node) : bool :=
  match get_attr "id" nd with
  | Some v => ustr_eqb v i
  | None => false
  end.

Definition select_root (soup : node) : ctx_node :=
  let all := tl (ctx_preorder [] [] soup) in
  let pick p := hd_error (filter p all) in
  match pick (fun c => has_class "mw-parser-output" (cn_node c)
                       && existsb (has_id (U "mw-content-text")) (cn_anc c)) with
  | Some c => c
  | None =>
    match pick (fun c => has_name "div" (cn_node c)
                         && has_class "mw-parser-output" (cn_node c)) with
    | Some c => c
    | None =>
      match pick (fun c => has_name "body" (cn_node c)) with
      | Some c => c
      | None => Ctx soup [] []
      end
    end
  end.

(** [root.find_all(["h2", "h3", "p", "ul", "ol", "dl", "table"])] *)
Definition BLOCKS : list string := ["h2"; "h3"; "p"; "ul"; "ol"; "dl"; "table"]%string.

Definition elements_of (root : ctx_node) : list ctx_node :=
  filter (fun c => name_in BLOCKS (cn_node c))
         (tl (ctx_preorder (cn_anc root) (cn_after root) (cn_node root))).

(** [norm_title]: pattern [\[.*?\]] removed, then stripped. *)
Definition re_bracketed : re := seqs [chr 91; lazy_star dot; chr 93].
Definition norm_title (s : ustr) : ustr := strip (sub re_bracketed [] s).

(** [squeeze] *)
Definition squeeze (s : ustr) : ustr := sub Tidy.re_hspace [TLit [SP]] (strip s).

(** The walker's state: the output lines, the [skipping] flag and the set
    [processed_titles]. *)
Record walk := Walk { lines : list ustr; skipping : bool; processed_titles : list ustr }.

Definition last_line_nonblank (ls : list ustr) : bool :=
  match rev ls with
  | l :: _ => nonempty l
  | [] => false
  end.

Definition H2 : ustr := U "## ".
Definition H3 : ustr := U "### ".

(** [add_title_if_new(title_text, prefix)]: the new state and the
    returned flag. *)
Definition add_title_if_new (w : walk) (title_text prefix : ustr) : walk * bool :=
  if negb (nonempty title_text) then (w, false)
  else
    let normalized := strip (replace (U "##") [] (replace (U "###") [] title_text)) in
    if existsb (ustr_eqb normalized) (processed_titles w) then (w, false)
    else
      let ls := if last_line_nonblank (lines w) then lines w ++ [[]] else lines w in
      (Walk (ls ++ [prefix ++ title_text]) (skipping w)
            (normalized :: processed_titles w), true).

(** [process_multicol_table] *)
Definition multicol_title (ls : list ustr) (line : ustr) : list ustr :=
  (if last_line_nonblank ls then ls ++ [[]] else ls) ++ [line].

Definition multicol_element (squeeze : ustr -> ustr) (ls : list ustr) (element : node)
  : list ustr :=
  if name_in ["h3"; "h4"; "h5"; "h6"]%string element then
    let title := squeeze (smart_text element) in
    if nonempty title then multicol_title ls title else ls
  else if has_name "dl" element then
    fold_left (fun ls dt =>
                 let title := squeeze (smart_text dt) in
                 if nonempty title then multicol_title ls (H3 ++ title) else ls)
              (find_all ["dt"%string] element) ls
  else
    fold_left (fun ls li =>
                 let item := squeeze (smart_text li) in
                 if nonempty item then ls ++ [BULLET ++ item] else ls)
              (find_children ["li"%string] element) ls.

Definition process_multicol_table (table : node) (squeeze : ustr -> ustr)
  : list ustr :=
  fold_left (fun ls td =>
               fold_left (multicol_element squeeze)
                         (find_all ["h3"; "h4"; "h5"; "h6"; "dl"; "ul"; "ol"]%string td)
                         ls)
            (find_all ["td"%string] table) [].

Definition SENTENCE_END : list ustr :=
  Eval vm_compute in map U ["。"; "."; "！"; "!"; "？"; "?"]%string.
Definition CLAUSE_MARKS : ustr := Eval vm_compute in U "，,、；;:：".

Definition is_likely_title (txt : ustr) : bool :=
  (length txt <? 50)
  && negb (existsb (fun e => ends_with e txt) SENTENCE_END)
  && negb (existsb (fun char => in_str txt char) CLAUSE_MARKS).

Definition SKIP_TABLE_CLASSES : list ustr :=
  map U ["infobox"; "navbox"; "ambox"; "mbox"; "messagebox"]%string.

Definition append_lines (w : walk) (ls : list ustr) : walk :=
  Walk (lines w ++ ls) (skipping w) (processed_titles w).

(** One round of [for el in elements]. *)
Definition walk_step (exclude : list ustr) (w : walk) (c : ctx_node) : outcome walk :=
  let el := cn_node c in
  if has_name "h2" el then
    let title := norm_title (smart_text el) in
    if existsb (fun key => contains key title) exclude
    then Done (Walk (lines w) true (processed_titles w))
    else
      let w := Walk (lines w) false (processed_titles w) in
      let '(w, added) := add_title_if_new w title H2 in
      Done (if added then append_lines w [[]] else w)
  else if has_name "h3" el then
    if skipping w then Done w
    else if in_table_of_class "multicol" c then Done w
    else Done (fst (add_title_if_new w (norm_title (smart_text el)) H3))
  else if skipping w then Done w
  else if has_name "p" el then
    let txt := squeeze (smart_text el) in
    if nonempty txt then
      if is_likely_title txt then Done (append_lines w [txt])
      else Done (append_lines w [fill_labels_if_missing el (cn_after c) txt])
    else Done w
  else if name_in ["ul"; "ol"]%string el then
    if in_table c then Done w
    else Done (append_lines w
                 (flat_map (fun li =>
                              let li_txt := squeeze (smart_text li) in
                              if nonempty li_txt then [BULLET ++ li_txt] else [])
                           (find_children ["li"%string] el)))
  else if has_name "dl" el then
    if in_table c then Done w
    else Done (append_lines w
                 (flat_map (fun child =>
                              if has_name "dt" child then
                                let dt_txt := squeeze (smart_text child) in
                                if nonempty dt_txt then [H3 ++ dt_txt] else []
                              else
                                match find_first "table" child with
                                | Some _ => []
                                | None =>
                                  let dd_txt := squeeze (smart_text child) in
                                  if nonempty dd_txt then [dd_txt] else []
                                end)
                           (find_children ["dt"; "dd"]%string el)))
  else if has_name "table" el then
    if in_table c then Done w
    else
      let classes := class_string el in
      if existsb (fun cls => contains cls classes) SKIP_TABLE_CLASSES then Done w
      else if contains (U "multicol") classes
      then Done (append_lines w (process_multicol_table el squeeze))
      else table_lines <- table_to_lines el squeeze ;;
           Done (append_lines w table_lines)
  else Done w.

Definition walk_elements (exclude : list ustr) (els : list ctx_node) : outcome walk :=
  fold_outcome (walk_step exclude) els (Walk [] false []).

(** [remove_duplicate_headings] *)
Fixpoint dedup_headings (ls : list ustr) (last_heading : option ustr) : list ustr :=
  match ls with
  | [] => []
  | line :: rest =>
    let stripped := strip line in
    if starts_with (U "###") stripped || starts_with (U "##") stripped then
      let normalized := strip (replace (U "##") [] (replace (U "###") [] stripped)) in
      match last_heading with
      | Some h =>
        if ustr_eqb normalized h then dedup_headings rest last_heading
        else line :: dedup_headings rest (Some normalized)
      | None => line :: dedup_headings rest (Some normalized)
      end
    else
      line :: dedup_headings rest (if nonempty stripped then None else last_heading)
  end.

Definition remove_duplicate_headings (text : ustr) : ustr :=
  join [NL] (dedup_headings (split_on NL text) None).

(** [separate_concatenated_titles] *)
Definition title_pairs : list (ustr * ustr) :=
  Eval vm_compute in
    map (fun p => (U (fst p), U (snd p)))
        [("影音作品", "其他音樂錄影帶"); ("個人生活", "感情狀況");
         ("演藝經歷", "音樂作品"); ("作品列表", "音樂作品");
         ("獲獎記錄", "個人榮譽")]%string.

Definition separate_concatenated_titles (text : ustr) : ustr :=
  fold_left (fun text p =>
               let combined := fst p ++ snd p in
               if contains combined text
               then replace combined (fst p ++ [NL; NL] ++ snd p) text
               else text)
            title_pairs text.

(** [remove_archive_links]; the patterns have no cased letters, so
    [re.IGNORECASE] changes nothing. *)
Definition archive_patterns : list re :=
  let a := U "頁面存檔備份" in
  let b := U "存於" in
  let c := U "網際網路檔案館" in
  let comma := U "，" in
  [lit (U "（頁面存檔備份，存於網際網路檔案館）");
   lit (U "(頁面存檔備份，存於網際網路檔案館)");
   seqs [lit (U "（"); star ws; lit a; star ws; lit comma; star ws; lit b;
         star ws; lit c; star ws; lit (U "）")];
   seqs [lit (U "("); star ws; lit a; star ws; lit comma; star ws; lit b;
         star ws; lit c; star ws; lit (U ")")]].

(** [\n\s*\n\s*\n] and [ +] *)
Definition re_three_breaks : re := seqs [chr NL; star ws; chr NL; star ws; chr NL].
Definition re_spaces : re := plus (chr SP).

Definition remove_archive_links (text : ustr) : ustr :=
  let text := fold_left (fun text pattern => sub pattern [] text) archive_patterns text in
  let text := sub re_three_breaks [TLit [NL; NL]] text in
  sub re_spaces [TLit [SP]] text.

(** What [html_to_text] does with the assembled lines. *)
Definition finish_text (ls : list ustr) : ustr :=
  zh_tidy (remove_archive_links
             (separate_concatenated_titles
                (remove_duplicate_headings (join [NL] ls)))).

(** [html_to_text], from the parsed tree on, after the noise filter has
    detached its subtrees; the image records it returns next to the text
    are left out. *)
Definition html_to_text (soup : node) (exclude_sections : list ustr) : outcome ustr :=
  w <- walk_elements exclude_sections (elements_of (select_root soup)) ;;
  Done (finish_text (lines w)).


(* ================================================================= *)
(** ** Redirect markers and the per-document driver *)

(** A letter of a pattern compiled with [re.IGNORECASE]: both ASCII cases,
    and for the letter i also the dotted capital and the dotless small i. *)
Definition ichr (c : N) : re :=
  Chr (fun x => (lower_ascii x =? lower_ascii c)%N
                || ((lower_ascii c =? 105)%N && ((x =? 304)%N || (x =? 305)%N))).

Definition ilit (s : ustr) : re := seqs (map ichr s).

(** The four patterns of [detect_redirect]. *)
Definition redirect_patterns : list re :=
  let bullet_target :=
      [star ws; lit (U "•"); star ws; Grp 1 (plus (none_of (NL :: U "•")))] in
  let link_target :=
      [star ws; lit (U "[["); Grp 1 (plus (none_of (U "]"))); lit (U "]]")] in
  [seqs (lit (U "重定向到：") :: bullet_target);
   seqs (lit (U "重新導向至：") :: bullet_target);
   seqs (ilit (U "#REDIRECT") :: link_target);
   seqs (lit (U "#重定向") :: link_target)].

(** Pattern [\|.*$] *)
Definition re_pipe_tail : re := seqs [chr 124; star dot; Eos].

Fixpoint first_search (ps : list re) (text : ustr) : option mstate :=
  match ps with
  | [] => None
  | pattern :: rest =>
    match search pattern text with
    | Some mt => Some mt
    | None => first_search rest text
    end
  end.

Definition detect_redirect (text : ustr) : option ustr :=
  match first_search redirect_patterns text with
  | Some mt => Some (sub re_pipe_tail [] (strip (group_or_empty 1 mt)))
  | None => None
  end.

(** [safe_filename]: the characters backslash, slash, star, question mark,
    colon, double quote, angle brackets and bar become underscores. *)
Definition UNSAFE_CHARS : ustr := [92; 47; 42; 63; 58; 34; 60; 62; 124]%N.

Definition safe_filename (title : ustr) : ustr :=
  firstn 200 (sub (any_of UNSAFE_CHARS) [TLit [95%N]] title).

Definition LABEL_LANG_MAP : list (ustr * ustr) :=
  Eval vm_compute in
    map (fun p => (U (fst p), U (snd p)))
        [("英語", "en"); ("英文", "en"); ("English", "en");
         ("日語", "ja"); ("日文", "ja"); ("Japanese", "ja");
         ("韓語", "ko"); ("韓文", "ko"); ("法語", "fr"); ("法文", "fr");
         ("德語", "de"); ("德文", "de");
         ("西班牙語", "es"); ("西文", "es"); ("西語", "es");
         ("俄語", "ru"); ("俄文", "ru");
         ("義大利語", "it"); ("義文", "it"); ("意大利語", "it"); ("意文", "it");
         ("葡萄牙語", "pt"); ("葡文", "pt"); ("拉丁語", "la"); ("拉丁文", "la");
         ("越南語", "vi"); ("越文", "vi"); ("泰語", "th");
         ("馬來語", "ms"); ("馬來文", "ms"); ("印尼語", "id"); ("印尼文", "id");
         ("粵語", "yue"); ("廣東話", "yue");
         ("閩南語", "nan"); ("臺語", "nan"); ("台語", "nan"); ("閩南話", "nan");
         ("客語", "hak"); ("學名", "la")]%string.

Fixpoint lang_code (label : ustr) (tbl : list (ustr * ustr)) : option ustr :=
  match tbl with
  | [] => None
  | (k, v) :: t => if ustr_eqb k label then Some v else lang_code label t
  end.

(** Python's truth value of an optional string. *)
Definition truthy (o : option ustr) : bool :=
  match o with
  | Some v => nonempty v
  | None => false
  end.

Inductive status := St_exists | St_redirect_exists | St_ok | St_redirect_ok.

(** The ways [process_one] fails that are modelled.  Errors of the
    interpreter and of the file system ([RecursionError] out of the walk,
    [OSError] from [exists], [mkdir] or [write_text]) are not. *)
Inductive failure :=
| FetchFailed (title : ustr)                 (* both fetches raised *)
| RedirectFetchFailed (target : ustr)        (* "重定向目標頁面抓取失敗" *)
| WalkFailed                                 (* an exception out of the walk *)
| EmptyText (actual_title : ustr).           (* "抓取的文本長度為 0" *)

Inductive result (A : Type) :=
| Ok (a : A)
| Err (e : failure).
Arguments Err {A}.

Definition rbind {A B} (x : result A) (f : A -> result B) : result B :=
  match x with
  | Ok a => f a
  | Err e => Err e
  end.

(** What a run returns and leaves behind: the returned title and status
    and, when the text file was written, its name and content. *)
Record report := Report {
  rp_title : ustr;
  rp_status : status;
  rp_written : option (ustr * ustr)
}.

Section Driver.

(** The collaborators of the core: retrieval, parsing with noise
    removal, the file system and the inter-language-link service. *)
Variable html : Type.
Variables fetch_html_action fetch_html_rest : ustr -> option (html * ustr).
Variable detect_redirect_from_html : html -> option ustr.
Variable parse : html -> node.
Variable _fetch_langlink_title : ustr -> ustr -> option ustr.
Variable path_exists : ustr -> bool.
Variable url_to_title : ustr -> ustr.

(** [ensure_labels_after_marker] *)
Definition ensure_repl (title : ustr) (mt : mstate) : ustr :=
  let label := group_or_empty 1 mt in
  match lang_code label LABEL_LANG_MAP with
  | Some code =>
    if nonempty code then
      match _fetch_langlink_title title code with
      | Some name => if nonempty name then label ++ [COLON_FULL] ++ name
                     else group_or_empty 0 mt
      | None => group_or_empty 0 mt
      end
    else group_or_empty 0 mt
  | None => group_or_empty 0 mt
  end.

Definition ensure_labels_after_marker (text title : ustr) : ustr :=
  sub_fn _MISSING_AFTER_LABEL (ensure_repl title) text.

(** [try: fetch_html_action except: fetch_html_rest] *)
Definition fetch (title : ustr) : option (html * ustr) :=
  match fetch_html_action title with
  | Some r => Some r
  | None => fetch_html_rest title
  end.

Definition refetch (target : ustr) : result (html * ustr) :=
  match fetch target with
  | Some r => Ok r
  | None => Err (RedirectFetchFailed target)
  end.

Definition to_text (h : html) (exclude_sections : list ustr) : result ustr :=
  match html_to_text (parse h) exclude_sections with
  | Done t => Ok t
  | _ => Err WalkFailed
  end.

Definition differs (target : option ustr) (title : ustr) : bool :=
  truthy target && negb (ustr_eqb (or_empty target) title).

(** [process_one] from the first fetch to the text handed to the final
    check: the text, the resolved title and the redirect target. *)
Definition assemble (title : ustr) (exclude_sections : list ustr)
  : result (ustr * ustr * option ustr) :=
  rbind (match fetch title with
         | Some r => Ok r
         | None => Err (FetchFailed title)
         end) (fun '(h, actual_title) =>
  let html_redirect_target := detect_redirect_from_html h in
  rbind (if differs html_redirect_target title
         then refetch (or_empty html_redirect_target)
         else Ok (h, actual_title)) (fun '(h, actual_title) =>
  rbind (to_text h exclude_sections) (fun text =>
  let redirect_target := detect_redirect text in
  rbind (if differs redirect_target title
         then rbind (refetch (or_empty redirect_target)) (fun '(h, actual_title) =>
              rbind (to_text h exclude_sections) (fun text =>
              Ok (text, actual_title)))
         else Ok (text, actual_title)) (fun '(text, actual_title) =>
  Ok (ensure_labels_after_marker text actual_title, actual_title,
      redirect_target))))).

Definition TXT : ustr := U ".txt".

Definition process_one (raw : ustr) (kind_is_url : bool)
           (exclude_sections : list ustr) (force : bool) : result report :=
  let title := if kind_is_url then url_to_title raw else raw in
  if negb force && path_exists (safe_filename title ++ TXT)
  then Ok (Report title St_exists None)
  else
    rbind (assemble title exclude_sections)
          (fun '(text, actual_title, redirect_target) =>
    if length (strip text) =? 0 then Err (EmptyText actual_title)
    else
      let out_txt := safe_filename actual_title ++ TXT in
      if negb force && path_exists out_txt
      then Ok (Report actual_title
                      (if truthy redirect_target then St_redirect_exists
                       else St_exists) None)
      else Ok (Report actual_title
                      (if truthy redirect_target then St_redirect_ok else St_ok)
                      (Some (out_txt, text)))).

End Driver.

(* ================================================================= *)
(** ** Retrieval with retries: [http_get_with_backoff] *)

(** What one [session.get] brings: an exception, or a response with its
    status code and text. *)
Record response := Response { status_code : Z; resp_text : ustr }.

Inductive attempt :=
| Raised
| Returned (r : response).

Section Backoff.

(** [str.lower], and the outcome of each call of [session.get], counted
    from 0. *)
Variable lower : ustr -> ustr.
Variable get : nat -> attempt.

(** The body of the [try]: the response it returns, or [None] when it
    raises (the call itself, a 429 or 503, a reported replication lag, or
    [raise_for_status] on a 4xx or 5xx code). *)
Definition accept (a : attempt) : option response :=
  match a with
  | Raised => None
  | Returned r =>
    if (status_code r =? 429)%Z || (status_code r =? 503)%Z then None
    else if (status_code r =? 200)%Z
            && contains (U "maxlag") (lower (resp_text r))
            && contains (U "error") (lower (resp_text r)) then None
    else if (400 <=? status_code r)%Z && (status_code r <? 600)%Z then None
    else Some r
  end.

(** The loop [for i in range(retries + 1)], with the arguments of
    [time.sleep] (whole seconds) collected in [slept]; [None] is the final
    [RuntimeError]. *)
Fixpoint backoff_loop (retries : nat) (backoff_base : Z) (todo i : nat)
         (slept : list Z) : option response * list Z :=
  match todo with
  | 0 => (None, slept)
  | S todo' =>
    match accept (get i) with
    | Some r => (Some r, slept)
    | None =>
      if i =? retries then (None, slept)
      else backoff_loop retries backoff_base todo' (S i)
                        (slept ++ [(backoff_base ^ Z.of_nat i)%Z])
    end
  end.

Definition http_get_with_backoff (retries : nat) (backoff_base : Z)
  : option response * list Z :=
  backoff_loop retries backoff_base (S retries) 0 [].

End Backoff.

(* ================================================================= *)
(** ** Target lists: the text branch of [_process_single_file] *)

(** One line of a [.txt] target file: nothing for a blank line or a
    comment, else the stripped line and whether it is a URL. *)
Definition text_target (line : ustr) : option (ustr * bool) :=
  let s := strip line in
  if negb (nonempty s) || starts_with (U "#") s then None
  else if starts_with (U "http://") s || starts_with (U "https://") s
       then Some (s, true)
       else Some (s, false).

Definition text_targets (lines : list ustr) : list (ustr * bool) :=
  flat_map (fun line => match text_target line with
                        | Some t => [t]
                        | None => []
                        end) lines.

(* ================================================================= *)
(** ** The batch loop of [main] *)

(** A line of [all_data.jsonl]: a JSON object with its title, when it has
    one, and its text; or a line that is blank or does not parse to an
    object. *)
Inductive jline :=
| JRecord (title : option ustr) (text : ustr)
| JJunk.

(** What the loop keeps and leaves behind: the three counters, the text
    files written (latest first), [all_data.jsonl], the lines added to
    [_failures.jsonl], and the number of calls of [time.sleep]. *)
Record batch := Batch {
  n_ok : nat;
  n_skip : nat;
  n_fail : nat;
  txt_files : list (ustr * ustr);
  all_data : list jline;
  failures_log : list (ustr * bool * ustr * failure);
  sleeps : nat
}.

(** The lines kept when a forced run rewrites [all_data.jsonl] for
    [title]. *)
Definition other_title (title : ustr) (l : jline) : bool :=
  match l with
  | JRecord (Some t) _ => negb (ustr_eqb t title)
  | JRecord None _ => true
  | JJunk => false
  end.

Section Batch.

Variable html : Type.
Variables fetch_html_action fetch_html_rest : ustr -> option (html * ustr).
Variable detect_redirect_from_html : html -> option ustr.
Variable parse : html -> node.
Variable _fetch_langlink_title : ustr -> ustr -> option ustr.
Variable url_to_title : ustr -> ustr.

(** The text files present before the run. *)
Variable existed : ustr -> bool.

Definition exists_now (st : batch) (path : ustr) : bool :=
  existed path || existsb (fun f => ustr_eqb (fst f) path) (txt_files st).

(** The body of [for raw, kind, source_file in all_targets]. *)
Definition main_step (exclude_sections : list ustr) (force : bool)
           (st : batch) (target : ustr * bool * ustr) : batch :=
  let '(raw, kind_is_url, source_file) := target in
  match process_one fetch_html_action fetch_html_rest detect_redirect_from_html
                    parse _fetch_langlink_title (exists_now st) url_to_title
                    raw kind_is_url exclude_sections force with
  | Ok rep =>
    let files := match rp_written rep with
                 | Some f => f :: txt_files st
                 | None => txt_files st
                 end in
    let data := match rp_written rep with
                | Some (_, text) =>
                  (if force then filter (other_title (rp_title rep)) (all_data st)
                   else all_data st)
                    ++ [JRecord (Some (rp_title rep)) text]
                | None => all_data st
                end in
    match rp_status rep with
    | St_exists | St_redirect_exists =>
      Batch (n_ok st) (S (n_skip st)) (n_fail st) files data (failures_log st)
            (S (sleeps st))
    | St_ok | St_redirect_ok =>
      Batch (S (n_ok st)) (n_skip st) (n_fail st) files data (failures_log st)
            (S (sleeps st))
    end
  | Err e =>
    Batch (n_ok st) (n_skip st) (S (n_fail st)) (txt_files st) (all_data st)
          (failures_log st ++ [(raw, kind_is_url, source_file, e)])
          (S (sleeps st))
  end.

Definition main_loop (exclude_sections : list ustr) (force : bool)
           (all_targets : list (ustr * bool * ustr)) (data : list jline) : batch :=
  fold_left (main_step exclude_sections force) all_targets
            (Batch 0 0 0 [] data [] 0).

End Batch.

(* ================================================================= *)
(** * Vocabulary of the statements *)

(** ** Inline text joiner *)

(** The joining rule in the words of its description: fragments are taken
    in order; a fragment that is empty once stripped adds nothing; another
    one is appended to the output, after a single blank exactly when the
    output's last character and the fragment's first are both ASCII. *)
Fixpoint join_fragments (out : ustr) (frags : list ustr) : ustr :=
  match frags with
  | [] => out
  | f :: rest =>
    let s := strip f in
    if nonempty s
    then join_fragments
           (out ++ (if last_is_ascii out && first_ascii s then [SP] else []) ++ s)
           rest
    else join_fragments out rest
  end.

(** What the loops keep true: the parts spell the output so far, and the
    flag, once something was collected, tells whether it ends in ASCII. *)
Definition joined (a : acc) (out : ustr) : Prop :=
  concat (fst a) = out /\
  nonempty_list (fst a) && snd a = last_is_ascii out.

(** ** Driver *)

(** The title a run asks for. *)
Definition requested (url_to_title : ustr -> ustr) (raw : ustr)
           (kind_is_url : bool) : ustr :=
  if kind_is_url then url_to_title raw else raw.

(** The run stops at once when the requested file is already there. *)
Definition shortcut (path_exists : ustr -> bool) (url_to_title : ustr -> ustr)
           (raw : ustr) (kind_is_url force : bool) : bool :=
  negb force
  && path_exists (safe_filename (requested url_to_title raw kind_is_url) ++ TXT).

(** A page whose only paragraph is blank. *)
Definition blank_page : node :=
  Elem "[document]" [] []
       [Elem "div" ["mw-parser-output"%string] [] [Elem "p" [] [] [Text (U "  ")]]].

(** ** Section walker *)

(** The default of [--exclude-sections]. *)
Definition DEFAULT_EXCLUDE : list ustr :=
  Eval vm_compute in
    map U ["引用資料"; "參考書目"; "相關學術研究書目"; "參考"; "參考來源"; "參考資料";
           "外部連結"; "相關條目"; "擴展閱讀"; "延伸閱讀"; "參見"; "參考文獻"; "腳註";
           "註釋"; "註解"; "注解"; "備註"; "關聯項目"; "資料來源"; "注釋"; "註腳";
           "注腳"; "關連項目"; "備注"; "備註"]%string.


Definition is_h2 (c : ctx_node) : bool := has_name "h2" (cn_node c).

Definition title_of (c : ctx_node) : ustr := norm_title (smart_text (cn_node c)).

(** The key under which [add_title_if_new] remembers a title. *)
Definition title_key (t : ustr) : ustr :=
  strip (replace (U "##") [] (replace (U "###") [] t)).

Definition excluded (exclude : list ustr) (c : ctx_node) : bool :=
  existsb (fun key => contains key (title_of c)) exclude.

(** The article of the exclusion example: a lead paragraph, the section
    "參考資料" with three paragraphs, then the section "個人生活". *)
Definition para (s : string) : node := Elem "p" [] [] [Text (U s)].
Definition heading2 (s : string) : node := Elem "h2" [] [] [Text (U s)].

Definition article : node :=
  Elem "[document]" [] []
    [Elem "div" ["mw-parser-output"%string] []
       [heading2 "參考資料";
        para "王小明，《臺灣史》，2001年。";
        para "李大同，《音樂年鑑》，2010年。";
        para "陳美玲，《訪談錄》，2015年。";
        heading2 "個人生活";
        para "她住在臺北，喜歡登山與攝影。";
        para "她於2018年結婚，育有一子。"]].

Definition article_text : ustr :=
  Eval vm_compute in
    join [NL] [U "## 個人生活"; []; U "她住在臺北，喜歡登山與攝影。";
               U "她於2018年結婚，育有一子。"].

(** The level-2 contract read literally: whatever was emitted before, the
    heading adds a blank line, the heading line and a blank line. *)
Definition emits_heading_block (exclude : list ustr) (w : walk) (c : ctx_node) : Prop :=
  exists w', walk_step exclude w c = Done w'
             /\ lines w' = lines w ++ [[]; H2 ++ title_of c; []].

Definition first_heading : ctx_node := Ctx (heading2 "生平") [] [].

(** ** Table flattener *)

(** The two buffers of a row always have one length. *)
Definition aligned (b : bufs) : Prop := length (fst b) = length (snd b).

(** [k] more free columns at the right end. *)
Definition extend (k : nat) (b : bufs) : bufs :=
  (fst b ++ repeat None k, snd b ++ repeat None k).

(** [l[pos] = v] on a list that is long enough. *)
Definition update {A} (pos : nat) (v : A) (l : list A) : list A :=
  firstn pos l ++ v :: skipn (S pos) l.

(** What [place] writes into column [c + j] of the block. *)
Definition block_text (text : ustr) (j : nat) : ustr :=
  if j =? 0 then text else [].

Definition block_span (text : ustr) (rowspan : Z) (j : nat) : option span :=
  if (1 <? rowspan)%Z then Some (Span (rowspan - 1) (block_text text j)) else None.

(** The effect of placing one cell with text [text], [colspan] columns and
    [rowspan] rows at column [c], taking the buffers from [b] to [b']. *)
Definition placed (b : bufs) (text : ustr) (colspan : nat) (rowspan : Z)
           (c : nat) (b' : bufs) : Prop :=
  aligned b'
  /\ length (fst b') = Nat.max (length (fst b)) (c + colspan)
  /\ (forall j, j < colspan -> nth (c + j) (fst b) None = None)
  /\ (forall c', c' < c ->
                 exists j, j < colspan /\ nth (c' + j) (fst b) None <> None)
  /\ (forall j, j < colspan ->
                nth (c + j) (fst b') None = Some (block_text text j)
                /\ nth (c + j) (snd b') None = block_span text rowspan j)
  /\ (forall i, i < c \/ c + colspan <= i ->
                nth i (fst b') None = nth i (fst b) None
                /\ nth i (snd b') None = nth i (snd b) None).

(** It has one row less to go, and is dropped at zero. *)
Definition tick (sp : option span) : option span :=
  match sp with
  | Some s => if (rows_left s - 1 =? 0)%Z then None
              else Some (Span (rows_left s - 1) (value s))
  | None => None
  end.

(** Table cells for the examples. *)
Definition cell (text colspan rowspan : string) : node :=
  Elem "td" [] [("colspan"%string, U colspan); ("rowspan"%string, U rowspan)]
       [Text (U text)].

Definition table_of (rows : list (list node)) : node :=
  Elem "table" [] [] (map (fun cells => Elem "tr" [] [] cells) rows).

(** The columns of a row that hold non-empty text. *)
Definition nonempty_columns (row : row_buf) : nat :=
  length (filter (fun c => nonempty (or_empty c)) row).

(** The spans left when the rows [trs] are done. *)
Fixpoint spans_after (spans : span_buf) (trs : list node) : outcome span_buf :=
  match trs with
  | [] => Done spans
  | tr :: rest => '(spans', _) <- process_tr spans tr ;; spans_after spans' rest
  end.

(** A cell without text that spans two rows: both output rows have the
    empty string in its column, and no column holds one non-empty value in
    both rows. *)
Definition empty_span_table : node :=
  table_of [[cell "" "1" "2"; cell "甲" "1" "1"]; [cell "乙" "1" "1"]].

Definition span_row : node :=
  Elem "tr" [] [] [cell "年份" "1" "2"; cell "作品" "1" "1"].

Definition cells_of (tr : node) : list node := find_children ["th"; "td"]%string tr.

(** A row of a table without merged cells that is written out in full:
    every cell spans one column and one row, there is a cell, and the last
    cell's text is not empty. *)
Definition plain_row (tr : node) : Prop :=
  cells_of tr <> []
  /\ (forall cl, In cl (cells_of tr) ->
                 cell_colspan cl = 1 /\ cell_rowspan cl = 1%Z)
  /\ cell_text (last (cells_of tr) (Text [])) <> [].

Definition row_line (tr : node) : ustr :=
  BULLET ++ join SEP (map cell_text (cells_of tr)).

(** The row buffers while the cells of a plain row are placed: the texts
    so far, one per column from the left, free columns after them, and no
    span anywhere. *)
Definition row_state (b : bufs) (texts : list ustr) : Prop :=
  aligned b
  /\ (forall i, nth i (fst b) None = nth i (map Some texts) None)
  /\ (forall i, nth i (snd b) None = None).

Definition free_spans (spans : span_buf) : Prop := forall i, nth i spans None = None.

Definition filmography : node :=
  table_of [[cell "年份" "1" "1"; cell "片名" "1" "1"; cell "角色" "1" "1"];
            [cell "2001" "1" "1"; cell "" "1" "1"; cell "阿明" "1" "1"]].

(** ** Matching, as a relation *)

(** [iter R lo]: some rounds of [R], at least [lo] of them. *)
Inductive iter (R : mstate -> mstate -> Prop) : nat -> mstate -> mstate -> Prop :=
| iter_stop (s : mstate) : iter R 0 s s
| iter_step (lo : nat) (s s1 s2 : mstate) :
    R s s1 -> iter R (pred lo) s1 s2 -> iter R lo s s2.

(** [matches r s s']: [r] can match from [s] up to [s'], whatever the order
    in which the matcher tries the alternatives. *)
Fixpoint matches (r : re) (s s' : mstate) : Prop :=
  match r with
  | Eps => s' = s
  | Chr p => exists c t, aft s = c :: t /\ p c = true
                         /\ s' = MS (c :: bef s) t (caps s)
  | Seq a b => exists s1, matches a s s1 /\ matches b s1 s'
  | Alt a b => matches a s s' \/ matches b s s'
  | Rep _ lo _ a => iter (matches a) lo s s'
  | Grp i a => exists s1, matches a s s1 /\ s' = set_cap i s s1
  | Ahead a => s' = s /\ exists s1, matches a s s1
  | Behind p => s' = s /\ exists c b, bef s = c :: b /\ p c = true
  | Eos => s' = s /\ (aft s = [] \/ aft s = [NL])
  end.

(** ** Label repair *)

Definition SCI_NAME : ustr := Eval vm_compute in U "學名".
Definition MASOU : ustr := Eval vm_compute in U "Oncorhynchus masou formosanus".
Definition COMMA : N := Eval vm_compute in hd 0%N (U "，").

(** Nodes the scan walks over before it has seen a colon: tags other than
    [br], and strings without a colon. *)
Definition before_colon (nd : node) : Prop :=
  match nd with
  | Text s | Other _ s => after_colon s = None
  | Elem name _ _ _ => String.eqb name "br" = false
  end.

(** [_MISSING_AFTER_LABEL] over any vocabulary. *)
Definition missing_after (labels : list ustr) : re :=
  seqs [Grp 1 (alts (map lit labels)); chr COLON_FULL;
        Ahead (seqs [star ws; any_of MISSING_STOPS])].

Definition SCI_HEAD : N := Eval vm_compute in hd 0%N SCI_NAME.

(** A paragraph whose value sits where the inline joiner does not look. *)
Definition masou_paragraph : node :=
  Elem "p" [] []
       [Elem "b" [] [] [Text (U "學名")]; Text (U "：");
        Elem "ul" [] [] [Text (U "Oncorhynchus masou formosanus")];
        Text (U "，台灣特有亞種。")].

(** ** Normalizer *)

(** Patterns that take no character. *)
Fixpoint zero_width (r : re) : bool :=
  match r with
  | Eps | Ahead _ | Behind _ | Eos => true
  | Seq a b => zero_width a && zero_width b
  | Grp _ a => zero_width a
  | _ => false
  end.

(** [starts_in P r]: every match of [r] begins by taking a character of
    the class [P]. *)
Fixpoint starts_in (P : N -> bool) (r : re) : Prop :=
  match r with
  | Chr p => forall c, p c = true -> P c = true
  | Seq a b => starts_in P a \/ (zero_width a = true /\ starts_in P b)
  | Alt a b => starts_in P a /\ starts_in P b
  | Rep _ lo _ a => 1 <= lo /\ starts_in P a
  | Grp _ a => starts_in P a
  | _ => False
  end.

(** Text without any whitespace character. *)
Definition clean (s : ustr) : Prop := Forall (fun c => is_space c = false) s.



(** ** Span attributes *)

(** A character no numeral can hold. *)
Definition not_numeric (c : N) : bool :=
  negb (is_digit c) && negb (c =? 95)%N && negb (c =? 43)%N
  && negb (c =? 45)%N && negb (is_space c).

(** ** Lines and headings *)

(** The test of [remove_duplicate_headings] for a heading line. *)
Definition is_heading_line (line : ustr) : bool :=
  starts_with (U "###") (strip line) || starts_with (U "##") (strip line).

(** Lines without a blank line at the top ([prev_blank] set) and without
    two blank lines in a row. *)
Fixpoint spaced (prev_blank : bool) (ls : list ustr) : bool :=
  match ls with
  | [] => true
  | l :: rest =>
    if nonempty l then spaced false rest
    else negb prev_blank && spaced true rest
  end.

Definition well_spaced (ls : list ustr) : bool := spaced true ls.

(** ** Runs of characters *)

(** The longest prefix of characters of a class, and what follows it. *)
Fixpoint take_run (p : N -> bool) (s : ustr) : ustr :=
  match s with
  | c :: t => if p c then c :: take_run p t else []
  | [] => []
  end.

Fixpoint drop_run (p : N -> bool) (s : ustr) : ustr :=
  match s with
  | c :: t => if p c then drop_run p t else s
  | [] => []
  end.

(** Every run of blanks, tabs and no-break spaces is a single space;
    [prev] tells that one stands right before [s]. *)
Fixpoint single_spaced (prev : bool) (s : ustr) : bool :=
  match s with
  | [] => true
  | c :: t =>
    if is_hspace c then (c =? SP)%N && negb prev && single_spaced true t
    else single_spaced false t
  end.

(** No three line breaks in a row, [k] of them standing before [s]. *)
Fixpoint short_breaks (k : nat) (s : ustr) : bool :=
  match s with
  | [] => true
  | c :: t =>
    if (c =? NL)%N then (k <? 2) && short_breaks (S k) t
    else short_breaks 0 t
  end.

(** ** Label repair and list items *)

(** Text without a stop character. *)
Definition no_stop (v : ustr) : Prop :=
  Forall (fun c => in_str _STOP_CHARS c = false) v.

(** The string a node stands for, when it is one. *)
Definition string_of (nd : node) : option ustr :=
  match nd with
  | Text s | Other _ s => Some s
  | Elem _ _ _ _ => None
  end.

(** A string with a colon, [r] being what follows the colon in it. *)
Definition colon_then (r : ustr) (nd : node) : Prop :=
  exists s, string_of nd = Some s /\ after_colon s = Some r.

(** Nodes the scan goes through once the colon is seen: tags other than
    [br], and strings without a stop character. *)
Definition gone_through (nd : node) : Prop :=
  match nd with
  | Text s | Other _ s => no_stop (strip s)
  | Elem name _ _ _ => String.eqb name "br" = false
  end.

(** The pieces of text they hold. *)
Definition pieces (nds : list node) : list ustr :=
  flat_map (fun nd => match string_of nd with
                      | Some s => if nonempty (strip s) then [strip s] else []
                      | None => []
                      end) nds.

(** A string with a stop character, [last] being what stands before the
    first one. *)
Definition stops_after (last : ustr) (nd : node) : Prop :=
  exists s c more,
    string_of nd = Some s /\ strip s = last ++ c :: more
    /\ no_stop last /\ in_str _STOP_CHARS c = true.

(** The tree of the claim: a node whose own text is "學名", followed in
    document order by the text of the name, with no comma in between. *)
Definition label_before_value (el : node) : Prop :=
  exists before anchor mid tail,
    descendants el = before ++ anchor :: mid ++ Text MASOU :: tail
    /\ exact_text SCI_NAME anchor = true
    /\ Forall (fun d => match string_of d with
                        | Some s => in_str s COMMA = false
                        | None => True
                        end) mid.

(** A paragraph with a line break between the colon and the name, and one
    with two labels. *)
Definition masou_break : node :=
  Elem "p" [] []
       [Elem "b" [] [] [Text (U "學名")]; Text (U "：");
        Elem "ul" [] [] [Elem "br" [] [] []; Text MASOU];
        Text (U "，台灣特有亞種。")].

Definition masou_twice : node :=
  Elem "p" [] []
       [Elem "b" [] [] [Text (U "學名")]; Text (U "：");
        Elem "i" [] [] [Text (U "Salmo formosanus")]; Text (U "，今作");
        Elem "b" [] [] [Text (U "學名")]; Text (U "：");
        Elem "ul" [] [] [Text MASOU];
        Text (U "，台灣特有亞種。")].

(** The name spelled over two tags, the comma closing the second string. *)
Definition masou_pieces : node :=
  Elem "p" [] []
       [Elem "b" [] [] [Text (U "學名")]; Text (U "：");
        Elem "ul" [] [] [Elem "i" [] [] [Text (U "Oncorhynchus")];
                         Text (U " masou formosanus ，")];
        Text (U "，台灣特有亞種。")].

(** Text that starts and ends with a character that is no whitespace. *)
Definition tight (s : ustr) : Prop :=
  (exists c t, s = c :: t /\ is_space c = false)
  /\ (exists o d, s = o ++ [d] /\ is_space d = false).

(** A paragraph whose label has no value anywhere. *)
Definition unlabelled : node := Elem "p" [] [] [Text (U "本名：，生於臺北。")].

(** A nested list item without a line break ([br]) inside. *)
Definition plain_item (it : node) : Prop :=
  has_name "li" it = true /\ existsb (has_name "br") (preorder it) = false.

Definition nested_list : node :=
  Elem "li" [] []
       [Text (U "專輯"); Elem "ul" [] [] [Elem "li" [] [] [Text (U "看我72變")]]].

(** ** Retrieval and the batch loop *)

(** The sleeps before call [k]: [backoff_base ** i] for each [i] below
    [k]. *)
Definition pauses (backoff_base : Z) (k : nat) : list Z :=
  map (fun i => (backoff_base ^ Z.of_nat i)%Z) (seq 0 k).

Definition total (l : list Z) : Z := fold_right Z.add 0%Z l.

(** A server that is busy twice and then answers, and one that stays
    busy. *)
Definition busy_then_ok (i : nat) : attempt :=
  if i <? 2 then Returned (Response 503 [])
  else Returned (Response 200 (U "<p>ok</p>")).

Definition always_busy (i : nat) : attempt := Returned (Response 429 []).

(** The titles of the records of [all_data.jsonl]. *)
Definition titles (ls : list jline) : list ustr :=
  flat_map (fun l => match l with
                     | JRecord (Some t) _ => [t]
                     | _ => []
                     end) ls.

(** An [all_data.jsonl] with an unreadable line and two records. *)
Definition old_data : list jline :=
  [JJunk; JRecord (Some (U "蔡依林")) (U "舊文");
   JRecord (Some (U "周杰倫")) (U "舊文")].

(** ** Redirects *)

(** The characters a redirect marker starts with: [#] and the first
    character of the two Chinese phrases. *)
Definition redirect_mark (c : N) : bool :=
  (c =? 35)%N || (c =? hd 0%N (U "重"))%N.

(* ================================================================= *)
(** * Properties *)

Lemma ustr_eqb_spec (a b : ustr) : ustr_eqb a b = true <-> a = b.
Proof.
  unfold ustr_eqb. destruct (list_eq_dec N.eq_dec a b); split; congruence.
Qed.

(* ================================================================= *)
(** ** Inline text joiner: the ASCII-boundary rule *)

Section Joiner.

Lemma nonempty_spec (s : ustr) : nonempty s = false <-> s = [].
Proof.
  unfold nonempty. destruct (ustr_eqb s []) eqn:E; simpl.
  - apply ustr_eqb_spec in E. split; congruence.
  - split; [discriminate|]. intros ->. unfold ustr_eqb in E.
    destruct (list_eq_dec N.eq_dec [] []); congruence.
Qed.

Lemma nonempty_true (s : ustr) : nonempty s = true <-> s <> [].
Proof.
  destruct (nonempty s) eqn:E.
  - split; [|reflexivity]. intros _ H. apply nonempty_spec in H. congruence.
  - apply nonempty_spec in E. split; [discriminate|congruence].
Qed.

Lemma nonempty_list_app {A} (l : list A) (x : A) :
  nonempty_list (l ++ [x]) = true.
Proof. destruct l; reflexivity. Qed.

Lemma last_is_ascii_app (a s : ustr) :
  s <> [] -> last_is_ascii (a ++ s) = last_is_ascii s.
Proof.
  intros Hs. unfold last_is_ascii. rewrite rev_app_distr.
  destruct (rev s) eqn:E; [|reflexivity].
  apply (f_equal (@rev N)) in E. rewrite rev_involutive in E. contradiction.
Qed.

Lemma joined_start : joined ([], false) [].
Proof. split; reflexivity. Qed.

Lemma joined_push (a : acc) (out s : ustr) :
  joined a out -> s <> [] ->
  joined (push_fragment s a)
         (out ++ (if last_is_ascii out && first_ascii s then [SP] else []) ++ s).
Proof.
  intros [Hc Hf] Hs. destruct a as [parts la]. simpl in *.
  unfold push_fragment. rewrite Hf.
  split; simpl.
  - destruct (last_is_ascii out && first_ascii s);
      rewrite ?concat_app, ?Hc; simpl; rewrite ?app_nil_r, <- ?app_assoc;
      subst; reflexivity.
  - rewrite nonempty_list_app. simpl.
    rewrite app_assoc. symmetry. apply last_is_ascii_app, Hs.
Qed.

Lemma smart_text_fold (rec : node -> ustr) (frags : list ustr) :
  forall a out, joined a out ->
    concat (fst (fold_left (smart_child rec) (map Text frags) a))
    = join_fragments out frags.
Proof.
  induction frags as [|f rest IH]; intros a out Ha; simpl.
  - apply Ha.
  - destruct (nonempty (strip f)) eqn:E.
    + apply IH, joined_push; [assumption|]. now apply nonempty_true.
    + now apply IH.
Qed.

Lemma li_walk_fold (frags : list ustr) :
  forall a out, joined a out ->
    concat (fst (fold_left (li_walk false) (map Text frags) a))
    = join_fragments out frags.
Proof.
  induction frags as [|f rest IH]; intros a out Ha; simpl.
  - apply Ha.
  - destruct (nonempty (strip f)) eqn:E.
    + rewrite orb_false_r.
      destruct (nonempty f) eqn:Ef; simpl.
      * apply IH, joined_push; [assumption|]. now apply nonempty_true.
      * apply nonempty_spec in Ef. subst f. discriminate E.
    + rewrite orb_true_r. now apply IH.
Qed.

End Joiner.

(** C7. For a tag whose children are text fragments, [smart_text] and
    [extract_text_from_li] join them by the ASCII-boundary rule: one blank
    goes in exactly when the output so far ends in an ASCII character and
    the next fragment starts with one; empty and whitespace-only fragments
    add nothing and leave the state as it was. *)
Theorem ascii_boundary_join (name : string) (cls : list string)
        (attrs : list (string * ustr)) (frags : list ustr) :
  name <> "ol"%string -> name <> "ul"%string ->
  smart_text (Elem name cls attrs (map Text frags)) = join_fragments [] frags
  /\ extract_text_from_li (Elem name cls attrs (map Text frags))
     = join_fragments [] frags.
Proof.
  intros Hol Hul. split.
  - simpl. apply String.eqb_neq in Hol, Hul. rewrite Hol, Hul.
    apply smart_text_fold, joined_start.
  - unfold extract_text_from_li. simpl.
    apply li_walk_fold, joined_start.
Qed.

Lemma ascii_boundary_join_witness :
  smart_text (Elem "span" [] [] (map Text [U "Jolin"; U "  "; U "Tsai"]))
  = U "Jolin Tsai"
  /\ extract_text_from_li (Elem "li" [] [] (map Text [U "歌手"; U ""; U "身分"]))
     = U "歌手身分".
Proof.
  split.
  - rewrite (proj1 (@ascii_boundary_join "span" [] [] [U "Jolin"; U "  "; U "Tsai"]
                      ltac:(discriminate) ltac:(discriminate))).
    reflexivity.
  - rewrite (proj2 (@ascii_boundary_join "li" [] [] [U "歌手"; U ""; U "身分"]
                      ltac:(discriminate) ltac:(discriminate))).
    reflexivity.
Defined.

(* ================================================================= *)
(** ** The driver's check on its own output *)

Section DriverFacts.

Variable html : Type.
Variables fetch_html_action fetch_html_rest : ustr -> option (html * ustr).
Variable detect_redirect_from_html : html -> option ustr.
Variable parse : html -> node.
Variable _fetch_langlink_title : ustr -> ustr -> option ustr.
Variable path_exists : ustr -> bool.
Variable url_to_title : ustr -> ustr.

Let run := process_one fetch_html_action fetch_html_rest
                       detect_redirect_from_html parse _fetch_langlink_title
                       path_exists url_to_title.
Let assembled := assemble fetch_html_action fetch_html_rest
                          detect_redirect_from_html parse _fetch_langlink_title.

Lemma strip_length_zero (text : ustr) :
  (length (strip text) =? 0) = true <-> strip text = [].
Proof.
  rewrite Nat.eqb_eq. split.
  - now destruct (strip text).
  - now intros ->.
Qed.

(** C8. Once a run has assembled its text, a text that is empty after
    stripping makes [process_one] fail with [EmptyText], a failure of its
    own kind, and nothing is returned or written; a run that returns
    without failure either stopped at the shortcut for an existing file,
    before any text was assembled, or assembled a text that is not empty
    after stripping, and whatever it wrote is such a text. *)
Theorem empty_output_failure (raw : ustr) (kind_is_url : bool)
        (exclude_sections : list ustr) (force : bool) :
  (forall text actual_title redirect_target,
      shortcut path_exists url_to_title raw kind_is_url force = false ->
      assembled (requested url_to_title raw kind_is_url) exclude_sections
      = Ok (text, actual_title, redirect_target) ->
      strip text = [] ->
      run raw kind_is_url exclude_sections force = Err (EmptyText actual_title))
  /\
  (forall rep,
      run raw kind_is_url exclude_sections force = Ok rep ->
      (shortcut path_exists url_to_title raw kind_is_url force = true /\ rp_written rep = None)
      \/ (exists text actual_title redirect_target,
             assembled (requested url_to_title raw kind_is_url) exclude_sections
             = Ok (text, actual_title, redirect_target)
             /\ strip text <> []
             /\ rp_title rep = actual_title
             /\ (forall f t, rp_written rep = Some (f, t) -> t = text))).
Proof.
  unfold run, assembled, shortcut, requested, process_one. split.
  - intros text actual_title redirect_target Hs Ha He.
    rewrite Hs, Ha. simpl.
    apply strip_length_zero in He. now rewrite He.
  - intros rep.
    destruct (negb force && path_exists _) eqn:Hs.
    + intros [= <-]. left. split; reflexivity.
    + destruct (assemble _ _ _ _ _ _ _) as [[[text actual_title] rt]|e] eqn:Ha;
        simpl; [|discriminate].
      destruct (length (strip text) =? 0) eqn:He; [discriminate|].
      intros Hr. right. exists text, actual_title, rt.
      split; [reflexivity|]. split.
      * intros H. apply strip_length_zero in H. congruence.
      * destruct (negb force && path_exists (safe_filename actual_title ++ TXT));
          injection Hr as <-; simpl; split; try reflexivity;
            intros f t; congruence.
Qed.

End DriverFacts.

Lemma empty_output_failure_witness :
  process_one (fun t => Some (blank_page, t)) (fun _ => None) (fun _ => None)
              (fun h => h) (fun _ _ => None) (fun _ => false) (fun r => r)
              (U "空白頁") false [] false
  = Err (EmptyText (U "空白頁")).
Proof.
  apply (proj1 (empty_output_failure
                  (fun t => Some (blank_page, t)) (fun _ => None) (fun _ => None)
                  (fun h => h) (fun _ _ => None) (fun _ => false) (fun r => r)
                  (U "空白頁") false [] false) [] (U "空白頁") None);
    vm_compute; reflexivity.
Defined.

(* ================================================================= *)
(** ** Section walker: exclusion and the level-2 heading contract *)

Lemma fold_outcome_app {A B} (f : A -> B -> outcome A) (l1 l2 : list B) (a : A) :
  fold_outcome f (l1 ++ l2) a = (a' <- fold_outcome f l1 a ;; fold_outcome f l2 a').
Proof.
  revert a. induction l1 as [|x l1 IH]; intros a; simpl; [reflexivity|].
  destruct (f a x); simpl; auto.
Qed.

Section WalkerFacts.

Variable exclude : list ustr.







End WalkerFacts.



(** The first heading of a document gets no blank line before it. *)
Lemma heading_block_counterexample :
  is_h2 first_heading = true
  /\ excluded DEFAULT_EXCLUDE first_heading = false
  /\ walk_step DEFAULT_EXCLUDE (Walk [] false []) first_heading
     = Done (Walk [U "## 生平"; []] false [U "生平"])
  /\ ~ emits_heading_block DEFAULT_EXCLUDE (Walk [] false []) first_heading.
Proof.
  repeat split; try (vm_compute; reflexivity).
  intros [w' [Hw Hl]]. vm_compute in Hw. injection Hw as <-. discriminate Hl.
Qed.

(** C9, as the walker has it.  A level-2 heading whose normalized text is
    not empty, holds no excluded keyword and was not emitted before adds
    the heading line and one blank line after it, and one blank line before
    it unless nothing was emitted yet or the last line is already blank; it
    clears [skipping] and records the title.  A heading with an empty or an
    already emitted title adds nothing. *)
Theorem h2_heading_emission (exclude : list ustr) (w : walk) (c : ctx_node) :
  is_h2 c = true -> excluded exclude c = false ->
  (title_of c <> [] ->
   existsb (ustr_eqb (title_key (title_of c))) (processed_titles w) = false ->
   walk_step exclude w c
   = Done (Walk (lines w
                 ++ (if last_line_nonblank (lines w) then [[]] else [])
                 ++ [H2 ++ title_of c; []])
                false (title_key (title_of c) :: processed_titles w)))
  /\ (title_of c = []
      \/ existsb (ustr_eqb (title_key (title_of c))) (processed_titles w) = true ->
      walk_step exclude w c = Done (Walk (lines w) false (processed_titles w))).
Proof.
  unfold is_h2, excluded, title_of, title_key, walk_step.
  intros -> ->. unfold add_title_if_new. simpl. split.
  - intros Ht Hn. apply nonempty_true in Ht. rewrite Ht, Hn. simpl.
    unfold append_lines. simpl.
    destruct (last_line_nonblank (lines w)); simpl;
      rewrite <- ?app_assoc; reflexivity.
  - intros [Ht|Hs].
    + rewrite Ht. reflexivity.
    + destruct (nonempty _); simpl; [|reflexivity]. rewrite Hs. reflexivity.
Qed.

Lemma h2_heading_emission_witness :
  walk_step DEFAULT_EXCLUDE (Walk [U "前言。"] false []) first_heading
  = Done (Walk [U "前言。"; []; U "## 生平"; []] false [U "生平"]).
Proof.
  apply (proj1 (@h2_heading_emission DEFAULT_EXCLUDE (Walk [U "前言。"] false [])
                  first_heading ltac:(reflexivity) ltac:(vm_compute; reflexivity)));
    [vm_compute; discriminate | vm_compute; reflexivity].
Defined.

(* ================================================================= *)
(** ** Table flattener: placement, spans and termination *)

Section TableFacts.

Lemma nth_app_none {A} (l : list (option A)) (k i : nat) :
  nth i (l ++ repeat None k) None = nth i l None.
Proof.
  destruct (Nat.lt_ge_cases i (length l)) as [H|H].
  - now apply app_nth1.
  - rewrite app_nth2 by lia. rewrite (nth_overflow l) by lia. apply nth_repeat.
Qed.

Lemma extend_0 (b : bufs) : extend 0 b = b.
Proof. destruct b. unfold extend. simpl. now rewrite !app_nil_r. Qed.

Lemma extend_extend (j k : nat) (b : bufs) : extend k (extend j b) = extend (j + k) b.
Proof. unfold extend. simpl. now rewrite !repeat_app, !app_assoc. Qed.

Lemma extend_length (k : nat) (b : bufs) :
  length (fst (extend k b)) = length (fst b) + k.
Proof. unfold extend. simpl. now rewrite length_app, repeat_length. Qed.

Lemma extend_aligned (k : nat) (b : bufs) : aligned b -> aligned (extend k b).
Proof.
  unfold aligned, extend. simpl. intros H. now rewrite !length_app, !repeat_length, H.
Qed.

Lemma extend_row (k : nat) (b : bufs) (i : nat) :
  nth i (fst (extend k b)) None = nth i (fst b) None.
Proof. apply nth_app_none. Qed.

Lemma extend_spans (k : nat) (b : bufs) (i : nat) :
  nth i (snd (extend k b)) None = nth i (snd b) None.
Proof. apply nth_app_none. Qed.

Lemma ensure_extend (pos : nat) (b : bufs) :
  ensure pos b = extend (S pos - length (fst b)) b.
Proof. reflexivity. Qed.

Lemma get_item_nth {A} (l : list A) (pos : nat) (d : A) :
  pos < length l -> get_item l pos = Done (nth pos l d).
Proof.
  intros H. unfold get_item. now rewrite (nth_error_nth' l d H).
Qed.

(** A failed test leaves the buffers as they were and names a taken column
    in the tested range; a passed test found the whole range free and grew
    the buffers just enough to hold it. *)
Lemma check_fit_spec (todo : nat) :
  forall (b : bufs) (col_idx offset : nat),
    col_idx + offset <= length (fst b) ->
    (exists pos,
        check_fit b col_idx todo offset = Done (b, Some (pos + 1))
        /\ col_idx + offset <= pos < col_idx + offset + todo
        /\ pos < length (fst b)
        /\ nth pos (fst b) None <> None
        /\ forall j, col_idx + offset <= j < pos -> nth j (fst b) None = None)
    \/ (check_fit b col_idx todo offset
        = Done (extend (col_idx + offset + todo - length (fst b)) b, None)
        /\ forall j, col_idx + offset <= j < col_idx + offset + todo ->
                     nth j (fst b) None = None).
Proof.
  induction todo as [|todo IH]; intros b col_idx offset Hlen.
  - right. split; [|intros j Hj; lia].
    simpl. replace (col_idx + offset + 0 - length (fst b)) with 0 by lia.
    now rewrite extend_0.
  - cbn [check_fit]. rewrite ensure_extend.
    remember (S (col_idx + offset) - length (fst b)) as k eqn:Ek.
    assert (Hin : col_idx + offset < length (fst (extend k b)))
      by (rewrite extend_length; lia).
    rewrite (get_item_nth _ None Hin). cbn [bind]. rewrite extend_row.
    destruct (nth (col_idx + offset) (fst b) None) as [v|] eqn:Hv.
    + (* taken: the position lies inside the old row *)
      assert (Hold : col_idx + offset < length (fst b)).
      { destruct (Nat.lt_ge_cases (col_idx + offset) (length (fst b))); [assumption|].
        rewrite nth_overflow in Hv by lia. discriminate. }
      left. exists (col_idx + offset).
      replace k with 0 by (lia). rewrite extend_0.
      split; [reflexivity|]. split; [lia|]. split; [lia|]. split.
      * rewrite Hv. discriminate.
      * intros j Hj. lia.
    + assert (Hpre : col_idx + S offset <= length (fst (extend k b)))
        by (rewrite extend_length; lia).
      destruct (IH (extend k b) col_idx (S offset) Hpre)
        as [[pos (Hc & Hr & Hl & Ht & Hf)]|[Hc Hf]].
      * (* a later position is taken: nothing was appended *)
        rewrite extend_row in Ht.
        assert (Hold : pos < length (fst b)).
        { destruct (Nat.lt_ge_cases pos (length (fst b))); [assumption|].
          rewrite nth_overflow in Ht by lia. congruence. }
        assert (Hk : k = 0) by (lia).
        rewrite Hk, extend_0 in Hc |- *.
        left. exists pos.
        split; [assumption|]. split; [lia|]. split; [lia|]. split; [assumption|].
        intros j Hj. destruct (Nat.eq_dec j (col_idx + offset)) as [->|Hne];
          [assumption|].
        rewrite <- (extend_row k b). apply Hf. lia.
      * right. split.
        -- rewrite Hc, extend_extend, extend_length. do 3 f_equal. lia.
        -- intros j Hj. destruct (Nat.eq_dec j (col_idx + offset)) as [->|Hne];
             [assumption|].
           rewrite <- (extend_row k b). apply Hf. lia.
Qed.

(** The search returns the lowest column from [col_idx] on at which
    [colspan] columns in a row are free, with the buffers grown to hold
    them.  One round per column of the row, and one more, is enough. *)
Lemma find_slot_spec (fuel : nat) :
  forall (b : bufs) (col_idx colspan : nat),
    1 <= colspan ->
    col_idx <= length (fst b) ->
    length (fst b) - col_idx < fuel ->
    exists c,
      find_slot fuel b col_idx colspan
      = Done (extend (c + colspan - length (fst b)) b, c)
      /\ col_idx <= c <= length (fst b)
      /\ (forall j, j < colspan -> nth (c + j) (fst b) None = None)
      /\ (forall c', col_idx <= c' < c ->
                     exists j, j < colspan /\ nth (c' + j) (fst b) None <> None).
Proof.
  induction fuel as [|fuel IH]; intros b col_idx colspan Hcs Hcol Hfuel; [lia|].
  cbn [find_slot]. rewrite ensure_extend.
  remember (S col_idx - length (fst b)) as k eqn:Ek.
  assert (Hpre : col_idx + 0 <= length (fst (extend k b)))
    by (rewrite extend_length; lia).
  destruct (@check_fit_spec colspan (extend k b) col_idx 0 Hpre)
    as [[pos (Hc & Hr & Hl & Ht & Hf)]|[Hc Hf]].
  - rewrite Hc. cbn [bind]. rewrite extend_row in Ht.
    assert (Hold : pos < length (fst b)).
    { destruct (Nat.lt_ge_cases pos (length (fst b))); [assumption|].
      rewrite nth_overflow in Ht by lia. congruence. }
    assert (Hk : k = 0) by (lia).
    rewrite Hk, extend_0.
    destruct (IH b (pos + 1) colspan) as [c (Hd & Hc1 & Hfree & Hlow)]; try lia.
    exists c. split; [assumption|]. split; [lia|]. split; [assumption|].
    intros c' Hc'. destruct (Nat.le_gt_cases c' pos) as [Hle|Hgt].
    + exists (pos - c'). split; [lia|].
      now replace (c' + (pos - c')) with pos by lia.
    + apply Hlow. lia.
  - rewrite Hc. cbn [bind]. exists col_idx.
    rewrite extend_extend, extend_length. split.
    + f_equal. f_equal. f_equal. lia.
    + split; [lia|]. split.
      * intros j Hj. rewrite <- (extend_row k b). apply Hf. lia.
      * intros c' Hc'. lia.
Qed.

Lemma set_item_done {A} (l : list A) (pos : nat) (v : A) :
  pos < length l -> set_item l pos v = Done (update pos v l).
Proof.
  intros H. unfold set_item. apply Nat.ltb_lt in H. now rewrite H.
Qed.

Lemma update_length {A} (l : list A) (pos : nat) (v : A) :
  pos < length l -> length (update pos v l) = length l.
Proof.
  intros H. unfold update. rewrite length_app, length_firstn.
  change (length (v :: skipn (S pos) l)) with (S (length (skipn (S pos) l))).
  rewrite length_skipn. lia.
Qed.

Lemma update_same {A} (l : list A) (pos : nat) (v d : A) :
  pos < length l -> nth pos (update pos v l) d = v.
Proof.
  intros H. unfold update. rewrite app_nth2; rewrite length_firstn; [|lia].
  replace (pos - Nat.min pos (length l)) with 0 by lia. reflexivity.
Qed.

Lemma update_other {A} (l : list A) (pos i : nat) (v d : A) :
  pos < length l -> i <> pos -> nth i (update pos v l) d = nth i l d.
Proof.
  intros H Hi. unfold update.
  destruct (Nat.lt_ge_cases i pos) as [Hlt|Hge].
  - rewrite app_nth1 by (rewrite length_firstn; lia).
    rewrite nth_firstn. apply Nat.ltb_lt in Hlt. now rewrite Hlt.
  - rewrite app_nth2; rewrite length_firstn; [|lia].
    replace (i - Nat.min pos (length l)) with (S (i - pos - 1)) by lia.
    change (nth (S (i - pos - 1)) (v :: skipn (S pos) l) d)
      with (nth (i - pos - 1) (skipn (S pos) l) d).
    rewrite nth_skipn. f_equal. lia.
Qed.

Lemma place_spec (text : ustr) (rowspan : Z) (c todo : nat) :
  forall (offset : nat) (b : bufs),
    aligned b -> c + offset + todo <= length (fst b) ->
    exists b',
      place text rowspan c todo offset b = Done b'
      /\ aligned b' /\ length (fst b') = length (fst b)
      /\ (forall j, offset <= j < offset + todo ->
                    nth (c + j) (fst b') None = Some (block_text text j)
                    /\ nth (c + j) (snd b') None = block_span text rowspan j)
      /\ (forall i, i < c + offset \/ c + offset + todo <= i ->
                    nth i (fst b') None = nth i (fst b) None
                    /\ nth i (snd b') None = nth i (snd b) None).
Proof.
  induction todo as [|todo IH]; intros offset b Hal Hlen.
  - exists b. simpl. split; [reflexivity|]. split; [assumption|].
    split; [reflexivity|]. split; [intros j Hj; lia|]. intros i _. now split.
  - cbn [place].
    assert (Hp : c + offset < length (fst b)) by lia.
    assert (Hp' : c + offset < length (snd b)) by (red in Hal; lia).
    rewrite (set_item_done _ _ Hp). cbn [bind].
    set (v := if offset =? 0 then text else []).
    set (row := update (c + offset) (Some v) (fst b)).
    assert (Hs : exists spans,
               (if (1 <? rowspan)%Z
                then set_item (snd b) (c + offset) (Some (Span (rowspan - 1) v))
                else cur <- get_item (snd b) (c + offset);;
                     match cur with
                     | Some _ => set_item (snd b) (c + offset) None
                     | None => Done (snd b)
                     end) = Done spans
               /\ length spans = length (snd b)
               /\ nth (c + offset) spans None = block_span text rowspan offset
               /\ forall i, i <> c + offset -> nth i spans None = nth i (snd b) None).
    { unfold block_span, block_text. fold v.
      destruct (1 <? rowspan)%Z.
      - rewrite (set_item_done _ _ Hp'). eexists. split; [reflexivity|].
        split; [now apply update_length|]. split; [now apply update_same|].
        intros i Hi. now apply update_other.
      - rewrite (get_item_nth _ None Hp'). cbn [bind].
        destruct (nth (c + offset) (snd b) None) eqn:Hc.
        + rewrite (set_item_done _ _ Hp'). eexists. split; [reflexivity|].
          split; [now apply update_length|]. split; [now apply update_same|].
          intros i Hi. now apply update_other.
        + exists (snd b). split; [reflexivity|]. split; [reflexivity|].
          split; [assumption|]. reflexivity. }
    destruct Hs as (spans & -> & Hsl & Hsp & Hso). cbn [bind].
    destruct (IH (S offset) (row, spans)) as (b' & Hd & Hal' & Hl' & Hin & Hout).
    { red. simpl. unfold row. rewrite update_length by assumption.
      red in Hal. lia. }
    { simpl. unfold row. rewrite update_length by assumption. lia. }
    exists b'. split; [assumption|]. split; [assumption|]. split.
    { rewrite Hl'. simpl. unfold row. now apply update_length. }
    split.
    + intros j Hj. destruct (Nat.eq_dec j offset) as [->|Hne].
      * destruct (Hout (c + offset)) as [Hr Hs']; [lia|].
        rewrite Hr, Hs'. simpl. unfold row.
        rewrite update_same by assumption. now split.
      * apply Hin. lia.
    + intros i Hi. destruct (Hout i) as [Hr Hs']; [lia|].
      rewrite Hr, Hs'. simpl. unfold row.
      rewrite update_other by (try assumption; lia).
      split; [reflexivity|]. apply Hso. lia.
Qed.

Lemma parse_int_positive (value : option ustr) : (1 <= _parse_int value 1)%Z.
Proof.
  unfold _parse_int. destruct value as [s|]; [|lia].
  destruct (py_int s); lia.
Qed.

Lemma cell_colspan_positive (cell : node) : 1 <= cell_colspan cell.
Proof.
  unfold cell_colspan. pose proof (parse_int_positive (get_attr "colspan" cell)). lia.
Qed.

Lemma place_cell_spec (b : bufs) (cell : node) :
  aligned b ->
  exists c b',
    place_cell b cell = Done b'
    /\ placed b (cell_text cell) (cell_colspan cell) (cell_rowspan cell) c b'.
Proof.
  intros Hal. unfold place_cell.
  pose proof (cell_colspan_positive cell) as Hcs.
  destruct (@find_slot_spec (S (length (fst b))) b 0 (cell_colspan cell))
    as (c & Hf & Hc & Hfree & Hlow); try lia.
  rewrite Hf. cbn [bind].
  set (k := c + cell_colspan cell - length (fst b)) in *.
  destruct (@place_spec (cell_text cell) (cell_rowspan cell) c (cell_colspan cell)
                        0 (extend k b))
    as (b' & Hp & Hal' & Hl' & Hin & Hout).
  { now apply extend_aligned. }
  { rewrite extend_length. unfold k. lia. }
  exists c, b'. split; [assumption|]. unfold placed.
  split; [assumption|]. split.
  { rewrite Hl', extend_length. unfold k. lia. }
  split; [assumption|]. split.
  { intros c' Hc'. apply Hlow. lia. }
  split.
  - intros j Hj. apply Hin. lia.
  - intros i Hi. destruct (Hout i) as [Hr Hs]; [lia|].
    now rewrite Hr, Hs, extend_row, extend_spans.
Qed.

Lemma apply_spans_length (spans : span_buf) :
  length (fst (apply_spans spans)) = length spans
  /\ length (snd (apply_spans spans)) = length spans.
Proof.
  induction spans as [|sp rest [IH1 IH2]]; simpl; [now split|].
  destruct (apply_spans rest) as [row rest']. simpl in *.
  destruct sp; simpl; split; congruence.
Qed.

Lemma apply_spans_aligned (spans : span_buf) : aligned (apply_spans spans).
Proof. red. destruct (apply_spans_length spans). congruence. Qed.

(** A span still running fills its column with its value. *)
Lemma apply_spans_row (spans : span_buf) (i : nat) :
  nth i (fst (apply_spans spans)) None = option_map value (nth i spans None).
Proof.
  revert i. induction spans as [|sp rest IH]; intros i; simpl.
  - now destruct i.
  - specialize (IH (pred i)).
    destruct (apply_spans rest) as [row rest']. simpl in *.
    destruct sp, i; simpl in *; auto.
Qed.

Lemma apply_spans_left (spans : span_buf) (i : nat) :
  nth i (snd (apply_spans spans)) None = tick (nth i spans None).
Proof.
  revert i. induction spans as [|sp rest IH]; intros i; simpl.
  - now destruct i.
  - specialize (IH (pred i)).
    destruct (apply_spans rest) as [row rest']. simpl in *.
    destruct sp, i; simpl in *; auto.
Qed.

(** Placing the cells of a row never fails and never touches a column that
    is already filled. *)
Lemma place_cells_spec (cells : list node) :
  forall b, aligned b ->
    exists b',
      fold_outcome place_cell cells b = Done b'
      /\ aligned b'
      /\ forall i v, nth i (fst b) None = Some v ->
                     nth i (fst b') None = Some v
                     /\ nth i (snd b') None = nth i (snd b) None.
Proof.
  induction cells as [|cell rest IH]; intros b Hal.
  - exists b. simpl. split; [reflexivity|]. split; [assumption|]. now intros.
  - destruct (place_cell_spec cell Hal) as (c & b1 & Hp & Hal1 & _ & Hfree & _ & _ & Hout).
    destruct (IH b1 Hal1) as (b' & Hf & Hal' & Hkeep).
    exists b'. simpl. rewrite Hp. cbn [bind].
    split; [assumption|]. split; [assumption|].
    intros i v Hi.
    assert (Hi' : i < c \/ c + cell_colspan cell <= i).
    { destruct (Nat.lt_ge_cases i c); [now left|].
      destruct (Nat.lt_ge_cases i (c + cell_colspan cell)); [|now right].
      specialize (Hfree (i - c)). replace (c + (i - c)) with i in Hfree by lia.
      rewrite Hfree in Hi by lia. discriminate. }
    destruct (Hout i Hi') as [Hr Hs]. rewrite <- Hr in Hi.
    destruct (Hkeep i v Hi) as [Hr' Hs']. split; congruence.
Qed.

Lemma process_tr_total (spans : span_buf) (tr : node) :
  exists b,
    fold_outcome place_cell (find_children ["th"; "td"]%string tr)
                 (apply_spans spans) = Done b
    /\ process_tr spans tr = Done (snd b, pop_blank (map or_empty (fst b))).
Proof.
  destruct (@place_cells_spec (find_children ["th"; "td"]%string tr)
                              (apply_spans spans) (apply_spans_aligned spans))
    as (b & Hb & _).
  exists b. split; [assumption|]. unfold process_tr. now rewrite Hb.
Qed.

Lemma process_rows_total (trs : list node) :
  forall spans rows, exists rows', process_rows spans trs rows = Done rows'.
Proof.
  induction trs as [|tr rest IH]; intros spans rows; simpl.
  - now exists rows.
  - destruct (process_tr_total spans tr) as (b & _ & ->). cbn [bind]. apply IH.
Qed.

End TableFacts.

(** C10. The search for a cell's slot ends: a failed test of a candidate
    column changes nothing in the buffers and moves the candidate strictly
    to the right, never past the end of the row; with one round per column
    of the row and one more, the search returns a column, having appended
    only the free columns the cell needs; and flattening a table always
    returns its lines, neither running out of rounds nor indexing outside a
    buffer. *)
Theorem table_flattening_total :
  (forall (b b' : bufs) (col_idx colspan next : nat),
      col_idx <= length (fst b) ->
      check_fit b col_idx colspan 0 = Done (b', Some next) ->
      b' = b /\ col_idx < next <= length (fst b))
  /\ (forall (b : bufs) (colspan : nat),
         1 <= colspan ->
         exists c, find_slot (S (length (fst b))) b 0 colspan
                   = Done (extend (c + colspan - length (fst b)) b, c))
  /\ (forall (table : node) (squeeze : ustr -> ustr),
         exists ls, table_to_lines table squeeze = Done ls).
Proof.
  split; [|split].
  - intros b b' col_idx colspan next Hc Hf.
    assert (Hpre : col_idx + 0 <= length (fst b)) by lia.
    destruct (@check_fit_spec colspan b col_idx 0 Hpre)
      as [[pos (Hd & Hr & Hl & _)]|[Hd _]]; rewrite Hd in Hf.
    + injection Hf as <- <-. split; [reflexivity|lia].
    + discriminate.
  - intros b colspan Hcs.
    destruct (@find_slot_spec (S (length (fst b))) b 0 colspan) as (c & Hf & _);
      try lia.
    now exists c.
  - intros table squeeze. unfold table_to_lines.
    destruct (process_rows_total (table_rows table) [] []) as [rows ->].
    cbn [bind]. eauto.
Qed.

Lemma table_flattening_total_witness :
  exists c, find_slot 3 ([Some (U "a"); None], [None; None]) 0 2
            = Done (extend (c + 2 - 2) ([Some (U "a"); None], [None; None]), c).
Proof.
  apply (proj1 (proj2 table_flattening_total)
               ([Some (U "a"); None], [None; None]) 2).
  simpl; lia.
Defined.

(** An empty cell over two columns fills both with the empty string: no
    column of its block is non-empty. *)
Lemma colspan_block_counterexample :
  place_cell ([], []) (cell "" "2" "1") = Done ([Some []; Some []], [None; None])
  /\ nonempty_columns [Some []; Some []] <> 1.
Proof. split; [vm_compute; reflexivity | vm_compute; discriminate]. Qed.

(** C4, as the table flattener has it.  A cell goes to the lowest column
    [c] at which [colspan] columns in a row are free in the current row;
    column [c] receives the cell's rendered text (so one non-empty column
    when that text is not empty) and the [colspan - 1] columns after it the
    empty string; every column of the block was free before, and no column
    outside the block changes, so nothing filled earlier in the row, by a
    cell or by a running rowspan, is overwritten. *)
Theorem colspan_placement (b : bufs) (cl : node) :
  aligned b ->
  exists c b',
    place_cell b cl = Done b'
    /\ (forall j, j < cell_colspan cl -> nth (c + j) (fst b) None = None)
    /\ (forall c', c' < c ->
                   exists j, j < cell_colspan cl
                             /\ nth (c' + j) (fst b) None <> None)
    /\ nth c (fst b') None = Some (cell_text cl)
    /\ (forall j, 0 < j < cell_colspan cl -> nth (c + j) (fst b') None = Some [])
    /\ (forall i, i < c \/ c + cell_colspan cl <= i ->
                  nth i (fst b') None = nth i (fst b) None)
    /\ (cell_text cl <> [] ->
        nonempty_columns (firstn (cell_colspan cl) (skipn c (fst b'))) = 1).
Proof.
  intros Hal.
  destruct (place_cell_spec cl Hal) as (c & b' & Hp & Hal' & Hlen & Hfree & Hlow & Hin & Hout).
  exists c, b'. split; [assumption|]. split; [assumption|]. split; [assumption|].
  pose proof (cell_colspan_positive cl) as Hcs.
  assert (H0 : nth c (fst b') None = Some (cell_text cl)).
  { destruct (Hin 0) as [H _]; [lia|]. now rewrite Nat.add_0_r in H. }
  assert (Hj : forall j, 0 < j < cell_colspan cl -> nth (c + j) (fst b') None = Some []).
  { intros j Hj. destruct (Hin j) as [H _]; [lia|]. rewrite H.
    unfold block_text. destruct j; [lia|reflexivity]. }
  split; [assumption|]. split; [assumption|]. split.
  { intros i Hi. now apply Hout. }
  intros Ht.
  assert (Hblock : firstn (cell_colspan cl) (skipn c (fst b'))
                   = Some (cell_text cl) :: repeat (Some []) (cell_colspan cl - 1)).
  { apply (nth_ext _ _ None None).
    - rewrite length_firstn, length_skipn. simpl. rewrite repeat_length. lia.
    - intros n Hn. rewrite length_firstn, length_skipn in Hn.
      rewrite nth_firstn.
      assert (Hn' : n < cell_colspan cl) by lia.
      apply Nat.ltb_lt in Hn'. rewrite Hn'. apply Nat.ltb_lt in Hn'.
      rewrite nth_skipn. destruct n as [|n].
      + now rewrite Nat.add_0_r.
      + rewrite Hj by lia. simpl.
        destruct (Nat.lt_ge_cases n (cell_colspan cl - 1)).
        * symmetry. apply nth_error_nth. rewrite nth_error_repeat by assumption.
          reflexivity.
        * lia. }
  assert (Hrep : forall n, filter (fun c : option ustr => nonempty (or_empty c))
                                  (repeat (Some []) n) = []).
  { induction n as [|n IH]; [reflexivity|]. simpl. exact IH. }
  rewrite Hblock. unfold nonempty_columns. cbn [filter or_empty].
  apply nonempty_true in Ht. rewrite Ht, Hrep. reflexivity.
Qed.

Lemma colspan_placement_witness :
  exists c b',
    place_cell ([Some (U "甲"); None; Some (U "乙")], [None; None; None])
               (cell "丙" "2" "1") = Done b'
    /\ nth c (fst b') None = Some (U "丙").
Proof.
  destruct (@colspan_placement
              ([Some (U "甲"); None; Some (U "乙")], [None; None; None])
              (cell "丙" "2" "1") ltac:(reflexivity))
    as (c & b' & Hp & _ & _ & Hc & _).
  exists c, b'. split; [exact Hp | exact Hc].
Defined.

(* ================================================================= *)
(** ** Table flattener: rowspans *)

Section Rowspans.

Lemma drop_blank_split (l : list ustr) :
  exists blanks, l = blanks ++ drop_blank l /\ Forall (fun c => blank c = true) blanks.
Proof.
  induction l as [|c t (blanks & Ht & Hb)]; simpl.
  - exists []. now split.
  - destruct (blank c) eqn:Hc.
    + exists (c :: blanks). split; [simpl; congruence|]. now constructor.
    + exists []. now split.
Qed.

Lemma pop_blank_split (l : list ustr) :
  exists blanks, l = pop_blank l ++ blanks /\ Forall (fun c => blank c = true) blanks.
Proof.
  destruct (drop_blank_split (rev l)) as (blanks & Hl & Hb).
  exists (rev blanks). split.
  - unfold pop_blank. rewrite <- rev_app_distr, <- Hl. now rewrite rev_involutive.
  - apply Forall_rev, Hb.
Qed.

(** Popping blank columns off the end keeps every column that is not
    blank. *)
Lemma pop_blank_keeps (l : list ustr) (c : nat) :
  blank (nth c l []) = false -> nth c (pop_blank l) [] = nth c l [].
Proof.
  intros Hc. destruct (pop_blank_split l) as (blanks & Hl & Hb).
  remember (pop_blank l) as p eqn:Ep. clear Ep. subst l.
  destruct (Nat.lt_ge_cases c (length p)) as [H|H].
  - now rewrite app_nth1.
  - rewrite app_nth2 in Hc by assumption. exfalso.
    destruct (Nat.lt_ge_cases (c - length p) (length blanks)) as [H'|H'].
    + rewrite Forall_forall in Hb.
      rewrite (Hb _ (nth_In blanks [] H')) in Hc. discriminate.
    + rewrite nth_overflow in Hc by assumption. discriminate.
Qed.

(** A row keeps what its running spans put into it, and leaves their
    remaining counts alone. *)
Lemma process_tr_spec (spans : span_buf) (tr : node) :
  exists b,
    process_tr spans tr = Done (snd b, pop_blank (map or_empty (fst b)))
    /\ forall i v, nth i (fst (apply_spans spans)) None = Some v ->
                   nth i (fst b) None = Some v
                   /\ nth i (snd b) None = nth i (snd (apply_spans spans)) None.
Proof.
  destruct (@place_cells_spec (find_children ["th"; "td"]%string tr)
                              (apply_spans spans) (apply_spans_aligned spans))
    as (b & Hb & _ & Hkeep).
  exists b. split; [|assumption]. unfold process_tr. now rewrite Hb.
Qed.

Lemma cleaned_column (row : row_buf) (c : nat) (v : ustr) :
  nth c row None = Some v -> blank v = false ->
  nth c (pop_blank (map or_empty row)) [] = v
  /\ existsb (fun col => negb (blank col)) (pop_blank (map or_empty row)) = true.
Proof.
  intros Hc Hv.
  assert (Hm : nth c (map or_empty row) [] = v).
  { change (@nil N) with (or_empty None). rewrite map_nth, Hc. reflexivity. }
  assert (Hp : nth c (pop_blank (map or_empty row)) [] = v).
  { rewrite pop_blank_keeps; rewrite Hm; [reflexivity|assumption]. }
  split; [assumption|].
  apply existsb_exists. exists v. split; [|now rewrite Hv].
  destruct (Nat.lt_ge_cases c (length (pop_blank (map or_empty row)))) as [H|H].
  - rewrite <- Hp. now apply nth_In.
  - rewrite nth_overflow in Hp by assumption. rewrite <- Hp in Hv.
    vm_compute in Hv. discriminate Hv.
Qed.

(** One row under a running span. *)
Lemma row_under_span (spans : span_buf) (tr : node) (c : nat) (n : Z) (v : ustr) :
  nth c spans None = Some (Span n v) -> blank v = false ->
  exists spans' cleaned,
    process_tr spans tr = Done (spans', cleaned)
    /\ nth c spans' None = tick (Some (Span n v))
    /\ nth c cleaned [] = v
    /\ existsb (fun col => negb (blank col)) cleaned = true.
Proof.
  intros Hc Hv. destruct (process_tr_spec spans tr) as (b & Hp & Hkeep).
  destruct (Hkeep c v) as [Hr Hs].
  { now rewrite apply_spans_row, Hc. }
  exists (snd b), (pop_blank (map or_empty (fst b))).
  split; [assumption|]. split.
  - now rewrite Hs, apply_spans_left, Hc.
  - now apply cleaned_column.
Qed.

(** A span with [n] rows to go shows its value in the next [n] rows, as
    far as there are rows, and is gone after them. *)
Lemma span_runs (trs : list node) :
  forall (spans : span_buf) (c : nat) (n : Z) (v : ustr) (d : node),
    nth c spans None = Some (Span n v) -> (1 <= n)%Z -> blank v = false ->
    (forall j, j < length trs -> (Z.of_nat j < n)%Z ->
       exists sp sp' cleaned,
         spans_after spans (firstn j trs) = Done sp
         /\ process_tr sp (nth j trs d) = Done (sp', cleaned)
         /\ nth c cleaned [] = v
         /\ existsb (fun col => negb (blank col)) cleaned = true)
    /\ ((n <= Z.of_nat (length trs))%Z ->
        exists sp, spans_after spans (firstn (Z.to_nat n) trs) = Done sp
                   /\ nth c sp None = None).
Proof.
  induction trs as [|tr rest IH]; intros spans c n v d Hc Hn Hv.
  - split; [intros j Hj; simpl in Hj; lia|]. simpl. lia.
  - destruct (@row_under_span spans tr c n v Hc Hv) as (sp1 & cleaned1 & Hp & Hs & Hcl & Hk).
    simpl in Hs. split.
    + intros [|j] Hj Hjn.
      * exists spans, sp1, cleaned1. simpl. auto.
      * destruct (n - 1 =? 0)%Z eqn:E; [lia|].
        destruct (IH sp1 c (n - 1)%Z v d Hs ltac:(lia) Hv) as [H1 _].
        destruct (H1 j) as (sp & sp' & cleaned & Ha & Hb & Hx);
          [simpl in Hj; lia | lia |].
        exists sp, sp', cleaned. simpl. rewrite Hp. cbn [bind]. auto.
    + intros Hlen.
      replace (Z.to_nat n) with (S (Z.to_nat (n - 1))) by lia.
      simpl. rewrite Hp. cbn [bind].
      destruct (n - 1 =? 0)%Z eqn:E.
      * replace (Z.to_nat (n - 1)) with 0 by lia. simpl. eauto.
      * destruct (IH sp1 c (n - 1)%Z v d Hs ltac:(lia) Hv) as [_ H2].
        apply H2. simpl in Hlen. lia.
Qed.

End Rowspans.

(* ================================================================= *)
(** ** Blank and stripped strings *)

Section Blank.

Lemma lstrip_shape (s : ustr) :
  lstrip s = [] \/ exists c t, lstrip s = c :: t /\ is_space c = false.
Proof.
  induction s as [|c t IH]; simpl; [now left|].
  destruct (is_space c) eqn:E; [assumption|]. right. now exists c, t.
Qed.

Lemma lstrip_keeps_last (a : ustr) (c : N) :
  is_space c = false -> exists a', lstrip (a ++ [c]) = a' ++ [c].
Proof.
  intros Hc. induction a as [|x a IH]; simpl.
  - rewrite Hc. now exists [].
  - destruct (is_space x); [assumption|]. now exists (x :: a).
Qed.

Lemma rstrip_head (c : N) (t : ustr) :
  is_space c = false -> exists t', rstrip (c :: t) = c :: t'.
Proof.
  intros Hc. unfold rstrip. simpl.
  destruct (@lstrip_keeps_last (rev t) c Hc) as [a' ->].
  rewrite rev_app_distr. simpl. now exists (rev a').
Qed.

(** A stripped string is empty or starts with a character that is not
    whitespace. *)
Lemma strip_shape (s : ustr) :
  strip s = [] \/ exists c t, strip s = c :: t /\ is_space c = false.
Proof.
  unfold strip. destruct (lstrip_shape s) as [->|(c & t & -> & Hc)].
  - now left.
  - right. destruct (@rstrip_head c t Hc) as [t' ->]. now exists c, t'.
Qed.

Lemma not_blank_head (c : N) (t : ustr) : is_space c = false -> blank (c :: t) = false.
Proof.
  intros Hc. unfold blank, strip. simpl. rewrite Hc.
  destruct (@rstrip_head c t Hc) as [t' ->]. reflexivity.
Qed.

Lemma hspace_is_space (c : N) : is_hspace c = true -> is_space c = true.
Proof.
  unfold is_hspace. intros H.
  apply orb_true_iff in H as [H|H]; [apply orb_true_iff in H as [H|H]|];
    apply N.eqb_eq in H; subst c; reflexivity.
Qed.

(** Collapsing blanks leaves a leading character that is not one. *)
Lemma sub_hspace_head (c : N) (t : ustr) :
  is_space c = false ->
  exists t', sub Tidy.re_hspace [TLit [SP]] (c :: t) = c :: t'.
Proof.
  intros Hc.
  assert (Hh : is_hspace c = false).
  { destruct (is_hspace c) eqn:E; [|reflexivity].
    apply hspace_is_space in E. congruence. }
  unfold sub, sub_fn. cbn [length sub_loop].
  unfold match_at, Tidy.re_hspace, plus. cbn [m Nat.add rep_loop aft].
  rewrite Hh. eauto.
Qed.

Lemma squeezed_not_blank (s : ustr) :
  sub Tidy.re_hspace [TLit [SP]] (strip s) <> [] ->
  blank (sub Tidy.re_hspace [TLit [SP]] (strip s)) = false.
Proof.
  destruct (strip_shape s) as [->|(c & t & -> & Hc)].
  - intros H. exfalso. apply H. reflexivity.
  - intros _. destruct (@sub_hspace_head c t Hc) as [t' ->]. now apply not_blank_head.
Qed.

Lemma cell_text_not_blank (cl : node) : cell_text cl <> [] -> blank (cell_text cl) = false.
Proof. apply squeezed_not_blank. Qed.

End Blank.

Section RowspanCell.

(** The row in which a cell with non-blank text is placed. *)
Lemma cell_row (spans : span_buf) (tr : node) (before : list node) (cl : node)
      (after : list node) :
  find_children ["th"; "td"]%string tr = before ++ cl :: after ->
  blank (cell_text cl) = false ->
  exists c spans' cleaned,
    process_tr spans tr = Done (spans', cleaned)
    /\ nth c spans' None = block_span (cell_text cl) (cell_rowspan cl) 0
    /\ nth c cleaned [] = cell_text cl
    /\ existsb (fun col => negb (blank col)) cleaned = true.
Proof.
  intros Hcells Hv. unfold process_tr. rewrite Hcells, fold_outcome_app.
  destruct (@place_cells_spec before (apply_spans spans) (apply_spans_aligned spans))
    as (b0 & -> & Hal0 & _).
  cbn [bind fold_outcome].
  destruct (@place_cell_spec b0 cl Hal0) as (c & b1 & -> & Hal1 & _ & _ & _ & Hin & _).
  cbn [bind].
  destruct (@place_cells_spec after b1 Hal1) as (b2 & -> & _ & Hkeep).
  cbn [bind].
  pose proof (cell_colspan_positive cl) as Hcs.
  destruct (Hin 0) as [Hr Hs]; [lia|]. rewrite Nat.add_0_r in Hr, Hs.
  destruct (Hkeep c _ Hr) as [Hr2 Hs2].
  exists c, (snd b2), (pop_blank (map or_empty (fst b2))).
  split; [reflexivity|]. split; [congruence|]. now apply cleaned_column.
Qed.

End RowspanCell.

Lemma rowspan_counterexample :
  cell_rowspan (cell "" "1" "2") = 2%Z
  /\ process_rows [] (table_rows empty_span_table) []
     = Done [[[]; U "甲"]; [[]; U "乙"]]
  /\ table_to_lines empty_span_table squeeze = Done [U "•  | 甲"; U "•  | 乙"]
  /\ ~ (exists c v, v <> [] /\ nth c [[]; U "甲"] [] = v /\ nth c [[]; U "乙"] [] = v).
Proof.
  repeat split; try (vm_compute; reflexivity).
  intros (c & v & Hv & H1 & H2).
  destruct c as [|[|c]]; simpl in H1, H2; try congruence.
  - subst v. discriminate H2.
  - destruct c; simpl in H1; congruence.
Qed.

(** C3, as the table flattener has it.  A cell whose rendered text is not
    empty and whose rowspan is [N] shows that text in one column [c] of its
    own row and of each of the next [N - 1] rows, as far as the table has
    rows; each of these rows is kept in the output; and when row [N + 1]
    starts, the span is over: it puts nothing into column [c]. *)
Theorem rowspan_repeats (spans : span_buf) (tr : node) (before : list node)
        (cl : node) (after later : list node) :
  find_children ["th"; "td"]%string tr = before ++ cl :: after ->
  cell_text cl <> [] ->
  exists c,
    (forall j, j <= length later -> (Z.of_nat j < cell_rowspan cl)%Z ->
       exists sp sp' cleaned,
         spans_after spans (firstn j (tr :: later)) = Done sp
         /\ process_tr sp (nth j (tr :: later) tr) = Done (sp', cleaned)
         /\ nth c cleaned [] = cell_text cl
         /\ existsb (fun col => negb (blank col)) cleaned = true)
    /\ ((cell_rowspan cl <= Z.of_nat (length later))%Z ->
        exists sp,
          spans_after spans (firstn (Z.to_nat (cell_rowspan cl)) (tr :: later))
          = Done sp
          /\ nth c (fst (apply_spans sp)) None = None).
Proof.
  intros Hcells Ht. apply cell_text_not_blank in Ht.
  destruct (@cell_row spans tr before cl after Hcells Ht)
    as (c & sp1 & cleaned1 & Hp & Hs & Hc & Hk).
  pose proof (parse_int_positive (get_attr "rowspan" cl)) as Hn.
  fold (cell_rowspan cl) in Hn.
  exists c. unfold block_span in Hs. split.
  - intros [|j] Hj Hjn.
    + exists spans, sp1, cleaned1. simpl. auto.
    + destruct (1 <? cell_rowspan cl)%Z eqn:E; [|lia].
      destruct (@span_runs later sp1 c (cell_rowspan cl - 1)%Z (cell_text cl) tr
                           Hs ltac:(lia) Ht) as [H1 _].
      destruct (H1 j) as (sp & sp' & cleaned & Ha & Hb & Hx); [lia|lia|].
      exists sp, sp', cleaned. simpl. rewrite Hp. cbn [bind]. auto.
  - intros Hlen.
    replace (Z.to_nat (cell_rowspan cl))
      with (S (Z.to_nat (cell_rowspan cl - 1))) by lia.
    simpl. rewrite Hp. cbn [bind].
    destruct (1 <? cell_rowspan cl)%Z eqn:E.
    + destruct (@span_runs later sp1 c (cell_rowspan cl - 1)%Z (cell_text cl) tr
                           Hs ltac:(lia) Ht) as [_ H2].
      destruct H2 as (sp & Ha & Hb); [lia|].
      exists sp. split; [assumption|]. now rewrite apply_spans_row, Hb.
    + replace (Z.to_nat (cell_rowspan cl - 1)) with 0 by lia. simpl.
      exists sp1. split; [reflexivity|]. now rewrite apply_spans_row, Hs.
Qed.

Lemma rowspan_repeats_witness :
  exists c,
    (forall j, j <= 2 -> (Z.of_nat j < 2)%Z ->
       exists sp sp' cleaned,
         spans_after [] (firstn j [span_row; Elem "tr" [] [] [cell "甲" "1" "1"];
                                   Elem "tr" [] [] [cell "乙" "1" "1"]]) = Done sp
         /\ process_tr sp (nth j [span_row; Elem "tr" [] [] [cell "甲" "1" "1"];
                                  Elem "tr" [] [] [cell "乙" "1" "1"]] span_row)
            = Done (sp', cleaned)
         /\ nth c cleaned [] = U "年份"
         /\ existsb (fun col => negb (blank col)) cleaned = true)
    /\ ((2 <= 2)%Z ->
        exists sp,
          spans_after [] (firstn 2 [span_row; Elem "tr" [] [] [cell "甲" "1" "1"];
                                    Elem "tr" [] [] [cell "乙" "1" "1"]]) = Done sp
          /\ nth c (fst (apply_spans sp)) None = None).
Proof.
  apply (@rowspan_repeats [] span_row [] (cell "年份" "1" "2") [cell "作品" "1" "1"]
           [Elem "tr" [] [] [cell "甲" "1" "1"]; Elem "tr" [] [] [cell "乙" "1" "1"]]).
  - reflexivity.
  - vm_compute. discriminate.
Defined.

(* ================================================================= *)
(** ** Table flattener: tables without merged cells *)

Section Unmerged.

Lemma lstrip_split (s : ustr) :
  exists pre, s = pre ++ lstrip s /\ Forall (fun c => is_space c = true) pre.
Proof.
  induction s as [|c t (pre & Ht & Hp)]; simpl.
  - exists []. now split.
  - destruct (is_space c) eqn:E.
    + exists (c :: pre). split; [simpl; congruence|]. now constructor.
    + exists []. now split.
Qed.

Lemma blank_all_space (s : ustr) :
  blank s = true -> Forall (fun c => is_space c = true) s.
Proof.
  unfold blank. intros H. apply negb_true_iff, nonempty_spec in H.
  unfold strip, rstrip in H.
  apply (f_equal (@rev N)) in H. rewrite rev_involutive in H. simpl in H.
  destruct (lstrip_split (rev (lstrip s))) as (pre & Hs & Hp).
  rewrite H, app_nil_r in Hs.
  assert (Hx : Forall (fun c => is_space c = true) (lstrip s)).
  { rewrite <- (rev_involutive (lstrip s)), Hs. now apply Forall_rev. }
  destruct (lstrip_split s) as (pre' & Hs' & Hp'). rewrite Hs'.
  apply Forall_app. now split.
Qed.

Lemma not_blank_app (a b : ustr) : blank b = false -> blank (a ++ b) = false.
Proof.
  intros Hb. destruct (blank (a ++ b)) eqn:E; [|reflexivity].
  apply blank_all_space, Forall_app in E. destruct E as [_ E].
  destruct (strip_shape b) as [Hs|(c & t & Hs & Hc)].
  - unfold blank in Hb. rewrite Hs in Hb. discriminate.
  - exfalso.
    assert (Hin : In c b).
    { assert (Hi : In c (strip b)) by (rewrite Hs; now left).
      unfold strip, rstrip in Hi. apply in_rev in Hi.
      destruct (lstrip_split (rev (lstrip b))) as (p1 & H1 & _).
      assert (Hi2 : In c (rev (lstrip b))) by (rewrite H1; apply in_or_app; now right).
      apply in_rev in Hi2.
      destruct (lstrip_split b) as (p2 & H2 & _).
      rewrite H2. apply in_or_app. now right. }
    rewrite Forall_forall in E. specialize (E c Hin). congruence.
Qed.

Lemma join_last (sep : ustr) (parts : list ustr) :
  parts <> [] -> exists pre, join sep parts = pre ++ last parts [].
Proof.
  induction parts as [|p ps IH]; intros H; [contradiction|].
  destruct ps as [|q qs].
  - now exists [].
  - destruct IH as [pre Hpre]; [discriminate|].
    exists (p ++ sep ++ pre).
    change (join sep (p :: q :: qs)) with (p ++ sep ++ join sep (q :: qs)).
    change (last (p :: q :: qs) []) with (last (q :: qs) []).
    now rewrite Hpre, !app_assoc.
Qed.

Lemma last_map_text (cells : list node) :
  cells <> [] ->
  last (map cell_text cells) [] = cell_text (last cells (Text [])).
Proof.
  induction cells as [|c cs IH]; intros H; [contradiction|].
  destruct cs as [|c' cs']; [reflexivity|].
  change (last (map cell_text (c :: c' :: cs')) [])
    with (last (map cell_text (c' :: cs')) []).
  change (last (c :: c' :: cs') (Text [])) with (last (c' :: cs') (Text [])).
  apply IH. discriminate.
Qed.

Lemma nth_some_texts (texts : list ustr) (i : nat) :
  i < length texts -> nth i (map Some texts) None <> None.
Proof.
  intros H. rewrite (@nth_indep _ (map Some texts) i None (Some []))
    by (now rewrite length_map).
  rewrite map_nth. discriminate.
Qed.

Lemma place_plain_cell (b : bufs) (texts : list ustr) (cl : node) :
  row_state b texts -> cell_colspan cl = 1 -> cell_rowspan cl = 1%Z ->
  exists b', place_cell b cl = Done b' /\ row_state b' (texts ++ [cell_text cl]).
Proof.
  intros (Hal & Hrow & Hsp) Hcs Hrs.
  destruct (@place_cell_spec b cl Hal)
    as (c & b' & Hp & Hal' & _ & Hfree & Hlow & Hin & Hout).
  rewrite Hcs in *. rewrite Hrs in *.
  assert (Hc : c = length texts).
  { destruct (Nat.lt_trichotomy c (length texts)) as [H|[H|H]]; [|assumption|].
    - exfalso. specialize (Hfree 0 ltac:(lia)). rewrite Nat.add_0_r, Hrow in Hfree.
      now apply (@nth_some_texts texts c).
    - exfalso. destruct (Hlow (length texts) H) as (j & Hj & Hne).
      apply Hne. rewrite Hrow. apply nth_overflow. rewrite length_map. lia. }
  subst c. exists b'. split; [assumption|]. split; [assumption|].
  destruct (Hin 0) as [Hr0 Hs0]; [lia|]. rewrite Nat.add_0_r in Hr0, Hs0.
  split.
  - intros i. rewrite map_app.
    destruct (Nat.eq_dec i (length texts)) as [->|Hne].
    + rewrite Hr0, app_nth2; rewrite length_map; [|lia].
      now rewrite Nat.sub_diag.
    + destruct (Hout i) as [Hr _]; [lia|]. rewrite Hr, Hrow.
      destruct (Nat.lt_ge_cases i (length texts)).
      * now rewrite app_nth1 by (now rewrite length_map).
      * rewrite app_nth2; rewrite length_map; [|lia].
        rewrite nth_overflow by (rewrite length_map; lia).
        destruct (i - length texts) as [|[|n]] eqn:E; [lia| |]; reflexivity.
  - intros i. destruct (Nat.eq_dec i (length texts)) as [->|Hne].
    + now rewrite Hs0.
    + destruct (Hout i) as [_ Hs]; [lia|]. now rewrite Hs.
Qed.

Lemma place_plain_cells (cells : list node) :
  forall (b : bufs) (texts : list ustr),
    row_state b texts ->
    (forall cl, In cl cells -> cell_colspan cl = 1 /\ cell_rowspan cl = 1%Z) ->
    exists b', fold_outcome place_cell cells b = Done b'
               /\ row_state b' (texts ++ map cell_text cells).
Proof.
  induction cells as [|cl rest IH]; intros b texts Hst Hall.
  - exists b. simpl. rewrite app_nil_r. now split.
  - destruct (Hall cl (or_introl eq_refl)) as [Hcs Hrs].
    destruct (@place_plain_cell b texts cl Hst Hcs Hrs) as (b1 & Hp & Hst1).
    destruct (IH b1 (texts ++ [cell_text cl]) Hst1) as (b' & Hf & Hst').
    { intros c Hc. apply Hall. now right. }
    exists b'. simpl. rewrite Hp. cbn [bind]. split; [assumption|].
    now rewrite <- app_assoc in Hst'.
Qed.

Lemma free_spans_start (spans : span_buf) :
  (forall i, nth i spans None = None) -> row_state (apply_spans spans) [].
Proof.
  intros H. split; [apply apply_spans_aligned|]. split.
  - intros i. rewrite apply_spans_row, H. now destruct i.
  - intros i. now rewrite apply_spans_left, H.
Qed.

Lemma nth_last_text (l : list ustr) :
  l <> [] -> nth (length l - 1) l [] = last l [].
Proof.
  induction l as [|x l IH]; intros H; [contradiction|].
  destruct l as [|y l']; [reflexivity|].
  change (last (x :: y :: l') []) with (last (y :: l') []).
  rewrite <- IH by discriminate. simpl. now rewrite Nat.sub_0_r.
Qed.

Lemma rev_last_text (l : list ustr) :
  l <> [] -> rev l = last l [] :: rev (removelast l).
Proof.
  intros H. rewrite (app_removelast_last [] H) at 1.
  now rewrite rev_app_distr.
Qed.

Lemma drop_blank_padding (k : nat) (l : list ustr) :
  drop_blank (repeat [] k ++ l) = drop_blank l.
Proof. induction k as [|k IH]; [reflexivity|]. simpl. exact IH. Qed.

(** Columns that spell [texts], padded with free columns, give [texts]
    back when the last text is not blank. *)
Lemma cleaned_texts (row : row_buf) (texts : list ustr) :
  (forall i, nth i row None = nth i (map Some texts) None) ->
  texts <> [] -> blank (last texts []) = false ->
  pop_blank (map or_empty row) = texts.
Proof.
  intros Hrow Hne Hlast.
  assert (Hnth : forall i, nth i (map or_empty row) [] = nth i texts []).
  { intros i. change (@nil N) with (or_empty None) at 1.
    rewrite map_nth, Hrow.
    destruct (Nat.lt_ge_cases i (length texts)).
    - rewrite (@nth_indep _ (map Some texts) i None (Some []))
        by (now rewrite length_map).
      now rewrite map_nth.
    - rewrite !nth_overflow; try reflexivity; rewrite ?length_map; lia. }
  assert (Hpos : 0 < length texts) by (destruct texts; [contradiction|simpl; lia]).
  assert (Hlen : length texts <= length (map or_empty row)).
  { destruct (Nat.le_gt_cases (length texts) (length (map or_empty row)));
      [assumption|]. exfalso.
    specialize (Hnth (length texts - 1)).
    rewrite nth_overflow in Hnth by lia.
    rewrite nth_last_text in Hnth by assumption.
    rewrite <- Hnth in Hlast. vm_compute in Hlast. discriminate. }
  assert (Hsplit : map or_empty row
                   = texts ++ repeat [] (length (map or_empty row) - length texts)).
  { apply (nth_ext _ _ [] []).
    - rewrite length_app, repeat_length. unfold ustr in *. lia.
    - intros n _. rewrite Hnth.
      destruct (Nat.lt_ge_cases n (length texts)).
      + now rewrite app_nth1.
      + rewrite app_nth2 by assumption. rewrite nth_overflow by assumption.
        symmetry. apply nth_repeat. }
  rewrite Hsplit. unfold pop_blank. rewrite rev_app_distr, rev_repeat.
  rewrite drop_blank_padding, (rev_last_text Hne). simpl. rewrite Hlast.
  rewrite <- (rev_last_text Hne). apply rev_involutive.
Qed.

End Unmerged.

Section UnmergedRows.

Lemma plain_row_texts (tr : node) :
  plain_row tr ->
  map cell_text (cells_of tr) <> []
  /\ blank (last (map cell_text (cells_of tr)) []) = false.
Proof.
  intros (Hne & _ & Hlast). split.
  - destruct (cells_of tr); [contradiction|discriminate].
  - rewrite last_map_text by assumption. now apply cell_text_not_blank.
Qed.

Lemma process_plain_tr (spans : span_buf) (tr : node) :
  free_spans spans -> plain_row tr ->
  exists spans',
    process_tr spans tr = Done (spans', map cell_text (cells_of tr))
    /\ free_spans spans'.
Proof.
  intros Hfree Hplain. pose proof Hplain as (_ & Hall & _).
  destruct (@place_plain_cells (cells_of tr) (apply_spans spans) []
                               (@free_spans_start spans Hfree) Hall)
    as (b & Hf & _ & Hrow & Hsp).
  destruct (@plain_row_texts tr Hplain) as [Hne Hlast].
  exists (snd b). split; [|assumption].
  unfold process_tr. fold (cells_of tr). rewrite Hf. cbn [bind].
  now rewrite (@cleaned_texts (fst b) (map cell_text (cells_of tr)) Hrow Hne Hlast).
Qed.

Lemma process_plain_rows (trs : list node) :
  forall (spans : span_buf) (rows : list (list ustr)),
    free_spans spans -> (forall tr, In tr trs -> plain_row tr) ->
    process_rows spans trs rows
    = Done (rows ++ map (fun tr => map cell_text (cells_of tr)) trs).
Proof.
  induction trs as [|tr rest IH]; intros spans rows Hfree Hall; simpl.
  - now rewrite app_nil_r.
  - assert (Hplain : plain_row tr) by (apply Hall; now left).
    destruct (@process_plain_tr spans tr Hfree Hplain) as (spans' & -> & Hfree').
    cbn [bind].
    destruct (@plain_row_texts tr Hplain) as [Hne Hlast].
    assert (Hk : existsb (fun col => negb (blank col)) (map cell_text (cells_of tr))
                 = true).
    { apply existsb_exists. exists (last (map cell_text (cells_of tr)) []).
      split; [|now rewrite Hlast].
      rewrite (app_removelast_last [] Hne) at 2. apply in_or_app. right. now left. }
    rewrite Hk, IH; [|assumption|intros t Ht; apply Hall; now right].
    now rewrite <- app_assoc.
Qed.

Lemma plain_row_lines (trs : list node) :
  (forall tr, In tr trs -> plain_row tr) ->
  row_lines (map (fun tr => map cell_text (cells_of tr)) trs) = map row_line trs.
Proof.
  induction trs as [|tr rest IH]; intros Hall; [reflexivity|].
  assert (Hplain : plain_row tr) by (apply Hall; now left).
  destruct (@plain_row_texts tr Hplain) as [Hne Hlast].
  destruct (@join_last SEP _ Hne) as [pre Hpre].
  change (row_lines (map (fun tr => map cell_text (cells_of tr)) (tr :: rest)))
    with ((if blank (join SEP (map cell_text (cells_of tr))) then []
           else [BULLET ++ join SEP (map cell_text (cells_of tr))])
            ++ row_lines (map (fun tr => map cell_text (cells_of tr)) rest)).
  rewrite IH by (intros t Ht; apply Hall; now right).
  change (map row_line (tr :: rest)) with (row_line tr :: map row_line rest).
  assert (Hl : row_line tr
               = BULLET ++ pre ++ last (map cell_text (cells_of tr)) [])
    by (unfold row_line; now rewrite Hpre).
  now rewrite Hl, Hpre, (@not_blank_app pre _ Hlast).
Qed.

End UnmergedRows.

(** A row whose last cell is empty loses that column. *)
Lemma unmerged_table_counterexample :
  cells_of (Elem "tr" [] [] [cell "甲" "1" "1"; cell "" "1" "1"])
  = [cell "甲" "1" "1"; cell "" "1" "1"]
  /\ process_rows [] (table_rows (table_of [[cell "甲" "1" "1"; cell "" "1" "1"]])) []
     = Done [[U "甲"]]
  /\ table_to_lines (table_of [[cell "甲" "1" "1"; cell "" "1" "1"]]) squeeze
     = Done [U "• 甲"]
  /\ length [U "甲"] <> length [cell "甲" "1" "1"; cell "" "1" "1"].
Proof. repeat split; try (vm_compute; reflexivity). vm_compute. discriminate. Qed.

(** C5, as the table flattener has it.  In a table without merged cells
    whose every own row has a cell and ends in a cell with non-empty text,
    the output is the optional caption line followed by exactly one line
    per own row, and a row's line is the bullet followed by the texts of
    all its cells, one column per cell, joined by the bar separator.
    (Trailing empty cells would be cut off, and a row without any text
    dropped.) *)
Theorem unmerged_table_lines (table : node) (squeeze : ustr -> ustr) :
  (forall tr, In tr (table_rows table) -> plain_row tr) ->
  process_rows [] (table_rows table) []
  = Done (map (fun tr => map cell_text (cells_of tr)) (table_rows table))
  /\ table_to_lines table squeeze
     = Done (caption_lines squeeze table ++ map row_line (table_rows table)).
Proof.
  intros Hall.
  assert (Hfree : free_spans []) by (intros [|i]; reflexivity).
  pose proof (@process_plain_rows (table_rows table) [] [] Hfree Hall) as Hrows.
  simpl in Hrows. split; [assumption|].
  unfold table_to_lines. rewrite Hrows. cbn [bind].
  now rewrite plain_row_lines.
Qed.

Lemma unmerged_table_lines_witness :
  table_to_lines filmography squeeze
  = Done [U "• 年份 | 片名 | 角色"; U "• 2001 |  | 阿明"].
Proof.
  rewrite (proj2 (@unmerged_table_lines filmography squeeze
    ltac:(intros tr [<-|[<-|[]]]; (split; [discriminate|]);
          (split; [|vm_compute; discriminate]);
          intros cl Hcl; repeat (destruct Hcl as [<-|Hcl]; [split; reflexivity|]);
          destruct Hcl))).
  reflexivity.
Defined.

(* ================================================================= *)
(** ** Regular expressions: what a match is *)

Module ReFacts.

Lemma rep_loop_sound (ma : mstate -> K -> option mstate)
      (R : mstate -> mstate -> Prop) (g : bool) :
  (forall s k x, ma s k = Some x -> exists s', R s s' /\ k s' = Some x) ->
  forall n lo hi s k x,
    rep_loop ma g lo hi n s k = Some x ->
    exists s', iter R lo s s' /\ k s' = Some x.
Proof.
  intros Hma. induction n as [|n IH]; intros lo hi s k x H; [discriminate|].
  cbn [rep_loop] in H. destruct lo as [|lo].
  - assert (Hmore : forall y,
               ma s (fun s' => if length (aft s') <? length (aft s)
                               then rep_loop ma g 0 (pred_opt hi) n s' k
                               else None) = Some y ->
               exists s', iter R 0 s s' /\ k s' = Some y).
    { intros y Hy. apply Hma in Hy. destruct Hy as (s1 & HR & Hk).
      destruct (length (aft s1) <? length (aft s)); [|discriminate].
      apply IH in Hk. destruct Hk as (s' & Hi & Hk).
      exists s'. split; [|assumption]. now apply iter_step with s1. }
    destruct (is_zero hi).
    { exists s. split; [constructor|assumption]. }
    destruct g.
    + destruct (ma s _) as [y|] eqn:E.
      * injection H as ->. now apply Hmore.
      * exists s. split; [constructor|assumption].
    + destruct (k s) as [y|] eqn:E.
      * injection H as ->. exists s. split; [constructor|assumption].
      * now apply Hmore.
  - apply Hma in H. destruct H as (s1 & HR & Hk).
    apply IH in Hk. destruct Hk as (s' & Hi & Hk).
    exists s'. split; [|assumption]. now apply iter_step with s1.
Qed.

(** Whatever the matcher returns came out of its continuation, at the end
    of a match. *)
Lemma m_sound (r : re) :
  forall s k x, m r s k = Some x -> exists s', matches r s s' /\ k s' = Some x.
Proof.
  induction r as [|p|a IHa b IHb|a IHa b IHb|g lo hi a IHa|i a IHa|a IHa|p|];
    intros s k x H; cbn [m] in H.
  - now exists s.
  - destruct (aft s) as [|c t] eqn:E; [discriminate|].
    destruct (p c) eqn:Ep; [|discriminate].
    eexists. split; [|exact H]. now exists c, t.
  - apply IHa in H. destruct H as (s1 & Ha & H).
    apply IHb in H. destruct H as (s' & Hb & H).
    exists s'. split; [|assumption]. now exists s1.
  - destruct (m a s k) as [y|] eqn:E.
    + injection H as ->. apply IHa in E. destruct E as (s' & Ha & Hk).
      exists s'. split; [now left|assumption].
    + apply IHb in H. destruct H as (s' & Hb & Hk).
      exists s'. split; [now right|assumption].
  - exact (@rep_loop_sound (m a) (matches a) g IHa _ lo hi s k x H).
  - apply IHa in H. destruct H as (s1 & Ha & H).
    eexists. split; [|exact H]. now exists s1.
  - destruct (m a s Some) as [y|] eqn:E; [|discriminate].
    apply IHa in E. destruct E as (s1 & Ha & _).
    exists s. split; [|assumption]. split; [reflexivity|]. now exists s1.
  - destruct (bef s) as [|c b] eqn:E; [discriminate|].
    destruct (p c) eqn:Ep; [|discriminate].
    exists s. split; [|assumption]. split; [reflexivity|]. now exists c, b.
  - destruct (aft s) as [|c [|c' t]] eqn:E; try discriminate.
    + exists s. split; [|assumption]. split; [reflexivity|]. now left.
    + destruct (c =? NL)%N eqn:Ec; [|discriminate].
      apply N.eqb_eq in Ec. subst c.
      exists s. split; [|assumption]. split; [reflexivity|]. now right.
Qed.

Lemma match_at_sound (r : re) (b a : ustr) (s' : mstate) :
  match_at r b a = Some s' ->
  exists s1, matches r (MS b a []) s1 /\ s' = set_cap 0 (MS b a []) s1.
Proof.
  unfold match_at. intros H. apply m_sound in H.
  destruct H as (s2 & (s1 & Hm & ->) & [= <-]). now exists s1.
Qed.



End ReFacts.

(* ================================================================= *)
(** ** Label/value repair: the anchor scan *)

Section AnchorScan.

Variable maxlen : nat.

Lemma scan_before_colon (skip rest : list node) :
  Forall before_colon skip ->
  label_scan maxlen (skip ++ rest) false [] = label_scan maxlen rest false [].
Proof.
  induction 1 as [|nd skip Hnd _ IH]; [reflexivity|].
  assert (E : (maxlen * 2 <? sum_len []) = false) by (apply Nat.ltb_ge; simpl; lia).
  destruct nd as [s|k s|name cls attrs kids]; cbn [before_colon] in Hnd;
    cbn [app label_scan]; rewrite Hnd; [| |rewrite E]; exact IH.
Qed.

End AnchorScan.

(* ================================================================= *)
(** ** Label/value repair: where the pattern matches *)

Section MissingLabel.

Import ReFacts.

Lemma matches_lit (l : ustr) :
  forall s s', matches (lit l) s s' -> aft s = l ++ aft s'.
Proof.
  induction l as [|c l IH]; intros s s' H; cbn [lit matches] in H.
  - now subst.
  - destruct H as (s1 & (c' & t & E & Hc & ->) & H).
    apply IH in H. simpl in H. apply N.eqb_eq in Hc. subst c'.
    now rewrite E, H.
Qed.

Lemma matches_alts (rs : list re) :
  forall s s', matches (alts rs) s s' -> exists r, In r rs /\ matches r s s'.
Proof.
  induction rs as [|a rs IH]; intros s s' H.
  - destruct H as (c & t & _ & Hc & _). discriminate.
  - destruct rs as [|b rs'].
    + exists a. split; [now left|assumption].
    + change (alts (a :: b :: rs')) with (Alt a (alts (b :: rs'))) in H.
      destruct H as [H|H].
      * exists a. split; [now left|assumption].
      * destruct (IH _ _ H) as (r & Hr & Hm). exists r. split; [now right|assumption].
Qed.

Lemma firstn_consumed (w r : ustr) :
  firstn (length (w ++ r) - length r) (w ++ r) = w.
Proof.
  rewrite length_app. replace (length w + length r - length r) with (length w) by lia.
  rewrite firstn_app, Nat.sub_diag, firstn_all. simpl. apply app_nil_r.
Qed.

(** A match of the pattern is a label of the vocabulary and the colon;
    group 1 is the label and group 0 the whole match. *)
Lemma missing_after_match (labels : list ustr) (b a : ustr) (s' : mstate) :
  match_at (missing_after labels) b a = Some s' ->
  exists label,
    In label labels
    /\ a = label ++ COLON_FULL :: aft s'
    /\ group 1 (caps s') = Some label
    /\ group 0 (caps s') = Some (label ++ [COLON_FULL]).
Proof.
  intros H. apply match_at_sound in H. destruct H as (s3 & Hm & ->).
  unfold missing_after in Hm. cbn [seqs matches] in Hm.
  destruct Hm as (s1' & (s1 & Halt & ->) & s2 & (c & t & Ec & Hc & ->) & -> & _).
  apply matches_alts in Halt. destruct Halt as (r & Hr & Hm).
  apply in_map_iff in Hr. destruct Hr as (label & <- & Hin).
  apply matches_lit in Hm. cbn [aft set_cap bef caps] in *.
  apply N.eqb_eq in Hc. subst c.
  exists label. split; [assumption|].
  assert (Ea : a = label ++ COLON_FULL :: t) by (now rewrite Hm, Ec).
  split; [assumption|]. cbn [group Nat.eqb]. split.
  - f_equal. rewrite Hm. apply firstn_consumed.
  - f_equal. rewrite Ea.
    change (label ++ COLON_FULL :: t) with (label ++ [COLON_FULL] ++ t).
    rewrite app_assoc. apply firstn_consumed.
Qed.

(** A match that starts before a character [x] which its text holds at
    most in first place ends before [x]. *)
Lemma match_before (w rest pre tail : ustr) (x : N) :
  w ++ rest = pre ++ x :: tail -> pre <> [] -> ~ In x (tl w) -> w <> [] ->
  exists pre', pre = w ++ pre'.
Proof.
  intros E Hpre Hx Hw.
  destruct w as [|w0 w]; [contradiction|]. destruct pre as [|p0 pre]; [contradiction|].
  simpl in E, Hx. injection E as <- E.
  assert (H : forall w pre, w ++ rest = pre ++ x :: tail -> ~ In x w ->
                            exists q, pre = w ++ q).
  { clear. induction w as [|a w IH]; intros pre E Hx.
    - now exists pre.
    - destruct pre as [|p pre]; simpl in E; injection E as -> E.
      + exfalso. apply Hx. now left.
      + destruct (IH pre E) as [q ->]; [intros Hi; apply Hx; now right|].
        now exists q. }
  destruct (H w pre E Hx) as [q ->]. now exists q.
Qed.

Variable labels : list ustr.
Variable f : mstate -> ustr.
Variable x : N.
Variable tail : ustr.

Hypothesis labels_apart :
  forall label, In label labels -> ~ In x (tl (label ++ [COLON_FULL])).

(** The substitution loop gets to the position of [x] whatever stands
    before it. *)
Lemma sub_loop_reaches (n : nat) :
  forall (pre b : ustr),
    length (pre ++ x :: tail) < n ->
    exists out b' n',
      length (x :: tail) < n'
      /\ sub_loop n (missing_after labels) f b (pre ++ x :: tail)
         = out ++ sub_loop n' (missing_after labels) f b' (x :: tail).
Proof.
  induction n as [|n IH]; intros pre b Hn; [lia|].
  destruct pre as [|c p].
  - exists [], b, (S n). split; [exact Hn|reflexivity].
  - cbn [sub_loop].
    destruct (match_at (missing_after labels) b ((c :: p) ++ x :: tail))
      as [s'|] eqn:E.
    + destruct (missing_after_match _ _ _ E) as (label & Hin & Ea & _).
      destruct (@match_before (label ++ [COLON_FULL]) (aft s') (c :: p) tail x)
        as [pre' Hpre'].
      * now rewrite <- app_assoc.
      * discriminate.
      * now apply labels_apart.
      * destruct label; discriminate.
      * assert (Eaft : aft s' = pre' ++ x :: tail).
        { rewrite Hpre', <- !app_assoc in Ea. simpl in Ea.
          apply app_inv_head in Ea. injection Ea as Ea. symmetry. exact Ea. }
        assert (Hlt : length (aft s') < length ((c :: p) ++ x :: tail)).
        { rewrite Eaft, Hpre'. repeat rewrite length_app.
          cbn [length]. unfold ustr in *. lia. }
        apply Nat.ltb_lt in Hlt. rewrite Hlt. apply Nat.ltb_lt in Hlt.
        rewrite Eaft.
        destruct (IH pre' (bef s')) as (out & b' & n' & Hn' & Hout).
        { rewrite <- Eaft. unfold ustr in *. lia. }
        exists (f s' ++ out), b', n'. split; [assumption|].
        now rewrite Hout, app_assoc.
    + destruct (IH p (c :: b)) as (out & b' & n' & Hn' & Hout).
      { simpl in Hn. lia. }
      exists (c :: out), b', n'. split; [assumption|].
      simpl. now rewrite Hout.
Qed.

End MissingLabel.

Section Repair.

Lemma contains_unfold (needle s : ustr) :
  contains needle s
  = starts_with needle s || match s with [] => false | _ :: t => contains needle t end.
Proof. destruct s; reflexivity. Qed.

Lemma starts_with_app (t b : ustr) : starts_with t (t ++ b) = true.
Proof. induction t as [|c t IH]; [reflexivity|]. simpl. now rewrite N.eqb_refl. Qed.

Lemma contains_app (t a b : ustr) : contains t (a ++ t ++ b) = true.
Proof.
  induction a as [|c a IH].
  - simpl. rewrite contains_unfold, starts_with_app. reflexivity.
  - simpl. rewrite IH. apply orb_true_r.
Qed.

Lemma in_str_In (s : ustr) (c : N) : in_str s c = true <-> In c s.
Proof.
  unfold in_str. rewrite existsb_exists. split.
  - intros (y & Hy & E). apply N.eqb_eq in E. now subst.
  - intros H. exists c. split; [assumption|apply N.eqb_refl].
Qed.

(** No label holds the first character of "學名" anywhere but in first
    place, and the colon is another character. *)
Lemma labels_apart_sci (label : ustr) :
  In label LABELS -> ~ In SCI_HEAD (tl (label ++ [COLON_FULL])).
Proof.
  intros Hin Hx. apply in_str_In in Hx.
  assert (H : forallb (fun l => negb (in_str (tl (l ++ [COLON_FULL])) SCI_HEAD)) LABELS
              = true) by (vm_compute; reflexivity).
  rewrite forallb_forall in H. specialize (H label Hin).
  rewrite Hx in H. discriminate.
Qed.

(** At "學名：，" the pattern matches, with the label "學名". *)
Lemma match_at_sci (b suf : ustr) :
  exists s',
    match_at _MISSING_AFTER_LABEL b (SCI_NAME ++ COLON_FULL :: COMMA :: suf) = Some s'
    /\ aft s' = COMMA :: suf
    /\ group 1 (caps s') = Some SCI_NAME.
Proof.
  destruct (match_at _MISSING_AFTER_LABEL b (SCI_NAME ++ COLON_FULL :: COMMA :: suf))
    as [s'|] eqn:E; [|vm_compute in E; discriminate E].
  exists s'. split; [reflexivity|].
  change _MISSING_AFTER_LABEL with (missing_after LABELS) in E.
  destruct (missing_after_match _ _ _ E) as (label & Hin & Ea & H1 & _).
  assert (Hl : label = SCI_NAME).
  { unfold LABELS in Hin. cbn [In] in Hin.
    repeat (destruct Hin as [<-|Hin]; [try discriminate Ea; reflexivity|]).
    destruct Hin. }
  subst label. split; [|assumption].
  injection Ea as Ea. now symmetry.
Qed.

Lemma no_match_at_comma (b suf : ustr) :
  match_at _MISSING_AFTER_LABEL b (COMMA :: suf) = None.
Proof. vm_compute. reflexivity. Qed.

End Repair.

(* ================================================================= *)
(** ** Substitution: texts it leaves alone *)

Section SubFacts.

Import ReFacts.

(** A replacement that writes back what was matched changes nothing. *)
Lemma sub_loop_id (r : re) (f : mstate -> ustr) (P : ustr -> Prop) :
  (forall w a, P (w ++ a) -> P a) ->
  (forall b a s', P a -> match_at r b a = Some s' ->
                  exists w, a = w ++ aft s' /\ f s' = w) ->
  forall n b a, P a -> sub_loop n r f b a = a.
Proof.
  intros Hsuf Hid. induction n as [|n IH]; intros b a Ha; [reflexivity|].
  cbn [sub_loop].
  assert (Hrest : match a with [] => [] | c :: t => c :: sub_loop n r f (c :: b) t end
                  = a).
  { destruct a as [|c t]; [reflexivity|]. f_equal. apply IH.
    apply (Hsuf [c]). exact Ha. }
  destruct (match_at r b a) as [s'|] eqn:E; [|exact Hrest].
  destruct (Hid b a s' Ha E) as (w & Ea & Ef).
  destruct (length (aft s') <? length a) eqn:El.
  - rewrite Ef, IH; [now symmetry|]. apply (Hsuf w). now rewrite <- Ea.
  - rewrite Hrest, Ef. apply Nat.ltb_ge in El.
    assert (Hw : length w = 0).
    { apply (f_equal (@length N)) in Ea. rewrite length_app in Ea.
      unfold ustr in *. lia. }
    destruct w; [reflexivity|discriminate].
Qed.


Lemma zero_width_aft (r : re) :
  zero_width r = true -> forall s s', matches r s s' -> aft s' = aft s.
Proof.
  induction r as [|p|a IHa b IHb|a IHa b IHb|g lo hi a IHa|i a IHa|a IHa|p|];
    intros Hz s s' H; cbn [zero_width matches] in *; try discriminate.
  - now subst.
  - apply andb_true_iff in Hz. destruct Hz as [Hza Hzb].
    destruct H as (s1 & Ha & Hb).
    now rewrite (IHb Hzb _ _ Hb), (IHa Hza _ _ Ha).
  - destruct H as (s1 & Ha & ->). exact (IHa Hz _ _ Ha).
  - now destruct H as [-> _].
  - now destruct H as [-> _].
  - now destruct H as [-> _].
Qed.

Lemma starts_in_head (P : N -> bool) (r : re) :
  starts_in P r ->
  forall s s', matches r s s' -> exists c t, aft s = c :: t /\ P c = true.
Proof.
  induction r as [|p|a IHa b IHb|a IHa b IHb|g lo hi a IHa|i a IHa|a IHa|p|];
    intros Hs s s' H; cbn [starts_in matches] in *; try contradiction.
  - destruct H as (c & t & E & Hc & _). exists c, t. auto.
  - destruct H as (s1 & Ha & Hb). destruct Hs as [Hs|[Hz Hs]].
    + exact (IHa Hs _ _ Ha).
    + rewrite <- (@zero_width_aft a Hz s s1 Ha). exact (IHb Hs _ _ Hb).
  - destruct Hs as [Hsa Hsb]. destruct H as [H|H]; eauto.
  - destruct Hs as [Hlo Hs]. inversion H; subst; [lia|]. eauto.
  - destruct H as (s1 & Ha & _). exact (IHa Hs _ _ Ha).
Qed.

(** No match starts where the text has no character of the class. *)
Lemma no_match_without (P : N -> bool) (r : re) (b a : ustr) :
  starts_in P r -> Forall (fun c => P c = false) a -> match_at r b a = None.
Proof.
  intros Hs Ha. destruct (match_at r b a) as [s'|] eqn:E; [|reflexivity].
  apply match_at_sound in E. destruct E as (s1 & Hm & _).
  destruct (@starts_in_head P r Hs _ _ Hm) as (c & t & Ea & Hc).
  cbn [aft] in Ea. subst a. inversion Ha; subst. congruence.
Qed.


End SubFacts.

(* ================================================================= *)
(** ** Normalizer: text without whitespace *)

Section Segments.

Import ReFacts.









End Segments.

Section CleanText.

Import ReFacts.










End CleanText.

Section CleanNormalizer.

Import ReFacts.








Lemma lstrip_clean (s : ustr) : clean s -> lstrip s = s.
Proof. intros H. destruct H as [|c t Hc _]; [reflexivity|]. simpl. now rewrite Hc. Qed.

Lemma strip_clean (s : ustr) : clean s -> strip s = s.
Proof.
  intros H. unfold strip, rstrip. rewrite (@lstrip_clean s H).
  rewrite lstrip_clean by (now apply Forall_rev). apply rev_involutive.
Qed.





End CleanNormalizer.

(* ================================================================= *)
(** ** Normalizer: LaTeX residue and idempotence *)

Section Latex.

Import ReFacts.

Lemma chr_starts (P : N -> bool) (c : N) : P c = true -> starts_in P (chr c).
Proof. intros H c' Hc. apply N.eqb_eq in Hc. now subst c'. Qed.

Lemma lit_starts (P : N -> bool) (c : N) (t : ustr) :
  P c = true -> starts_in P (lit (c :: t)).
Proof. intros H. left. now apply chr_starts. Qed.









End Latex.





(* ================================================================= *)
(** ** File names: [safe_filename] *)

Lemma match_at_chr (p : N -> bool) (b t : ustr) (x : N) :
  match_at (Chr p) b (x :: t)
  = if p x then Some (MS (x :: b) t [(0, [x])]) else None.
Proof.
  unfold match_at. cbn [m aft bef caps]. destruct (p x); [|reflexivity].
  unfold set_cap. cbn [aft bef caps length].
  replace (S (length t) - length t) with 1 by lia. reflexivity.
Qed.

Lemma sub_chr_map (p : N -> bool) (c : N) :
  forall n b a, length a < n ->
    sub_loop n (Chr p) (expand [TLit [c]]) b a
    = map (fun x => if p x then c else x) a.
Proof.
  induction n as [|n IH]; intros b a Hn; [lia|]. cbn [sub_loop].
  destruct a as [|x t].
  - reflexivity.
  - rewrite match_at_chr. cbn [length] in Hn. destruct (p x) eqn:Hp.
    + cbn [aft bef length]. replace (length t <? S (length t)) with true
        by (symmetry; apply Nat.ltb_lt; lia).
      cbn [expand map concat app]. rewrite Hp. f_equal. apply IH. lia.
    + cbn [map]. rewrite Hp. f_equal. apply IH. lia.
Qed.

Lemma safe_filename_map (title : ustr) :
  safe_filename title
  = firstn 200 (map (fun x => if in_str UNSAFE_CHARS x then 95%N else x) title).
Proof.
  unfold safe_filename, sub, sub_fn, any_of. rewrite sub_chr_map; [reflexivity|lia].
Qed.

Lemma firstn_map_comm {A B} (f : A -> B) (n : nat) (l : list A) :
  firstn n (map f l) = map f (firstn n l).
Proof. apply firstn_map. Qed.

(** X13. A file name made from a title has the title's length, cut at
    200 characters, holds none of the nine reserved characters, and is
    left as it is when made into a file name again. *)
Theorem safe_filename_is_safe (title : ustr) :
  length (safe_filename title) = Nat.min 200 (length title)
  /\ Forall (fun c => in_str UNSAFE_CHARS c = false) (safe_filename title)
  /\ safe_filename (safe_filename title) = safe_filename title.
Proof.
  rewrite !safe_filename_map. split; [|split].
  - rewrite length_firstn, length_map. reflexivity.
  - rewrite firstn_map_comm. apply Forall_forall. intros c Hc.
    apply in_map_iff in Hc. destruct Hc as (x & <- & _).
    destruct (in_str UNSAFE_CHARS x) eqn:E; [reflexivity|exact E].
  - set (g := fun x => if in_str UNSAFE_CHARS x then 95%N else x).
    rewrite (firstn_map g 200 title), map_map, firstn_map, firstn_firstn.
    rewrite Nat.min_id. apply map_ext. intros x. unfold g.
    destruct (in_str UNSAFE_CHARS x) eqn:E; [reflexivity|]. now rewrite E.
Qed.

(* ================================================================= *)
(** ** Span attributes: [_parse_int] *)


Lemma small_cases (d : N) :
  (d < 10)%N ->
  d = 0%N \/ d = 1%N \/ d = 2%N \/ d = 3%N \/ d = 4%N \/ d = 5%N \/ d = 6%N
  \/ d = 7%N \/ d = 8%N \/ d = 9%N.
Proof. lia. Qed.

Lemma ascii_digit (d : N) :
  (d < 10)%N ->
  digit_val (48 + d) = Some d /\ is_space (48 + d) = false
  /\ ((48 + d =? 45) = false /\ (48 + d =? 43) = false /\ (48 + d =? 95) = false)%N.
Proof.
  intros H. apply small_cases in H.
  repeat (destruct H as [->|H]; [vm_compute; repeat split; reflexivity|]).
  subst d. vm_compute. repeat split; reflexivity.
Qed.

Lemma div10 (n : N) :
  exists q r, (n / 10 = q /\ n mod 10 = r /\ r < 10 /\ n = q * 10 + r)%N.
Proof.
  assert (H10 : 10%N <> 0%N) by discriminate.
  exists (n / 10)%N, (n mod 10)%N. repeat split.
  - now apply N.mod_upper_bound.
  - rewrite N.mul_comm. now apply N.div_mod.
Qed.

Lemma digits_val_dec (f : nat) :
  forall (n : N) (out : ustr) (ad : bool),
    N.to_nat n < f ->
    digits_val (dec_digits f n out) 0 ad = digits_val out n true.
Proof.
  induction f as [|f IH]; intros n out ad Hf; [lia|].
  cbn [dec_digits].
  destruct (div10 n) as (q & r & -> & -> & Hd & Hn).
  destruct (ascii_digit Hd) as (Hv & _ & _ & _ & H95).
  destruct (q =? 0)%N eqn:E.
  - apply N.eqb_eq in E. cbn [digits_val]. rewrite H95, Hv.
    f_equal. lia.
  - apply N.eqb_neq in E. rewrite IH.
    + cbn [digits_val]. rewrite H95, Hv. f_equal. lia.
    + lia.
Qed.

Lemma dec_digits_clean (f : nat) :
  forall (n : N) (out : ustr),
    clean out -> clean (dec_digits f n out).
Proof.
  induction f as [|f IH]; intros n out Ho; [exact Ho|]. cbn [dec_digits].
  destruct (div10 n) as (q & r & -> & -> & Hd & Hn).
  destruct (ascii_digit Hd) as (_ & Hs & _).
  assert (Hc : clean ((48 + r)%N :: out)) by (constructor; assumption).
  destruct (q =? 0)%N; [exact Hc|]. apply IH. exact Hc.
Qed.

Lemma dec_digits_head (f : nat) :
  forall (n : N) (out : ustr),
    N.to_nat n < f ->
    exists d t, (d < 10)%N /\ dec_digits f n out = (48 + d)%N :: t.
Proof.
  induction f as [|f IH]; intros n out Hf; [lia|]. cbn [dec_digits].
  destruct (div10 n) as (q & r & -> & -> & Hd & Hn).
  destruct (q =? 0)%N eqn:E.
  - eauto.
  - apply N.eqb_neq in E. apply IH. lia.
Qed.

Lemma dec_digits_count (f : nat) :
  forall (n : N) (out : ustr),
    count_digits out = length out ->
    count_digits (dec_digits f n out) = length (dec_digits f n out).
Proof.
  induction f as [|f IH]; intros n out Ho; [exact Ho|]. cbn [dec_digits].
  destruct (div10 n) as (q & r & -> & -> & Hd & Hn).
  destruct (ascii_digit Hd) as (_ & _ & _ & _ & H95).
  assert (Hc : count_digits ((48 + r)%N :: out) = length ((48 + r)%N :: out)).
  { unfold count_digits in *. cbn [filter]. rewrite H95. cbn [negb length].
    now rewrite Ho. }
  destruct (q =? 0)%N; [exact Hc|]. apply IH. exact Hc.
Qed.

Lemma count_str (n : nat) : count_digits (str_of_nat n) = length (str_of_nat n).
Proof. unfold str_of_nat. now apply dec_digits_count. Qed.

Lemma py_int_head (n : nat) :
  py_int (str_of_nat n) = option_map Z.of_N (numeral_val (str_of_nat n)).
Proof.
  unfold py_int, str_of_nat.
  rewrite strip_clean by (apply dec_digits_clean; constructor).
  destruct (@dec_digits_head (S n) (N.of_nat n) []) as (d & t & Hd & E);
    [lia|].
  destruct (ascii_digit Hd) as (_ & _ & H45 & H43 & _).
  now rewrite E, H45, H43.
Qed.

Lemma py_int_str (n : nat) :
  length (str_of_nat n) <= int_max_str_digits ->
  py_int (str_of_nat n) = Some (Z.of_nat n).
Proof.
  intros Hl. rewrite py_int_head. unfold numeral_val. rewrite count_str.
  replace (int_max_str_digits <? length (str_of_nat n)) with false
    by (symmetry; apply Nat.ltb_ge; exact Hl).
  unfold str_of_nat.
  rewrite digits_val_dec by lia. cbn [digits_val option_map]. f_equal. lia.
Qed.

Lemma space_cases (c : N) :
  is_space c = true ->
  In c [9; 10; 11; 12; 13; 28; 29; 30; 31; 32; 133; 160; 5760; 8192; 8193;
        8194; 8195; 8196; 8197; 8198; 8199; 8200; 8201; 8202; 8232; 8233;
        8239; 8287; 12288]%N.
Proof.
  unfold is_space.
  rewrite !orb_true_iff, !andb_true_iff, !N.leb_le, !N.eqb_eq. cbn [In]. lia.
Qed.

Lemma digit_not_space (c : N) : is_digit c = true -> is_space c = false.
Proof.
  intros Hd. destruct (is_space c) eqn:E; [|reflexivity].
  apply space_cases in E. cbn [In] in E.
  repeat (destruct E as [<-|E]; [vm_compute in Hd; discriminate Hd|]).
  destruct E.
Qed.

Lemma digit_no_mark (c : N) :
  is_digit c = true -> ((c =? 45) = false /\ (c =? 43) = false /\ (c =? 95) = false)%N.
Proof.
  intros Hd. repeat split.
  all: destruct (N.eqb_spec c 45) as [->|_]; [vm_compute in Hd; discriminate Hd|].
  all: destruct (N.eqb_spec c 43) as [->|_]; [vm_compute in Hd; discriminate Hd|].
  all: destruct (N.eqb_spec c 95) as [->|_]; [vm_compute in Hd; discriminate Hd|].
  all: reflexivity.
Qed.

Lemma count_all_digits (s : ustr) :
  Forall (fun c => is_digit c = true) s -> count_digits s = length s.
Proof.
  unfold count_digits. induction 1 as [|c t Hc _ IH]; [reflexivity|].
  cbn [filter]. destruct (@digit_no_mark c Hc) as (_ & _ & ->).
  cbn [negb length]. now rewrite IH.
Qed.

Lemma py_int_long (s : ustr) :
  Forall (fun c => is_digit c = true) s -> int_max_str_digits < length s ->
  py_int s = None.
Proof.
  intros Hs Hl. unfold py_int. rewrite strip_clean.
  - destruct s as [|c t]; [reflexivity|].
    destruct (@digit_no_mark c (Forall_inv Hs)) as (-> & -> & _).
    unfold numeral_val. rewrite (@count_all_digits (c :: t) Hs).
    replace (int_max_str_digits <? length (c :: t)) with true
      by (symmetry; apply Nat.ltb_lt; exact Hl).
    reflexivity.
  - eapply Forall_impl; [|exact Hs]. intros c. apply digit_not_space.
Qed.

Lemma digit_val_none (c : N) : is_digit c = false -> digit_val c = None.
Proof. unfold digit_val. now intros ->. Qed.

Lemma digits_val_junk (s : ustr) :
  forall v ad, existsb (fun c => negb (is_digit c) && negb (c =? 95)%N) s = true ->
               digits_val s v ad = None.
Proof.
  induction s as [|c t IH]; intros v ad H; [discriminate|].
  cbn [existsb] in H. cbn [digits_val].
  destruct (c =? 95)%N eqn:E95.
  - rewrite andb_false_r in H. cbn [orb] in H.
    destruct ad; [|reflexivity]. now apply IH.
  - destruct (is_digit c) eqn:Ed.
    + cbn [negb andb orb] in H. destruct (digit_val c); [|reflexivity].
      now apply IH.
    + now rewrite digit_val_none.
Qed.

Lemma lstrip_keeps (c : N) (s : ustr) :
  is_space c = false -> In c s -> In c (lstrip s).
Proof.
  intros Hc. induction s as [|x t IH]; intros Hin; [destruct Hin|].
  cbn [lstrip]. destruct (is_space x) eqn:Ex; [|exact Hin].
  destruct Hin as [->|Hin]; [congruence|]. now apply IH.
Qed.

Lemma strip_keeps (c : N) (s : ustr) :
  is_space c = false -> In c s -> In c (strip s).
Proof.
  intros Hc Hin. unfold strip, rstrip. apply -> in_rev.
  apply lstrip_keeps; [assumption|]. apply -> in_rev.
  now apply lstrip_keeps.
Qed.

Lemma py_int_junk (s : ustr) (c : N) :
  In c s -> not_numeric c = true -> py_int s = None.
Proof.
  unfold not_numeric. intros Hin H.
  apply andb_true_iff in H as [H Hsp]. apply andb_true_iff in H as [H H45].
  apply andb_true_iff in H as [H H43]. apply andb_true_iff in H as [Hd H95].
  apply negb_true_iff in Hsp.
  pose proof (@strip_keeps c s Hsp Hin) as Hs.
  unfold py_int. destruct (strip s) as [|x t] eqn:E; [reflexivity|].
  assert (Hj : forall l, In c l ->
               existsb (fun c => negb (is_digit c) && negb (c =? 95)%N) l = true).
  { intros l Hl. apply existsb_exists. exists c. split; [assumption|].
    now rewrite Hd, H95. }
  assert (Hn : forall l, In c l -> numeral_val l = None).
  { intros l Hl. unfold numeral_val. destruct (_ <? _); [reflexivity|].
    apply digits_val_junk. now apply Hj. }
  destruct Hs as [->|Hs].
  - apply negb_true_iff in H45, H43. rewrite H45, H43.
    rewrite Hn; [reflexivity|]. now left.
  - destruct (x =? 45)%N; [|destruct (x =? 43)%N];
      rewrite Hn; try reflexivity; try assumption.
    now right.
Qed.

(** X7. [_parse_int] reads a decimal numeral of at most 4300 digits as its
    value, raised to 1 when it is 0; more than 4300 digits, a missing
    attribute, and a value holding a character that is no digit, sign,
    underscore or whitespace, give the default. *)
Theorem parse_int_numeral :
  (forall (n : nat) (default : Z),
      length (str_of_nat n) <= 4300 ->
      _parse_int (Some (str_of_nat n)) default = Z.max (Z.of_nat n) 1)
  /\ (forall (s : ustr) (default : Z),
         Forall (fun c => is_digit c = true) s -> 4300 < length s ->
         _parse_int (Some s) default = default)
  /\ (forall default, _parse_int None default = default)
  /\ (forall (s : ustr) (c : N) (default : Z),
         In c s -> not_numeric c = true -> _parse_int (Some s) default = default).
Proof.
  split; [|split; [|split]].
  - intros n default Hl. unfold _parse_int. now rewrite py_int_str.
  - intros s default Hs Hl. unfold _parse_int. now rewrite py_int_long.
  - reflexivity.
  - intros s c default Hin Hc. unfold _parse_int. now rewrite (@py_int_junk s c Hin Hc).
Qed.

Lemma parse_int_numeral_witness :
  _parse_int (Some (str_of_nat 3)) 1 = Z.max 3 1
  /\ _parse_int (Some (repeat 57%N 4301)) 3 = 3%Z
  /\ _parse_int (Some (U "2.5")) 1 = 1%Z.
Proof.
  split; [|split].
  - apply (proj1 parse_int_numeral 3 1%Z). vm_compute. lia.
  - apply (proj1 (proj2 parse_int_numeral) (repeat 57%N 4301) 3%Z).
    + apply Forall_forall. intros c Hc. apply repeat_spec in Hc. now subst c.
    + rewrite repeat_length. lia.
  - apply (proj2 (proj2 (proj2 parse_int_numeral)) (U "2.5") 46%N 1%Z).
    + vm_compute. right. left. reflexivity.
    + vm_compute. reflexivity.
Defined.

(* ================================================================= *)
(** ** Splitting into lines and joining them *)


Lemma split_on_cons (sep : N) (s : ustr) :
  exists l ls, split_on sep s = l :: ls.
Proof.
  induction s as [|c t IH]; cbn [split_on]; [eauto|].
  destruct (c =? sep)%N; [eauto|]. destruct IH as (l & ls & ->). eauto.
Qed.

Lemma join_cons (sep l : ustr) (ls : list ustr) :
  ls <> [] -> join sep (l :: ls) = l ++ sep ++ join sep ls.
Proof. destruct ls; [congruence|reflexivity]. Qed.

Lemma join_split (s : ustr) : join [NL] (split_on NL s) = s.
Proof.
  induction s as [|c t IH]; [reflexivity|]. cbn [split_on].
  destruct (split_on_cons NL t) as (l & ls & E). rewrite E in *.
  destruct (c =? NL)%N eqn:Ec.
  - apply N.eqb_eq in Ec. subst c. rewrite join_cons by discriminate.
    rewrite IH. reflexivity.
  - destruct ls as [|l2 ls].
    + cbn [join] in *. now rewrite IH.
    + rewrite join_cons in IH |- * by discriminate. cbn [app] in IH |- *.
      now rewrite IH.
Qed.

Lemma split_on_app_line (l : ustr) (s : ustr) :
  Forall (fun c => (c =? NL)%N = false) l ->
  split_on NL (l ++ NL :: s) = l :: split_on NL s.
Proof.
  induction 1 as [|c l Hc _ IH]; cbn [app split_on].
  - now rewrite N.eqb_refl.
  - rewrite Hc, IH. reflexivity.
Qed.

Lemma split_on_line (l : ustr) :
  Forall (fun c => (c =? NL)%N = false) l -> split_on NL l = [l].
Proof.
  induction 1 as [|c l Hc _ IH]; cbn [split_on]; [reflexivity|].
  now rewrite Hc, IH.
Qed.

Lemma split_join (ls : list ustr) :
  ls <> [] ->
  Forall (Forall (fun c => (c =? NL)%N = false)) ls ->
  split_on NL (join [NL] ls) = ls.
Proof.
  induction ls as [|l ls IH]; intros Hne Hl; [congruence|].
  inversion Hl as [|? ? H1 H2]; subst.
  destruct ls as [|l2 ls].
  - cbn [join]. now apply split_on_line.
  - rewrite join_cons by discriminate. cbn [app].
    rewrite split_on_app_line by assumption. f_equal.
    apply IH; [discriminate|assumption].
Qed.

Lemma split_on_lines (s : ustr) :
  Forall (Forall (fun c => (c =? NL)%N = false)) (split_on NL s).
Proof.
  induction s as [|c t IH]; cbn [split_on]; [repeat constructor|].
  destruct (c =? NL)%N eqn:Ec; [constructor; [constructor|assumption]|].
  destruct (split_on NL t) as [|l ls]; [repeat constructor; assumption|].
  inversion IH; subst. constructor; [constructor|]; assumption.
Qed.

(* ================================================================= *)
(** ** Repeated headings: [remove_duplicate_headings] *)

Lemma dedup_headings_idem (ls : list ustr) :
  forall h, dedup_headings (dedup_headings ls h) h = dedup_headings ls h.
Proof.
  induction ls as [|line rest IH]; intros h; [reflexivity|].
  cbn [dedup_headings].
  destruct (starts_with (U "###") (strip line) || starts_with (U "##") (strip line))
           eqn:Eh.
  - destruct h as [h|].
    + destruct (ustr_eqb _ h) eqn:Eq; [apply IH|].
      cbn [dedup_headings]. rewrite Eh, Eq. f_equal. apply IH.
    + cbn [dedup_headings]. rewrite Eh. f_equal. apply IH.
  - cbn [dedup_headings]. rewrite Eh. f_equal. apply IH.
Qed.

Lemma dedup_headings_forall (P : ustr -> Prop) (ls : list ustr) :
  forall h, Forall P ls -> Forall P (dedup_headings ls h).
Proof.
  induction ls as [|line rest IH]; intros h Hl; [constructor|].
  inversion Hl; subst. cbn [dedup_headings].
  destruct (_ || _).
  - destruct h as [h|]; [destruct (ustr_eqb _ h)|];
      try (constructor; [assumption|]); now apply IH.
  - constructor; [assumption|]. now apply IH.
Qed.

Lemma dedup_headings_body (ls : list ustr) :
  forall h, filter (fun l => negb (is_heading_line l)) (dedup_headings ls h)
            = filter (fun l => negb (is_heading_line l)) ls.
Proof.
  induction ls as [|line rest IH]; intros h; [reflexivity|].
  cbn [dedup_headings filter]. unfold is_heading_line at 2.
  destruct (starts_with (U "###") (strip line) || starts_with (U "##") (strip line))
           eqn:Eh; cbn [negb].
  - destruct h as [h|]; [destruct (ustr_eqb _ h)|]; cbn [filter];
      unfold is_heading_line at 1; rewrite ?Eh; cbn [negb]; apply IH.
  - cbn [filter]. unfold is_heading_line at 1. rewrite Eh. cbn [negb].
    f_equal. apply IH.
Qed.

Lemma dedup_headings_lines (text : ustr) :
  split_on NL (remove_duplicate_headings text)
  = dedup_headings (split_on NL text) None.
Proof.
  unfold remove_duplicate_headings. apply split_join.
  - destruct (split_on_cons NL text) as (l & ls & ->). cbn [dedup_headings].
    destruct (_ || _); discriminate.
  - apply dedup_headings_forall. apply split_on_lines.
Qed.

(** X12. Removing repeated headings a second time changes nothing, and
    it only ever removes heading lines: the other lines are kept, in
    order. *)
Theorem remove_duplicate_headings_stable (text : ustr) :
  remove_duplicate_headings (remove_duplicate_headings text)
  = remove_duplicate_headings text
  /\ filter (fun l => negb (is_heading_line l))
            (split_on NL (remove_duplicate_headings text))
     = filter (fun l => negb (is_heading_line l)) (split_on NL text).
Proof.
  split.
  - unfold remove_duplicate_headings at 1. rewrite dedup_headings_lines.
    rewrite dedup_headings_idem. reflexivity.
  - rewrite dedup_headings_lines. apply dedup_headings_body.
Qed.

(* ================================================================= *)
(** ** Retrieval with retries *)


Section BackoffFacts.

Variable lower : ustr -> ustr.
Variable get : nat -> attempt.

Lemma pauses_S (base : Z) (k : nat) :
  pauses base (S k) = pauses base k ++ [(base ^ Z.of_nat k)%Z].
Proof. unfold pauses. rewrite seq_S, map_app. reflexivity. Qed.

Lemma backoff_loop_success (retries : nat) (base : Z) (k : nat) (r : response) :
  k <= retries ->
  (forall i, i < k -> accept lower (get i) = None) ->
  accept lower (get k) = Some r ->
  forall todo i, i <= k -> todo + i = S retries ->
    backoff_loop lower get retries base todo i (pauses base i)
    = (Some r, pauses base k).
Proof.
  intros Hk Hfail Hok. induction todo as [|todo IH]; intros i Hi Ht; [lia|].
  cbn [backoff_loop]. destruct (Nat.eq_dec i k) as [->|Hne].
  - now rewrite Hok.
  - rewrite Hfail by lia. replace (i =? retries) with false
      by (symmetry; apply Nat.eqb_neq; lia).
    rewrite <- pauses_S. apply IH; lia.
Qed.

Lemma backoff_loop_failure (retries : nat) (base : Z) :
  (forall i, i <= retries -> accept lower (get i) = None) ->
  forall todo i, i <= retries -> todo + i = S retries ->
    backoff_loop lower get retries base todo i (pauses base i)
    = (None, pauses base retries).
Proof.
  intros Hfail. induction todo as [|todo IH]; intros i Hi Ht; [lia|].
  cbn [backoff_loop]. rewrite Hfail by lia.
  destruct (i =? retries) eqn:E.
  - apply Nat.eqb_eq in E. now subst i.
  - apply Nat.eqb_neq in E. rewrite <- pauses_S. apply IH; lia.
Qed.

Lemma total_app (a b : list Z) : total (a ++ b) = (total a + total b)%Z.
Proof.
  unfold total. induction a as [|x a IH]; cbn [app fold_right]; [reflexivity|].
  rewrite IH. apply Z.add_assoc.
Qed.

Lemma total_pauses_2 (k : nat) : total (pauses 2 k) = (2 ^ Z.of_nat k - 1)%Z.
Proof.
  induction k as [|k IH]; [reflexivity|].
  rewrite pauses_S, total_app, IH. cbn [total fold_right].
  rewrite Nat2Z.inj_succ, Z.pow_succ_r by lia. lia.
Qed.

(** X18. The first acceptable response within [retries + 1] calls is
    returned, after one sleep per failed call before it, of
    [backoff_base ** i] seconds after call [i]. *)
Theorem backoff_returns_first_success
        (retries : nat) (backoff_base : Z) (k : nat) (r : response) :
  k <= retries ->
  (forall i, i < k -> accept lower (get i) = None) ->
  accept lower (get k) = Some r ->
  http_get_with_backoff lower get retries backoff_base
  = (Some r, pauses backoff_base k).
Proof.
  intros Hk Hf Hok. unfold http_get_with_backoff.
  apply (@backoff_loop_success retries backoff_base k r Hk Hf Hok (S retries) 0); lia.
Qed.

(** X19. When all [retries + 1] calls fail the function raises, having
    slept [retries] times and not after the last call; with base 2 that
    is [2 ** retries - 1] seconds in all. *)
Theorem backoff_gives_up (retries : nat) (backoff_base : Z) :
  (forall i, i <= retries -> accept lower (get i) = None) ->
  http_get_with_backoff lower get retries backoff_base
  = (None, pauses backoff_base retries)
  /\ length (pauses backoff_base retries) = retries
  /\ total (pauses 2 retries) = (2 ^ Z.of_nat retries - 1)%Z.
Proof.
  intros Hf. split; [|split].
  - unfold http_get_with_backoff.
    apply (@backoff_loop_failure retries backoff_base Hf (S retries) 0); lia.
  - unfold pauses. now rewrite length_map, length_seq.
  - apply total_pauses_2.
Qed.

End BackoffFacts.

Lemma backoff_returns_first_success_witness :
  http_get_with_backoff (map lower_ascii) busy_then_ok 3 2
  = (Some (Response 200 (U "<p>ok</p>")), [1; 2]%Z).
Proof.
  apply (@backoff_returns_first_success (map lower_ascii) busy_then_ok 3 2 2
                                        (Response 200 (U "<p>ok</p>"))).
  - lia.
  - intros i Hi. destruct i as [|[|i]]; [reflexivity|reflexivity|lia].
  - vm_compute. reflexivity.
Defined.

Lemma backoff_gives_up_witness :
  http_get_with_backoff (map lower_ascii) always_busy 3 2 = (None, [1; 2; 4]%Z).
Proof.
  apply (proj1 (@backoff_gives_up (map lower_ascii) always_busy 3 2
                                  (fun i _ => eq_refl))).
Defined.

(* ================================================================= *)
(** ** Target lists *)

Lemma lstrip_idem (s : ustr) : lstrip (lstrip s) = lstrip s.
Proof.
  destruct (lstrip_shape s) as [->|(c & t & -> & Hc)]; [reflexivity|].
  cbn [lstrip]. now rewrite Hc.
Qed.

Lemma rstrip_idem (s : ustr) : rstrip (rstrip s) = rstrip s.
Proof. unfold rstrip. now rewrite rev_involutive, lstrip_idem. Qed.

Lemma strip_idem (s : ustr) : strip (strip s) = strip s.
Proof.
  unfold strip. destruct (lstrip_shape s) as [E|(c & t & E & Hc)]; rewrite E.
  - reflexivity.
  - destruct (@rstrip_head c t Hc) as [t' E'].
    assert (El : lstrip (rstrip (c :: t)) = rstrip (c :: t)).
    { rewrite E'. cbn [lstrip]. now rewrite Hc. }
    rewrite El. apply rstrip_idem.
Qed.

Lemma text_target_strip (line : ustr) :
  text_target (strip line) = text_target line.
Proof. unfold text_target. now rewrite strip_idem. Qed.

Lemma text_target_raw (line raw : ustr) (is_url : bool) :
  text_target line = Some (raw, is_url) ->
  raw = strip line /\ raw <> [] /\ starts_with (U "#") raw = false
  /\ is_url = starts_with (U "http://") raw || starts_with (U "https://") raw.
Proof.
  unfold text_target. destruct (nonempty (strip line)) eqn:En; [|discriminate].
  cbn [negb orb]. destruct (starts_with (U "#") (strip line)) eqn:Eh; [discriminate|].
  assert (Hne : strip line <> []).
  { intros E. apply nonempty_spec in E. congruence. }
  destruct (_ || _) eqn:Eu; intros [= <- <-]; repeat split; auto.
Qed.

(** X20. Every target read from a text file is a stripped, non-empty
    line that is no comment, marked as a URL exactly when it starts with
    [http://] or [https://]; there are no more targets than lines; and
    reading the targets again as lines gives the same targets. *)
Theorem text_targets_round_trip (lines : list ustr) :
  Forall (fun t => strip (fst t) = fst t /\ fst t <> []
                   /\ starts_with (U "#") (fst t) = false
                   /\ snd t = starts_with (U "http://") (fst t)
                              || starts_with (U "https://") (fst t))
         (text_targets lines)
  /\ text_targets (map fst (text_targets lines)) = text_targets lines
  /\ length (text_targets lines) <= length lines.
Proof.
  unfold text_targets. induction lines as [|line rest (IH1 & IH2 & IH3)];
    [repeat split; constructor|].
  cbn [flat_map]. destruct (text_target line) as [[raw u]|] eqn:E.
  - destruct (text_target_raw _ E) as (Hr & Hne & Hh & Hu).
    cbn [app map flat_map fst length]. split; [|split].
    + constructor; [|exact IH1]. cbn [fst snd]. rewrite Hr at 1.
      rewrite strip_idem. auto.
    + rewrite Hr, text_target_strip, E, <- Hr. cbn [app]. f_equal. exact IH2.
    + lia.
  - cbn [app length]. split; [exact IH1|]. split; [exact IH2|lia].
Qed.

(* ================================================================= *)
(** ** Blank lines among the collected lines *)


Section Spacing.

Lemma spaced_weaken (b : bool) (ls : list ustr) :
  spaced true ls = true -> spaced b ls = true.
Proof.
  destruct ls as [|l rest]; [reflexivity|]. cbn [spaced].
  destruct (nonempty l); [trivial|discriminate].
Qed.

Lemma spaced_app (ls new : list ustr) :
  forall b, spaced b ls = true -> spaced true new = true ->
            spaced b (ls ++ new) = true.
Proof.
  induction ls as [|l rest IH]; intros b Hl Hn; cbn [app].
  - now apply spaced_weaken.
  - cbn [spaced] in *. destruct (nonempty l).
    + now apply IH.
    + apply andb_true_iff in Hl as [Hb Hl]. rewrite Hb. cbn [andb]. now apply IH.
Qed.

Lemma last_line_cons (l : ustr) (rest : list ustr) :
  rest <> [] -> last_line_nonblank (l :: rest) = last_line_nonblank rest.
Proof.
  intros H. unfold last_line_nonblank. cbn [rev].
  destruct (rev rest) as [|x r] eqn:E; [|reflexivity].
  apply (f_equal (@rev ustr)) in E. rewrite rev_involutive in E. contradiction.
Qed.

Lemma spaced_blank (ls : list ustr) :
  forall b, spaced b ls = true -> last_line_nonblank ls = true ->
            spaced b (ls ++ [[]]) = true.
Proof.
  induction ls as [|l rest IH]; intros b Hl Hlast; [discriminate|].
  destruct rest as [|l2 rest].
  - unfold last_line_nonblank in Hlast. cbn [rev app] in Hlast.
    cbn [app spaced]. rewrite Hlast. reflexivity.
  - rewrite last_line_cons in Hlast by discriminate.
    cbn [app]. cbn [spaced] in Hl. change (spaced b (l :: (l2 :: rest) ++ [[]]) = true).
    cbn [spaced]. destruct (nonempty l).
    + now apply IH.
    + apply andb_true_iff in Hl as [Hb Hl]. rewrite Hb. cbn [andb]. now apply IH.
Qed.

Lemma spaced_full (new : list ustr) (b : bool) :
  Forall (fun l => nonempty l = true) new -> spaced b new = true.
Proof.
  intros H. revert b. induction H as [|l rest Hl _ IH]; intros b; [reflexivity|].
  cbn [spaced]. rewrite Hl. apply IH.
Qed.

Lemma last_line_last (ls : list ustr) (x : ustr) :
  last_line_nonblank (ls ++ [x]) = nonempty x.
Proof. unfold last_line_nonblank. now rewrite rev_app_distr. Qed.

(** Adding a title line, after a blank line when the last line is not
    one. *)
Lemma spaced_title (ls : list ustr) (x : ustr) :
  spaced true ls = true -> nonempty x = true ->
  spaced true ((if last_line_nonblank ls then ls ++ [[]] else ls) ++ [x]) = true.
Proof.
  intros Hl Hx. apply spaced_app.
  - destruct (last_line_nonblank ls) eqn:E; [|assumption]. now apply spaced_blank.
  - cbn [spaced]. now rewrite Hx.
Qed.

Lemma nonempty_app_l (a b : ustr) : a <> [] -> nonempty (a ++ b) = true.
Proof. intros H. apply nonempty_true. destruct a; [contradiction|discriminate]. Qed.

Lemma BULLET_line (x : ustr) : nonempty (BULLET ++ x) = true.
Proof. apply nonempty_app_l. discriminate. Qed.

Lemma H2_line (x : ustr) : nonempty (H2 ++ x) = true.
Proof. apply nonempty_app_l. vm_compute. discriminate. Qed.

Lemma H3_line (x : ustr) : nonempty (H3 ++ x) = true.
Proof. apply nonempty_app_l. vm_compute. discriminate. Qed.

Lemma add_title_spaced (w : walk) (title prefix : ustr) :
  spaced true (lines w) = true -> prefix <> [] ->
  spaced true (lines (fst (add_title_if_new w title prefix))) = true
  /\ (snd (add_title_if_new w title prefix) = true ->
      last_line_nonblank (lines (fst (add_title_if_new w title prefix))) = true).
Proof.
  intros Hw Hp. unfold add_title_if_new.
  destruct (negb (nonempty title)); [split; [assumption|discriminate]|].
  destruct (existsb _ _); [split; [assumption|discriminate]|].
  cbn [fst snd lines].
  assert (Hx : nonempty (prefix ++ title) = true) by now apply nonempty_app_l.
  split.
  - now apply spaced_title.
  - intros _. now rewrite last_line_last.
Qed.

(** [process_multicol_table] *)
Lemma multicol_title_spaced (ls : list ustr) (x : ustr) :
  spaced true ls = true -> nonempty x = true -> spaced true (multicol_title ls x) = true.
Proof. apply spaced_title. Qed.

Lemma fold_left_inv {A B} (P : A -> Prop) (f : A -> B -> A) (l : list B) :
  (forall a x, P a -> P (f a x)) -> forall a, P a -> P (fold_left f l a).
Proof.
  intros Hf. induction l as [|x l IH]; intros a Ha; [exact Ha|].
  cbn [fold_left]. apply IH. now apply Hf.
Qed.

Lemma multicol_element_spaced (sq : ustr -> ustr) (ls : list ustr) (element : node) :
  spaced true ls = true -> spaced true (multicol_element sq ls element) = true.
Proof.
  intros Hl. unfold multicol_element.
  destruct (name_in _ element).
  - destruct (nonempty (sq (smart_text element))) eqn:E; [|assumption].
    now apply multicol_title_spaced.
  - destruct (has_name "dl" element).
    + apply (@fold_left_inv _ _ (fun ls => spaced true ls = true)); [|assumption].
      intros a x Ha. destruct (nonempty _); [|assumption].
      apply multicol_title_spaced; [assumption|apply H3_line].
    + apply (@fold_left_inv _ _ (fun ls => spaced true ls = true)); [|assumption].
      intros a x Ha. destruct (nonempty _); [|assumption].
      apply spaced_app; [assumption|]. cbn [spaced]. now rewrite BULLET_line.
Qed.

Lemma multicol_spaced (table : node) (sq : ustr -> ustr) :
  spaced true (process_multicol_table table sq) = true.
Proof.
  unfold process_multicol_table.
  apply (@fold_left_inv _ _ (fun ls => spaced true ls = true)); [|reflexivity].
  intros a td Ha.
  apply (@fold_left_inv _ _ (fun ls => spaced true ls = true)); [|assumption].
  intros a' x Ha'. now apply multicol_element_spaced.
Qed.

(** [table_to_lines] *)
Lemma row_lines_bullets (rows : list (list ustr)) :
  Forall (fun l => starts_with BULLET l = true) (row_lines rows)
  /\ length (row_lines rows) <= length rows.
Proof.
  unfold row_lines. induction rows as [|row rows (IH1 & IH2)];
    [split; [apply Forall_nil|cbn [flat_map length]; lia]|].
  cbn [flat_map]. destruct (blank (join SEP row)); cbn [app length].
  - split; [assumption|lia].
  - split; [|lia]. constructor; [|assumption]. reflexivity.
Qed.

Lemma process_rows_bound (trs : list node) :
  forall spans rows,
    exists rows', process_rows spans trs rows = Done rows'
                  /\ length rows' <= length rows + length trs.
Proof.
  induction trs as [|tr rest IH]; intros spans rows; cbn [process_rows].
  - exists rows. split; [reflexivity|lia].
  - destruct (process_tr_total spans tr) as (b & _ & ->). cbn [bind].
    destruct (IH (snd b) (if existsb (fun col => negb (blank col))
                                     (pop_blank (map or_empty (fst b)))
                          then rows ++ [pop_blank (map or_empty (fst b))]
                          else rows)) as (rows' & -> & Hlen).
    exists rows'. split; [reflexivity|].
    destruct (existsb _ _); rewrite ?length_app in Hlen; cbn [length] in *; lia.
Qed.

Lemma starts_nonempty (p l : ustr) : p <> [] -> starts_with p l = true -> nonempty l = true.
Proof.
  intros Hp H. apply nonempty_true. intros ->. destruct p; [contradiction|discriminate].
Qed.

Lemma caption_lines_full (sq : ustr -> ustr) (table : node) :
  Forall (fun l => nonempty l = true) (caption_lines sq table)
  /\ length (caption_lines sq table) <= 1.
Proof.
  unfold caption_lines. destruct (find_first "caption" table); [|split; [constructor|cbn; lia]].
  destruct (nonempty _) eqn:E; split; cbn [length]; try lia; repeat constructor.
  exact E.
Qed.

Lemma table_lines_bulleted (table : node) (sq : ustr -> ustr) :
  exists ls,
    table_to_lines table sq = Done (caption_lines sq table ++ ls)
    /\ Forall (fun l => starts_with BULLET l = true) ls
    /\ length ls <= length (table_rows table)
    /\ Forall (fun l => l <> []) (caption_lines sq table ++ ls).
Proof.
  unfold table_to_lines.
  destruct (@process_rows_bound (table_rows table) [] []) as (rows & -> & Hlen).
  cbn [bind]. destruct (row_lines_bullets rows) as (Hb & Hl).
  exists (row_lines rows). split; [reflexivity|]. split; [assumption|].
  split; [cbn [length] in Hlen; lia|].
  apply Forall_app. split.
  - destruct (caption_lines_full sq table) as (Hc & _).
    eapply Forall_impl; [|exact Hc]. intros l H. now apply nonempty_true.
  - eapply Forall_impl; [|exact Hb]. intros l H. apply nonempty_true.
    apply (@starts_nonempty BULLET l); [discriminate|assumption].
Qed.

(** X6. Flattening a table always returns: the caption line, if any,
    followed by at most one line per row of the table, each starting with
    the bullet; no line is empty. *)
Theorem table_lines_shape (table : node) (sq : ustr -> ustr) :
  exists ls,
    table_to_lines table sq = Done (caption_lines sq table ++ ls)
    /\ Forall (fun l => starts_with BULLET l = true) ls
    /\ length ls <= length (table_rows table)
    /\ Forall (fun l => l <> []) (caption_lines sq table ++ ls).
Proof. apply table_lines_bulleted. Qed.

Lemma table_lines_full (table : node) (sq : ustr -> ustr) :
  exists ls, table_to_lines table sq = Done ls
             /\ Forall (fun l => nonempty l = true) ls.
Proof.
  destruct (table_lines_bulleted table sq) as (ls & E & _ & _ & H).
  eexists. split; [exact E|]. eapply Forall_impl; [|exact H].
  intros l Hl. now apply nonempty_true.
Qed.

End Spacing.


Section WalkerSpacing.

Lemma sub_loop_nonempty (r : re) (f : mstate -> ustr) :
  (forall b a s', match_at r b a = Some s' -> f s' <> []) ->
  forall n b a, a <> [] -> sub_loop (S n) r f b a <> [].
Proof.
  intros Hf n b a Ha. cbn [sub_loop].
  destruct (match_at r b a) as [s'|] eqn:E.
  - apply Hf in E. destruct (f s') as [|x t]; [contradiction|].
    destruct (_ <? _); discriminate.
  - destruct a; [contradiction|discriminate].
Qed.

Lemma fill_repl_nonempty (el : node) (after : list node) (b a : ustr) (s' : mstate) :
  match_at _MISSING_AFTER_LABEL b a = Some s' -> fill_repl el after s' <> [].
Proof.
  intros E. change _MISSING_AFTER_LABEL with (missing_after LABELS) in E.
  apply missing_after_match in E. destruct E as (label & _ & _ & H1 & H0).
  unfold fill_repl, group_or_empty. rewrite H1, H0.
  destruct (match _collect_value_after_label el after label 120 with
            | Some v => Some v
            | None => _collect_value_after_marker el after (label ++ [COLON_FULL]) 120
            end); destruct label; discriminate.
Qed.

Lemma fill_labels_nonempty (el : node) (after : list node) (txt : ustr) :
  nonempty txt = true -> nonempty (fill_labels_if_missing el after txt) = true.
Proof.
  intros H. apply nonempty_true in H. apply nonempty_true.
  unfold fill_labels_if_missing, sub_fn. apply sub_loop_nonempty; [|assumption].
  intros b a s'. apply fill_repl_nonempty.
Qed.

Lemma append_lines_spaced (w : walk) (new : list ustr) :
  spaced true (lines w) = true ->
  Forall (fun l => nonempty l = true) new ->
  spaced true (lines (append_lines w new)) = true.
Proof.
  intros Hw Hn. cbn [append_lines lines]. apply spaced_app; [assumption|].
  now apply spaced_full.
Qed.

Lemma flat_map_full {A} (f : A -> list ustr) (l : list A) :
  (forall x, Forall (fun l => nonempty l = true) (f x)) ->
  Forall (fun l => nonempty l = true) (flat_map f l).
Proof.
  intros Hf. induction l as [|x l IH]; cbn [flat_map]; [constructor|].
  apply Forall_app. split; [apply Hf|assumption].
Qed.

Lemma walk_step_spaced (exclude : list ustr) (w : walk) (c : ctx_node) :
  spaced true (lines w) = true ->
  exists w', walk_step exclude w c = Done w' /\ spaced true (lines w') = true.
Proof.
  intros Hw. unfold walk_step.
  destruct (has_name "h2" (cn_node c)).
  { destruct (existsb _ exclude); [eexists; split; [reflexivity|exact Hw]|].
    destruct (@add_title_spaced (Walk (lines w) false (processed_titles w))
                                (norm_title (smart_text (cn_node c))) H2 Hw)
      as (H1 & Hlast); [vm_compute; discriminate|].
    destruct (add_title_if_new _ _ H2) as [w1 added]. cbn [fst snd] in *.
    eexists. split; [reflexivity|]. destruct added; [|exact H1].
    cbn [append_lines lines]. apply spaced_blank; [assumption|]. now apply Hlast. }
  destruct (has_name "h3" (cn_node c)).
  { destruct (skipping w); [eexists; split; [reflexivity|exact Hw]|].
    destruct (in_table_of_class "multicol" c); [eexists; split; [reflexivity|exact Hw]|].
    eexists. split; [reflexivity|].
    apply add_title_spaced; [assumption|vm_compute; discriminate]. }
  destruct (skipping w); [eexists; split; [reflexivity|exact Hw]|].
  destruct (has_name "p" (cn_node c)).
  { destruct (nonempty (squeeze (smart_text (cn_node c)))) eqn:En;
      [|eexists; split; [reflexivity|exact Hw]].
    destruct (is_likely_title _); eexists; (split; [reflexivity|]);
      apply append_lines_spaced; try assumption; repeat constructor;
      [assumption|now apply fill_labels_nonempty]. }
  destruct (name_in ["ul"; "ol"]%string (cn_node c)).
  { destruct (in_table c); [eexists; split; [reflexivity|exact Hw]|].
    eexists. split; [reflexivity|]. apply append_lines_spaced; [assumption|].
    apply flat_map_full. intros li.
    destruct (nonempty _); [|constructor].
    constructor; [apply BULLET_line|constructor]. }
  destruct (has_name "dl" (cn_node c)).
  { destruct (in_table c); [eexists; split; [reflexivity|exact Hw]|].
    eexists. split; [reflexivity|]. apply append_lines_spaced; [assumption|].
    apply flat_map_full. intros child. destruct (has_name "dt" child).
    - destruct (nonempty _); [|constructor].
      constructor; [apply H3_line|constructor].
    - destruct (find_first "table" child); [constructor|].
      destruct (nonempty _) eqn:E; [|constructor].
      constructor; [exact E|constructor]. }
  destruct (has_name "table" (cn_node c)); [|eexists; split; [reflexivity|exact Hw]].
  destruct (in_table c); [eexists; split; [reflexivity|exact Hw]|].
  destruct (existsb _ SKIP_TABLE_CLASSES); [eexists; split; [reflexivity|exact Hw]|].
  destruct (contains (U "multicol") _).
  - eexists. split; [reflexivity|]. cbn [append_lines lines].
    apply spaced_app; [assumption|apply multicol_spaced].
  - destruct (table_lines_full (cn_node c) squeeze) as (ls & -> & Hls).
    cbn [bind]. eexists. split; [reflexivity|]. now apply append_lines_spaced.
Qed.

Lemma walk_fold_spaced (exclude : list ustr) (els : list ctx_node) :
  forall w, spaced true (lines w) = true ->
            exists w', fold_outcome (walk_step exclude) els w = Done w'
                       /\ spaced true (lines w') = true.
Proof.
  induction els as [|c els IH]; intros w Hw; cbn [fold_outcome].
  - now exists w.
  - destruct (@walk_step_spaced exclude w c Hw) as (w1 & -> & H1). cbn [bind].
    now apply IH.
Qed.

End WalkerSpacing.

(** X1. Whenever the walk over the blocks of a page returns, the lines it
    has collected do not start with a blank line and hold no two blank
    lines in a row, whatever the tables hold. *)
Theorem walker_lines_well_spaced (soup : node) (exclude_sections : list ustr)
        (w : walk) :
  walk_elements exclude_sections (elements_of (select_root soup)) = Done w ->
  well_spaced (lines w) = true.
Proof.
  intros Hw.
  destruct (@walk_fold_spaced exclude_sections (elements_of (select_root soup))
                              (Walk [] false []) eq_refl) as (w' & E & H).
  unfold walk_elements in Hw. rewrite E in Hw. injection Hw as <-. exact H.
Qed.

Lemma walker_lines_well_spaced_witness :
  exists w,
    walk_elements DEFAULT_EXCLUDE (elements_of (select_root article)) = Done w
    /\ well_spaced (lines w) = true.
Proof.
  eexists. split; [vm_compute; reflexivity|].
  apply (@walker_lines_well_spaced article DEFAULT_EXCLUDE).
  vm_compute. reflexivity.
Defined.

(* ================================================================= *)
(** ** Label/value repair: when nothing is found, and what is found *)


Section Degrade.

Lemma sub_fn_whole_match (labels : list ustr) (f : mstate -> ustr) (text : ustr) :
  (forall b a s', match_at (missing_after labels) b a = Some s' ->
                  f s' = group_or_empty 0 s') ->
  sub_fn (missing_after labels) f text = text.
Proof.
  intros Hf. unfold sub_fn.
  apply (@sub_loop_id (missing_after labels) f (fun _ => True)); [trivial| |trivial].
  intros b a s' _ E. pose proof (Hf b a s' E) as Hfs.
  apply missing_after_match in E. destruct E as (label & _ & Ea & _ & H0).
  exists (label ++ [COLON_FULL]). split.
  - rewrite <- app_assoc. exact Ea.
  - rewrite Hfs. unfold group_or_empty. now rewrite H0.
Qed.

End Degrade.

(** X9. When neither scan finds a value for any label, label repair
    returns the paragraph text as it is. *)
Theorem repair_degrades_silently (el : node) (after : list node) (txt : ustr) :
  (forall label, In label LABELS ->
                 _collect_value_after_label el after label 120 = None
                 /\ _collect_value_after_marker el after (label ++ [COLON_FULL]) 120
                    = None) ->
  fill_labels_if_missing el after txt = txt.
Proof.
  intros H. unfold fill_labels_if_missing.
  change _MISSING_AFTER_LABEL with (missing_after LABELS).
  apply sub_fn_whole_match. intros b a s' E.
  apply missing_after_match in E. destruct E as (label & Hin & _ & H1 & _).
  unfold fill_repl. unfold group_or_empty at 1 2. rewrite H1.
  destruct (H label Hin) as (-> & ->). reflexivity.
Qed.

Lemma repair_degrades_silently_witness :
  fill_labels_if_missing unlabelled [] (U "本名：，生於臺北。") = U "本名：，生於臺北。".
Proof.
  apply (@repair_degrades_silently unlabelled [] (U "本名：，生於臺北。")).
  assert (H : forallb (fun label =>
                match _collect_value_after_label unlabelled [] label 120,
                      _collect_value_after_marker unlabelled [] (label ++ [COLON_FULL]) 120
                with
                | None, None => true
                | _, _ => false
                end) LABELS = true) by (vm_compute; reflexivity).
  intros label Hin. rewrite forallb_forall in H. specialize (H label Hin).
  destruct (_collect_value_after_label unlabelled [] label 120); [discriminate|].
  destruct (_collect_value_after_marker unlabelled [] (label ++ [COLON_FULL]) 120);
    [discriminate|]. split; reflexivity.
Defined.

Section DriverRepair.

Variable _fetch_langlink_title : ustr -> ustr -> option ustr.

(** X11. When the inter-language lookup finds nothing, the final repair
    leaves the text as it is. *)
Theorem ensure_labels_without_links (text title : ustr) :
  (forall code, _fetch_langlink_title title code = None) ->
  ensure_labels_after_marker _fetch_langlink_title text title = text.
Proof.
  intros H. unfold ensure_labels_after_marker.
  change _MISSING_AFTER_LABEL with (missing_after LABELS).
  apply sub_fn_whole_match. intros b a s' _. unfold ensure_repl.
  destruct (lang_code _ _) as [code|]; [|reflexivity].
  destruct (nonempty code); [|reflexivity]. now rewrite H.
Qed.

End DriverRepair.

Lemma ensure_labels_without_links_witness :
  ensure_labels_after_marker (fun _ _ => None) (U "英語：，歌手") (U "蔡依林")
  = U "英語：，歌手".
Proof.
  apply (@ensure_labels_without_links (fun _ _ => None) (U "英語：，歌手") (U "蔡依林")).
  intros code. reflexivity.
Defined.

Section Collected.

Lemma until_stop_free (s : ustr) : no_stop (fst (until_stop s)).
Proof.
  induction s as [|ch t IH]; cbn [until_stop]; [constructor|].
  destruct (in_str _STOP_CHARS ch) eqn:E; [constructor|].
  destruct (until_stop t) as [v stop]. cbn [fst] in *. now constructor.
Qed.

Lemma cut_at_stop_free (s : ustr) : no_stop (fst (cut_at_stop s)).
Proof. apply until_stop_free. Qed.

Lemma push_chunk_free (parts : list ustr) (s : ustr) :
  Forall no_stop parts ->
  Forall no_stop (if nonempty (fst (cut_at_stop s))
                  then parts ++ [fst (cut_at_stop s)] else parts).
Proof.
  intros H. destruct (nonempty _); [|assumption].
  apply Forall_app. split; [assumption|]. constructor; [|constructor].
  apply cut_at_stop_free.
Qed.

Lemma label_scan_free (maxlen : nat) (nodes : list node) :
  forall saw parts, Forall no_stop parts ->
                    Forall no_stop (label_scan maxlen nodes saw parts).
Proof.
  induction nodes as [|nd rest IH]; intros saw parts Hp; [exact Hp|].
  destruct nd as [s|k s|name cls attrs kids]; cbn [label_scan].
  - destruct (if saw then Some s else after_colon s) as [s0|]; [|now apply IH].
    pose proof (@push_chunk_free parts s0 Hp) as Hq.
    destruct (cut_at_stop s0) as [chunk stop]. cbn [fst] in Hq.
    destruct stop; [assumption|]. destruct (_ <? _); [assumption|now apply IH].
  - destruct (if saw then Some s else after_colon s) as [s0|]; [|now apply IH].
    pose proof (@push_chunk_free parts s0 Hp) as Hq.
    destruct (cut_at_stop s0) as [chunk stop]. cbn [fst] in Hq.
    destruct stop; [assumption|]. destruct (_ <? _); [assumption|now apply IH].
  - destruct (String.eqb name "br"); [assumption|].
    destruct (_ <? _); [assumption|now apply IH].
Qed.

Lemma marker_scan_free (maxlen : nat) (nodes : list node) :
  forall parts, Forall no_stop parts ->
                Forall no_stop (marker_scan maxlen nodes parts).
Proof.
  induction nodes as [|nd rest IH]; intros parts Hp; [exact Hp|].
  destruct nd as [s|k s|name cls attrs kids]; cbn [marker_scan].
  - pose proof (@push_chunk_free parts s Hp) as Hq.
    destruct (cut_at_stop s) as [chunk stop]. cbn [fst] in Hq.
    destruct stop; [assumption|]. destruct (_ <? _); [assumption|now apply IH].
  - pose proof (@push_chunk_free parts s Hp) as Hq.
    destruct (cut_at_stop s) as [chunk stop]. cbn [fst] in Hq.
    destruct stop; [assumption|]. destruct (_ <? _); [assumption|now apply IH].
  - destruct (_ || _); [now apply IH|].
    destruct (_ <? _); [assumption|now apply IH].
Qed.

Lemma join_free (parts : list ustr) :
  Forall no_stop parts -> no_stop (join [SP] parts).
Proof.
  induction 1 as [|p rest Hp _ IH]; [constructor|].
  destruct rest as [|q rest]; [exact Hp|].
  change (join [SP] (p :: q :: rest)) with (p ++ [SP] ++ join [SP] (q :: rest)).
  apply Forall_app. split; [assumption|]. apply Forall_app. split; [|assumption].
  constructor; [reflexivity|constructor].
Qed.

Lemma join_parts_free (parts : list ustr) :
  Forall no_stop parts -> no_stop (join_parts parts).
Proof.
  intros H. apply join_free. apply Forall_forall. intros p Hp.
  apply filter_In in Hp. destruct Hp as [Hp _].
  rewrite Forall_forall in H. now apply H.
Qed.

Lemma lstrip_forall (Q : N -> Prop) (s : ustr) : Forall Q s -> Forall Q (lstrip s).
Proof.
  induction 1 as [|c t Hc Ht IH]; [constructor|]. cbn [lstrip].
  destruct (is_space c); [assumption|now constructor].
Qed.

Lemma strip_forall (Q : N -> Prop) (s : ustr) : Forall Q s -> Forall Q (strip s).
Proof.
  intros H. unfold strip, rstrip. apply Forall_rev. apply lstrip_forall.
  apply Forall_rev. now apply lstrip_forall.
Qed.

Lemma strip_sp_forall (Q : N -> Prop) (s : ustr) : Forall Q s -> Forall Q (strip_sp s).
Proof.
  assert (Hd : forall l, Forall Q l ->
                         Forall Q ((fix drop (l : ustr) : ustr :=
                                      match l with
                                      | c :: t => if (c =? SP)%N then drop t else l
                                      | [] => []
                                      end) l)).
  { induction 1 as [|c t Hc Ht IH]; [constructor|].
    destruct (c =? SP)%N; [assumption|now constructor]. }
  intros H. unfold strip_sp. apply Forall_rev. apply Hd. apply Forall_rev.
  now apply Hd.
Qed.

Lemma firstn_forall {A} (Q : A -> Prop) (n : nat) (l : list A) :
  Forall Q l -> Forall Q (firstn n l).
Proof.
  intros H. rewrite <- (firstn_skipn n l) in H. apply Forall_app in H. apply H.
Qed.

Lemma cap_value_spec (maxlen : nat) (val v : ustr) :
  cap_value maxlen val = Some v ->
  no_stop val ->
  length v <= maxlen /\ no_stop v /\ (0 < maxlen -> v <> []).
Proof.
  unfold cap_value. destruct (nonempty val) eqn:E; [|discriminate].
  intros [= <-] Hv. split; [|split].
  - rewrite length_firstn. lia.
  - now apply firstn_forall.
  - intros Hm. apply nonempty_true in E. destruct val; [contradiction|].
    destruct maxlen; [lia|discriminate].
Qed.

End Collected.

(** X10. A value found by either scan is at most [maxlen] characters
    long, holds no stop character and, for a positive [maxlen], is not
    empty. *)
Theorem collected_value_bounds (el : node) (after : list node)
        (label marker_text : ustr) (maxlen : nat) (v : ustr) :
  _collect_value_after_label el after label maxlen = Some v
  \/ _collect_value_after_marker el after marker_text maxlen = Some v ->
  length v <= maxlen /\ no_stop v /\ (0 < maxlen -> v <> []).
Proof.
  intros [H|H].
  - unfold _collect_value_after_label in H.
    destruct (find_anchor label (descendants el)) as [rest|]; [|discriminate].
    apply (@cap_value_spec _ _ _ H). apply strip_forall. apply join_parts_free.
    apply label_scan_free. constructor.
  - unfold _collect_value_after_marker in H.
    destruct (find_needle marker_text (descendants el)) as [[needle rest]|];
      [|discriminate].
    assert (Hp : Forall no_stop
                   (if nonempty (fst (if nonempty (split_after marker_text needle)
                                      then cut_at_stop (split_after marker_text needle)
                                      else ([], false)))
                    then [fst (if nonempty (split_after marker_text needle)
                               then cut_at_stop (split_after marker_text needle)
                               else ([], false))]
                    else [])).
    { destruct (nonempty (fst _)); [|constructor]. constructor; [|constructor].
      destruct (nonempty (split_after marker_text needle));
        [apply cut_at_stop_free|constructor]. }
    destruct (if nonempty (split_after marker_text needle)
              then cut_at_stop (split_after marker_text needle)
              else ([], false)) as [chunk stop]. cbn [fst] in Hp.
    destruct stop.
    + apply (@cap_value_spec _ _ _ H). apply strip_forall. now apply join_parts_free.
    + apply (@cap_value_spec _ _ _ H). apply strip_sp_forall. apply join_parts_free.
      now apply marker_scan_free.
Qed.

Lemma collected_value_bounds_witness :
  length MASOU <= 120 /\ no_stop MASOU /\ (0 < 120 -> MASOU <> []).
Proof.
  apply (@collected_value_bounds masou_paragraph [] SCI_NAME [] 120 MASOU).
  left. vm_compute. reflexivity.
Defined.

(* ================================================================= *)
(** ** Runs of a character class *)


Section Runs.

Variable p : N -> bool.

Lemma run_split (s : ustr) : s = take_run p s ++ drop_run p s.
Proof.
  induction s as [|c t IH]; [reflexivity|]. cbn [take_run drop_run].
  destruct (p c); [|reflexivity]. cbn [app]. now f_equal.
Qed.

Lemma run_length (s : ustr) : length s = length (take_run p s) + length (drop_run p s).
Proof. rewrite (run_split s) at 1. apply length_app. Qed.

Lemma take_run_drop (s : ustr) : take_run p (drop_run p s) = [].
Proof.
  induction s as [|c t IH]; [reflexivity|]. cbn [drop_run].
  destruct (p c) eqn:E; [assumption|]. cbn [take_run]. now rewrite E.
Qed.

(** A greedy repetition of a class, followed by nothing that can fail,
    takes the whole run; it fails when the run is shorter than [lo]. *)
Lemma rep_loop_run (g : mstate -> mstate) :
  forall n lo b a cs,
    lo + length a < n ->
    rep_loop (m (Chr p)) true lo None n (MS b a cs) (fun s' => Some (g s'))
    = if lo <=? length (take_run p a)
      then Some (g (MS (rev (take_run p a) ++ b) (drop_run p a) cs))
      else None.
Proof.
  induction n as [|n IH]; intros lo b a cs Hn; [lia|].
  destruct lo as [|lo]; cbn [rep_loop is_zero pred_opt option_map m aft bef caps].
  - destruct a as [|c t]; [reflexivity|]. cbn [take_run drop_run].
    destruct (p c) eqn:Hp; [|reflexivity].
    cbn [aft length]. replace (length t <? S (length t)) with true
      by (symmetry; apply Nat.ltb_lt; lia).
    rewrite IH by (cbn [length] in Hn; lia). cbn [Nat.leb].
    cbn [rev]. rewrite <- app_assoc. reflexivity.
  - destruct a as [|c t]; [reflexivity|]. cbn [take_run drop_run].
    destruct (p c) eqn:Hp; [|reflexivity].
    rewrite IH by (cbn [length] in Hn; lia). cbn [length Nat.leb].
    cbn [rev]. rewrite <- app_assoc. reflexivity.
Qed.

Lemma match_at_run (lo : nat) (b a : ustr) :
  match_at (Rep true lo None (Chr p)) b a
  = if lo <=? length (take_run p a)
    then Some (MS (rev (take_run p a) ++ b) (drop_run p a) [(0, take_run p a)])
    else None.
Proof.
  unfold match_at. cbn [m aft].
  rewrite (@rep_loop_run (set_cap 0 (MS b a []))) by lia.
  destruct (lo <=? _); [|reflexivity]. unfold set_cap. cbn [aft bef caps].
  do 3 f_equal.
  pose proof (@firstn_consumed (take_run p a) (drop_run p a)) as H.
  rewrite <- run_split in H. now rewrite H.
Qed.

End Runs.

(* ================================================================= *)
(** ** Squeezed text and line breaks *)


Section Squeeze.

Let hs := Tidy.re_hspace.
Let one := expand [TLit [SP]].

Lemma sub_loop_nil (n : nat) (r : re) (f : mstate -> ustr) (b : ustr) :
  match_at r b [] = None -> sub_loop n r f b [] = [].
Proof. intros H. destruct n; [reflexivity|]. cbn [sub_loop]. now rewrite H. Qed.

Lemma hspace_nil (b : ustr) : match_at hs b [] = None.
Proof. unfold hs, Tidy.re_hspace, plus. now rewrite match_at_run. Qed.

Lemma hspace_step (n : nat) (b : ustr) (c : N) (t : ustr) :
  sub_loop (S n) hs one b (c :: t)
  = if is_hspace c
    then SP :: sub_loop n hs one (rev (take_run is_hspace (c :: t)) ++ b)
                        (drop_run is_hspace t)
    else c :: sub_loop n hs one (c :: b) t.
Proof.
  cbn [sub_loop]. unfold hs at 1, Tidy.re_hspace, plus. rewrite match_at_run.
  cbn [take_run drop_run]. destruct (is_hspace c) eqn:E; [|reflexivity].
  cbn [length Nat.leb aft bef].
  pose proof (run_length is_hspace t) as Hl.
  replace (length (drop_run is_hspace t) <? S (length t)) with true
    by (symmetry; apply Nat.ltb_lt; lia).
  reflexivity.
Qed.

Lemma single_spaced_start (t : ustr) :
  single_spaced true t = true ->
  take_run is_hspace t = [] /\ drop_run is_hspace t = t.
Proof.
  destruct t as [|c t]; [now split|]. cbn [single_spaced take_run drop_run].
  destruct (is_hspace c); [|now split].
  rewrite andb_false_r. discriminate.
Qed.

Lemma squeezed_single_spaced :
  forall n b a prev,
    length a < n ->
    (prev = true -> take_run is_hspace a = []) ->
    single_spaced prev (sub_loop n hs one b a) = true.
Proof.
  induction n as [|n IH]; intros b a prev Hn Hp; [lia|].
  destruct a as [|c t]; [now rewrite sub_loop_nil by apply hspace_nil|].
  rewrite hspace_step. cbn [length] in Hn. cbn [take_run] in Hp.
  destruct (is_hspace c) eqn:E.
  - destruct prev; [now specialize (Hp eq_refl)|].
    cbn [single_spaced]. change (is_hspace SP) with true. cbv iota.
    rewrite N.eqb_refl. cbn [negb andb]. apply IH.
    + pose proof (run_length is_hspace t). lia.
    + intros _. apply take_run_drop.
  - cbn [single_spaced]. rewrite E. apply IH; [lia|discriminate].
Qed.

Lemma single_spaced_fixed :
  forall n b a prev, single_spaced prev a = true -> sub_loop n hs one b a = a.
Proof.
  induction n as [|n IH]; intros b a prev H; [reflexivity|].
  destruct a as [|c t]; [now rewrite sub_loop_nil by apply hspace_nil|].
  rewrite hspace_step. cbn [single_spaced] in H. destruct (is_hspace c).
  - apply andb_true_iff in H as [H Ht]. apply andb_true_iff in H as [Hc _].
    apply N.eqb_eq in Hc. subst c.
    destruct (single_spaced_start _ Ht) as (_ & ->). f_equal. now apply (IH _ _ true).
  - f_equal. now apply (IH _ _ false).
Qed.

Lemma drop_run_last (p : N -> bool) (a : ustr) (d : N) :
  p d = false -> drop_run p (a ++ [d]) = drop_run p a ++ [d].
Proof.
  intros Hd. induction a as [|c t IH]; cbn [app drop_run]; [now rewrite Hd|].
  destruct (p c); [assumption|reflexivity].
Qed.

Lemma squeezed_last (d : N) :
  is_hspace d = false ->
  forall n b a, length a < n ->
                exists o, sub_loop n hs one b (a ++ [d]) = o ++ [d].
Proof.
  intros Hd. induction n as [|n IH]; intros b a Hn; [lia|].
  destruct a as [|c t]; cbn [app]; rewrite hspace_step.
  - rewrite Hd. rewrite sub_loop_nil by apply hspace_nil. now exists [].
  - cbn [length] in Hn. destruct (is_hspace c).
    + rewrite drop_run_last by assumption.
      destruct (IH (rev (take_run is_hspace (c :: t ++ [d])) ++ b)
                   (drop_run is_hspace t)) as (o & ->).
      * pose proof (run_length is_hspace t). lia.
      * now exists (SP :: o).
    + destruct (IH (c :: b) t) as (o & ->); [lia|]. now exists (c :: o).
Qed.

Lemma not_hspace (c : N) : is_space c = false -> is_hspace c = false.
Proof.
  intros H. destruct (is_hspace c) eqn:E; [|reflexivity].
  apply hspace_is_space in E. congruence.
Qed.

Lemma strip_ends (s : ustr) :
  strip s = [] \/ exists o d, strip s = o ++ [d] /\ is_space d = false.
Proof.
  unfold strip, rstrip. destruct (lstrip_shape (rev (lstrip s))) as [->|(c & t & -> & Hc)].
  - now left.
  - right. exists (rev t), c. split; [reflexivity|assumption].
Qed.

Lemma strip_fixed (c d : N) (t o : ustr) :
  is_space c = false -> is_space d = false -> c :: t = o ++ [d] ->
  strip (c :: t) = c :: t.
Proof.
  intros Hc Hd E. unfold strip. cbn [lstrip]. rewrite Hc. rewrite E.
  unfold rstrip. rewrite rev_app_distr. cbn [rev app lstrip]. rewrite Hd.
  cbn [rev]. now rewrite rev_involutive.
Qed.

Lemma squeeze_stripped (s : ustr) : strip (squeeze s) = squeeze s.
Proof.
  unfold squeeze, sub, sub_fn. fold hs. fold one.
  destruct (strip_shape s) as [->|(c & t & E & Hc)]; [reflexivity|].
  destruct (strip_ends s) as [E'|(o & d & E' & Hd)]; [congruence|].
  destruct (@squeezed_last d (not_hspace _ Hd) (S (length (strip s))) [] o)
    as (o' & Eo).
  { rewrite E', length_app. cbn [length]. lia. }
  rewrite <- E' in Eo. rewrite Eo.
  rewrite E in Eo. rewrite hspace_step in Eo. rewrite (not_hspace _ Hc) in Eo.
  rewrite <- Eo. eapply strip_fixed; [exact Hc|exact Hd|exact Eo].
Qed.

Lemma squeeze_single_spaced (s : ustr) : single_spaced false (squeeze s) = true.
Proof.
  unfold squeeze, sub, sub_fn. fold hs. fold one.
  apply squeezed_single_spaced; [lia|discriminate].
Qed.

End Squeeze.

(** X4. [squeeze] gives text in which every run of blanks, tabs and
    no-break spaces is one space and which neither starts nor ends with
    whitespace; squeezing such text again changes nothing. *)
Theorem squeeze_normal_form (s : ustr) :
  single_spaced false (squeeze s) = true
  /\ strip (squeeze s) = squeeze s
  /\ squeeze (squeeze s) = squeeze s.
Proof.
  split; [apply squeeze_single_spaced|]. split; [apply squeeze_stripped|].
  unfold squeeze at 1. rewrite squeeze_stripped. unfold sub, sub_fn.
  apply (@single_spaced_fixed _ _ _ false). apply squeeze_single_spaced.
Qed.

Section Breaks.

Let nl : N -> bool := N.eqb NL.
Let two := expand [TLit [NL; NL]].

Lemma breaks_step (n : nat) (b : ustr) (a : ustr) :
  sub_loop (S n) Tidy.re_blank_lines two b a
  = if 3 <=? length (take_run nl a)
    then NL :: NL :: sub_loop n Tidy.re_blank_lines two
                              (rev (take_run nl a) ++ b) (drop_run nl a)
    else match a with
         | [] => []
         | c :: t => c :: sub_loop n Tidy.re_blank_lines two (c :: b) t
         end.
Proof.
  cbn [sub_loop]. unfold Tidy.re_blank_lines at 1, at_least, chr.
  fold nl. rewrite match_at_run. destruct (3 <=? length (take_run nl a)) eqn:E;
    [|reflexivity].
  apply Nat.leb_le in E. cbn [aft bef]. pose proof (run_length nl a) as Hl.
  replace (length (drop_run nl a) <? length a) with true
    by (symmetry; apply Nat.ltb_lt; lia).
  reflexivity.
Qed.

Lemma breaks_short :
  forall n b a k,
    length a < n ->
    k = 0 \/ k + length (take_run nl a) <= 2 ->
    short_breaks k (sub_loop n Tidy.re_blank_lines two b a) = true.
Proof.
  induction n as [|n IH]; intros b a k Hn Hk; [lia|]. rewrite breaks_step.
  destruct (3 <=? length (take_run nl a)) eqn:E.
  - apply Nat.leb_le in E. assert (k = 0) by lia. subst k.
    cbn [short_breaks]. rewrite N.eqb_refl. cbn [Nat.ltb Nat.leb andb].
    apply IH.
    + pose proof (run_length nl a). lia.
    + right. rewrite take_run_drop. cbn [length]. lia.
  - apply Nat.leb_gt in E. destruct a as [|c t]; [reflexivity|].
    cbn [length] in Hn. cbn [take_run] in E, Hk. cbn [short_breaks].
    unfold nl in E, Hk. rewrite (N.eqb_sym c NL).
    destruct (NL =? c)%N eqn:Ec; fold nl in E, Hk.
    + cbn [length] in E, Hk.
      replace (k <? 2) with true by (symmetry; apply Nat.ltb_lt; lia).
      cbn [andb]. apply IH; [lia|]. right. lia.
    + apply IH; [lia|]. now left.
Qed.

End Breaks.

Lemma zh_tidy_breaks (text : ustr) : short_breaks 0 (zh_tidy text) = true.
Proof.
  unfold zh_tidy, Tidy.tidy_spacing. cbv zeta. unfold sub at 1, sub_fn.
  apply breaks_short; [lia|now left].
Qed.

(** X3. The normalizer never leaves three line breaks in a row. *)
Theorem zh_tidy_short_breaks (text : ustr) : short_breaks 0 (zh_tidy text) = true.
Proof. apply zh_tidy_breaks. Qed.

(* ================================================================= *)
(** ** The driver and the files it finds *)


Section DriverFiles.

Variable html : Type.
Variables fetch_html_action fetch_html_rest : ustr -> option (html * ustr).
Variable detect_redirect_from_html : html -> option ustr.
Variable parse : html -> node.
Variable _fetch_langlink_title : ustr -> ustr -> option ustr.
Variable path_exists : ustr -> bool.
Variable url_to_title : ustr -> ustr.

Let run := process_one fetch_html_action fetch_html_rest
                       detect_redirect_from_html parse _fetch_langlink_title
                       path_exists url_to_title.

Lemma process_one_files (raw : ustr) (kind_is_url : bool)
        (exclude_sections : list ustr) (force : bool) (rep : report) :
  run raw kind_is_url exclude_sections force = Ok rep ->
  match rp_written rep with
  | Some (path, text) =>
    path = safe_filename (rp_title rep) ++ TXT
    /\ (force = true \/ path_exists path = false)
    /\ (rp_status rep = St_ok \/ rp_status rep = St_redirect_ok)
  | None =>
    force = false
    /\ path_exists (safe_filename (rp_title rep) ++ TXT) = true
    /\ (rp_status rep = St_exists \/ rp_status rep = St_redirect_exists)
  end.
Proof.
  unfold run, process_one.
  destruct (negb force && path_exists _) eqn:Hs.
  - intros [= <-]. cbn [rp_written rp_title rp_status].
    apply andb_true_iff in Hs as [Hf Hp]. apply negb_true_iff in Hf. auto.
  - destruct (assemble _ _ _ _ _ _ _) as [[[text actual_title] rt]|e];
      cbn [rbind]; [|discriminate].
    destruct (length (strip text) =? 0); [discriminate|].
    destruct (negb force && path_exists (safe_filename actual_title ++ TXT)) eqn:Ho;
      intros [= <-]; cbn [rp_written rp_title rp_status].
    + apply andb_true_iff in Ho as [Hf Hp]. apply negb_true_iff in Hf.
      destruct (truthy rt); auto.
    + split; [reflexivity|]. split.
      * destruct force; [now left|right]. exact Ho.
      * destruct (truthy rt); auto.
Qed.

(** X14. A run writes the text file named after the title it reports,
    and only when it is forced or no such file is there; it reports an
    existing file only when it is not forced and the file is there, and
    then writes nothing. *)
Theorem process_one_keeps_files (raw : ustr) (kind_is_url : bool)
        (exclude_sections : list ustr) (force : bool) (rep : report) :
  run raw kind_is_url exclude_sections force = Ok rep ->
  match rp_written rep with
  | Some (path, text) =>
    path = safe_filename (rp_title rep) ++ TXT
    /\ (force = true \/ path_exists path = false)
    /\ (rp_status rep = St_ok \/ rp_status rep = St_redirect_ok)
  | None =>
    force = false
    /\ path_exists (safe_filename (rp_title rep) ++ TXT) = true
    /\ (rp_status rep = St_exists \/ rp_status rep = St_redirect_exists)
  end.
Proof. apply process_one_files. Qed.

End DriverFiles.

Lemma process_one_keeps_files_witness :
  U "蔡依林.txt" = safe_filename (U "蔡依林") ++ TXT
  /\ (false = true \/ (fun _ : ustr => false) (U "蔡依林.txt") = false)
  /\ (St_ok = St_ok \/ St_ok = St_redirect_ok).
Proof.
  apply (@process_one_keeps_files
           node (fun t => Some (article, t)) (fun _ => None) (fun _ => None)
           (fun h => h) (fun _ _ => None) (fun _ => false) (fun r => r)
           (U "蔡依林") false DEFAULT_EXCLUDE false
           (Report (U "蔡依林") St_ok (Some (U "蔡依林.txt", article_text)))).
  vm_compute. reflexivity.
Defined.

(* ================================================================= *)
(** ** The batch loop *)

Lemma fold_left_inv_batch {B} (P : batch -> Prop) (f : batch -> B -> batch)
      (l : list B) :
  (forall a x, P a -> P (f a x)) -> forall a, P a -> P (fold_left f l a).
Proof.
  intros Hf. induction l as [|x l IH]; intros a Ha; [exact Ha|].
  cbn [fold_left]. apply IH. now apply Hf.
Qed.

Section BatchFacts.

Variable html : Type.
Variables fetch_html_action fetch_html_rest : ustr -> option (html * ustr).
Variable detect_redirect_from_html : html -> option ustr.
Variable parse : html -> node.
Variable _fetch_langlink_title : ustr -> ustr -> option ustr.
Variable url_to_title : ustr -> ustr.
Variable existed : ustr -> bool.
Variable exclude_sections : list ustr.

Let step := main_step fetch_html_action fetch_html_rest detect_redirect_from_html
                      parse _fetch_langlink_title url_to_title existed
                      exclude_sections.
Let loop := main_loop fetch_html_action fetch_html_rest detect_redirect_from_html
                      parse _fetch_langlink_title url_to_title existed
                      exclude_sections.

Lemma step_counts (force : bool) (st : batch) (target : ustr * bool * ustr) :
  n_ok (step force st target) + n_skip (step force st target)
  + n_fail (step force st target)
  = S (n_ok st + n_skip st + n_fail st)
  /\ sleeps (step force st target) = S (sleeps st)
  /\ length (failures_log (step force st target)) + n_fail st
     = length (failures_log st) + n_fail (step force st target).
Proof.
  unfold step, main_step. destruct target as [[raw kind] source_file].
  destruct (process_one _ _ _ _ _ _ _ _ _ _ _) as [rep|e].
  - destruct (rp_status rep);
      cbn [n_ok n_skip n_fail sleeps failures_log]; repeat split; lia.
  - cbn [n_ok n_skip n_fail sleeps failures_log]. rewrite length_app.
    cbn [length]. repeat split; lia.
Qed.

Lemma loop_counts (force : bool) (targets : list (ustr * bool * ustr)) :
  forall st,
    n_ok (fold_left (step force) targets st)
    + n_skip (fold_left (step force) targets st)
    + n_fail (fold_left (step force) targets st)
    = n_ok st + n_skip st + n_fail st + length targets
    /\ sleeps (fold_left (step force) targets st) = sleeps st + length targets
    /\ length (failures_log (fold_left (step force) targets st)) + n_fail st
       = length (failures_log st) + n_fail (fold_left (step force) targets st).
Proof.
  induction targets as [|t rest IH]; intros st; cbn [fold_left length].
  - repeat split; lia.
  - destruct (IH (step force st t)) as (H1 & H2 & H3).
    destruct (step_counts force st t) as (G1 & G2 & G3).
    repeat split; lia.
Qed.

(** X15. In the batch loop every target is counted once, as done,
    skipped or failed; every failure leaves one line in the failure log;
    and the loop sleeps once per target. *)
Theorem main_loop_accounts (force : bool) (all_targets : list (ustr * bool * ustr))
        (data : list jline) :
  let st := loop force all_targets data in
  n_ok st + n_skip st + n_fail st = length all_targets
  /\ length (failures_log st) = n_fail st
  /\ sleeps st = length all_targets.
Proof.
  unfold loop, main_loop.
  destruct (loop_counts force all_targets (Batch 0 0 0 [] data [] 0))
    as (H1 & H2 & H3).
  cbn [n_ok n_skip n_fail sleeps failures_log length] in H1, H2, H3.
  cbv zeta. fold step. repeat split; lia.
Qed.

Lemma exists_now_false (st : batch) (path : ustr) :
  exists_now existed st path = false ->
  existed path = false /\ ~ In path (map fst (txt_files st)).
Proof.
  unfold exists_now. intros H. apply orb_false_iff in H as [He Hf].
  split; [assumption|]. intros Hin. apply in_map_iff in Hin.
  destruct Hin as (f & <- & Hin).
  assert (Ht : existsb (fun f0 => ustr_eqb (fst f0) (fst f)) (txt_files st) = true).
  { apply existsb_exists. exists f. split; [assumption|]. now apply ustr_eqb_spec. }
  congruence.
Qed.

Lemma step_resumes (data : list jline) (st : batch) (target : ustr * bool * ustr) :
  (NoDup (map fst (txt_files st))
   /\ Forall (fun f => existed (fst f) = false) (txt_files st)
   /\ length (txt_files st) = n_ok st
   /\ exists added, all_data st = data ++ added /\ length added = n_ok st) ->
  NoDup (map fst (txt_files (step false st target)))
  /\ Forall (fun f => existed (fst f) = false) (txt_files (step false st target))
  /\ length (txt_files (step false st target)) = n_ok (step false st target)
  /\ exists added, all_data (step false st target) = data ++ added
                   /\ length added = n_ok (step false st target).
Proof.
  intros (Hn & He & Hl & added & Ha & Hla).
  unfold step, main_step. destruct target as [[raw kind] source_file].
  destruct (process_one _ _ _ _ _ _ _ _ _ _ _) as [rep|e] eqn:Er.
  - apply process_one_files in Er.
    destruct (rp_written rep) as [[path text]|].
    + destruct Er as (_ & [Hf|Hp] & Hs); [discriminate|].
      apply exists_now_false in Hp. destruct Hp as (Hex & Hnew).
      assert (Hst : n_ok (match rp_status rep with
                          | St_exists | St_redirect_exists =>
                            Batch (n_ok st) (S (n_skip st)) (n_fail st)
                                  ((path, text) :: txt_files st)
                                  (all_data st ++ [JRecord (Some (rp_title rep)) text])
                                  (failures_log st) (S (sleeps st))
                          | St_ok | St_redirect_ok =>
                            Batch (S (n_ok st)) (n_skip st) (n_fail st)
                                  ((path, text) :: txt_files st)
                                  (all_data st ++ [JRecord (Some (rp_title rep)) text])
                                  (failures_log st) (S (sleeps st))
                          end) = S (n_ok st)).
      { destruct Hs as [-> | ->]; reflexivity. }
      destruct (rp_status rep); cbn [txt_files all_data n_ok map fst length] in *;
        try discriminate.
      all: split; [now constructor|]; split; [now constructor|];
        split; [lia|]; exists (added ++ [JRecord (Some (rp_title rep)) text]);
          rewrite Ha, app_assoc, length_app; cbn [length]; split; [reflexivity|lia].
    + destruct Er as (_ & _ & Hs).
      destruct Hs as [-> | ->]; cbn [txt_files all_data n_ok];
        repeat split; try assumption; exists added; now split.
  - cbn [txt_files all_data n_ok]. repeat split; try assumption.
    exists added. now split.
Qed.

(** X16. Without [--force] no text file that was there before the run
    is written and none is written twice; every file written adds one
    record at the end of [all_data.jsonl], whose earlier lines stay as
    they were. *)
Theorem main_loop_resumes (all_targets : list (ustr * bool * ustr))
        (data : list jline) :
  NoDup (map fst (txt_files (loop false all_targets data)))
  /\ Forall (fun f => existed (fst f) = false)
            (txt_files (loop false all_targets data))
  /\ length (txt_files (loop false all_targets data))
     = n_ok (loop false all_targets data)
  /\ exists added, all_data (loop false all_targets data) = data ++ added
                   /\ length added = n_ok (loop false all_targets data).
Proof.
  unfold loop, main_loop. fold step.
  apply (@fold_left_inv_batch
           _ (fun st => NoDup (map fst (txt_files st))
                        /\ Forall (fun f => existed (fst f) = false) (txt_files st)
                        /\ length (txt_files st) = n_ok st
                        /\ exists added, all_data st = data ++ added
                                         /\ length added = n_ok st)
           (step false) all_targets (step_resumes data)).
  cbn [txt_files all_data n_ok map length]. split; [constructor|].
  split; [constructor|]. split; [reflexivity|]. exists []. now rewrite app_nil_r.
Qed.

Lemma titles_app (a b : list jline) : titles (a ++ b) = titles a ++ titles b.
Proof. unfold titles. apply flat_map_app. Qed.

Lemma titles_other (t : ustr) (ls : list jline) :
  titles (filter (other_title t) ls)
  = filter (fun x => negb (ustr_eqb x t)) (titles ls).
Proof.
  induction ls as [|l ls IH]; [reflexivity|]. cbn [filter].
  destruct l as [title text|].
  - destruct title as [x|]; cbn [other_title].
    + change (titles (JRecord (Some x) text :: ls)) with (x :: titles ls).
      cbn [filter]. destruct (negb (ustr_eqb x t)); [|assumption].
      change (titles (JRecord (Some x) text :: filter (other_title t) ls))
        with (x :: titles (filter (other_title t) ls)).
      now rewrite IH.
    + exact IH.
  - exact IH.
Qed.

Lemma rewritten_titles (t : ustr) (text : ustr) (ls : list jline) :
  NoDup (titles ls) ->
  NoDup (titles (filter (other_title t) ls ++ [JRecord (Some t) text])).
Proof.
  intros H. rewrite titles_app, titles_other. cbn [titles flat_map app].
  apply NoDup_app.
  - now apply NoDup_filter.
  - repeat constructor. intros [].
  - intros x Hx [E|[]]. subst x. apply filter_In in Hx. destruct Hx as [_ Hx].
    apply negb_true_iff in Hx.
    assert (ustr_eqb t t = true) by now apply ustr_eqb_spec. congruence.
Qed.

Lemma rewritten_clean (t : ustr) (text : ustr) (ls : list jline) :
  ~ In JJunk (filter (other_title t) ls ++ [JRecord (Some t) text]).
Proof.
  intros H. apply in_app_or in H. destruct H as [H|[H|[]]]; [|discriminate].
  apply filter_In in H. destruct H as [_ H]. discriminate.
Qed.

Lemma step_forced (st : batch) (target : ustr * bool * ustr) :
  (n_skip st = 0 /\ length (txt_files st) = n_ok st
   /\ (NoDup (titles (all_data st)))
   /\ (0 < n_ok st -> ~ In JJunk (all_data st))) ->
  n_skip (step true st target) = 0
  /\ length (txt_files (step true st target)) = n_ok (step true st target)
  /\ NoDup (titles (all_data (step true st target)))
  /\ (0 < n_ok (step true st target) -> ~ In JJunk (all_data (step true st target))).
Proof.
  intros (Hs & Hl & Hn & Hj).
  unfold step, main_step. destruct target as [[raw kind] source_file].
  destruct (process_one _ _ _ _ _ _ _ _ _ _ _) as [rep|e] eqn:Er.
  - apply process_one_files in Er.
    destruct (rp_written rep) as [[path text]|].
    + destruct Er as (_ & _ & [E|E]); rewrite E;
        cbn [n_skip txt_files n_ok all_data length];
        (split; [assumption|]); (split; [lia|]);
        (split; [now apply rewritten_titles|]); intros _; apply rewritten_clean.
    + destruct Er as (Hf & _). discriminate.
  - cbn [n_skip txt_files n_ok all_data]. auto.
Qed.

(** X17. With [--force] nothing is skipped and every run that succeeds
    writes its file; rewriting [all_data.jsonl] keeps at most one record
    per title when it held at most one before, and once a record was
    written no blank or unreadable line is left. *)
Theorem main_loop_forced (all_targets : list (ustr * bool * ustr))
        (data : list jline) :
  n_skip (loop true all_targets data) = 0
  /\ length (txt_files (loop true all_targets data))
     = n_ok (loop true all_targets data)
  /\ (NoDup (titles data) -> NoDup (titles (all_data (loop true all_targets data))))
  /\ (0 < n_ok (loop true all_targets data) ->
      ~ In JJunk (all_data (loop true all_targets data))).
Proof.
  unfold loop, main_loop. fold step.
  assert (H : NoDup (titles data) ->
              n_skip (fold_left (step true) all_targets (Batch 0 0 0 [] data [] 0)) = 0
              /\ length (txt_files (fold_left (step true) all_targets
                                              (Batch 0 0 0 [] data [] 0)))
                 = n_ok (fold_left (step true) all_targets (Batch 0 0 0 [] data [] 0))
              /\ NoDup (titles (all_data (fold_left (step true) all_targets
                                                    (Batch 0 0 0 [] data [] 0))))
              /\ (0 < n_ok (fold_left (step true) all_targets
                                      (Batch 0 0 0 [] data [] 0)) ->
                  ~ In JJunk (all_data (fold_left (step true) all_targets
                                                  (Batch 0 0 0 [] data [] 0))))).
  { intros Hd.
    apply (@fold_left_inv_batch
             _ (fun st => n_skip st = 0 /\ length (txt_files st) = n_ok st
                          /\ NoDup (titles (all_data st))
                          /\ (0 < n_ok st -> ~ In JJunk (all_data st)))
             (step true) all_targets step_forced).
    cbn [n_skip txt_files n_ok all_data length]. repeat split; try assumption. lia. }
  assert (G : n_skip (fold_left (step true) all_targets (Batch 0 0 0 [] data [] 0)) = 0
              /\ length (txt_files (fold_left (step true) all_targets
                                              (Batch 0 0 0 [] data [] 0)))
                 = n_ok (fold_left (step true) all_targets (Batch 0 0 0 [] data [] 0))
              /\ (0 < n_ok (fold_left (step true) all_targets
                                      (Batch 0 0 0 [] data [] 0)) ->
                  ~ In JJunk (all_data (fold_left (step true) all_targets
                                                  (Batch 0 0 0 [] data [] 0))))).
  { apply (@fold_left_inv_batch
             _ (fun st => n_skip st = 0 /\ length (txt_files st) = n_ok st
                          /\ (0 < n_ok st -> ~ In JJunk (all_data st)))
             (step true) all_targets).
    - intros st target (Hs & Hl & Hj).
      unfold step, main_step. destruct target as [[raw kind] source_file].
      destruct (process_one _ _ _ _ _ _ _ _ _ _ _) as [rep|e] eqn:Er.
      + apply process_one_files in Er.
        destruct (rp_written rep) as [[path text]|].
        * destruct Er as (_ & _ & [E|E]); rewrite E;
            cbn [n_skip txt_files n_ok all_data length];
            (split; [assumption|]); (split; [lia|]); intros _; apply rewritten_clean.
        * destruct Er as (Hf & _). discriminate.
      + cbn [n_skip txt_files n_ok all_data]. auto.
    - cbn [n_skip txt_files n_ok all_data length]. repeat split. lia. }
  destruct G as (G1 & G2 & G3). split; [assumption|]. split; [assumption|].
  split; [|assumption]. intros Hd. apply H. exact Hd.
Qed.

End BatchFacts.

(* ================================================================= *)
(** ** Nested list items and table cells *)


Section NestedItems.

Lemma node_induction (P : node -> Prop) :
  (forall s, P (Text s)) ->
  (forall c s, P (Other c s)) ->
  (forall name cls attrs kids, Forall P kids -> P (Elem name cls attrs kids)) ->
  forall nd, P nd.
Proof.
  intros HT HO HE. fix IH 1.
  intros [s|c s|name cls attrs kids]; [apply HT|apply HO|].
  apply HE. induction kids as [|k kids IHk]; constructor; [apply IH|exact IHk].
Qed.

Lemma existsb_app_false {A} (f : A -> bool) (l1 l2 : list A) :
  existsb f (l1 ++ l2) = false -> existsb f l1 = false /\ existsb f l2 = false.
Proof. rewrite existsb_app. apply orb_false_iff. Qed.

Lemma li_walk_nested (d : node) :
  forall a, existsb (has_name "br") (preorder d) = false -> li_walk true a d = a.
Proof.
  induction d as [s|c s|name cls attrs kids IH] using node_induction;
    intros a H; [reflexivity|reflexivity|].
  cbn [preorder existsb has_name] in H. apply orb_false_iff in H as [Hn Hk].
  cbn [li_walk orb]. rewrite Hn. revert a.
  induction IH as [|k kids Hk' _ IHk]; intros a; [reflexivity|].
  cbn [flat_map] in Hk. apply existsb_app_false in Hk as [H1 H2].
  cbn [fold_left]. rewrite Hk' by assumption. now apply IHk.
Qed.

Lemma fold_nested (kids : list node) :
  forall a, existsb (has_name "br") (flat_map preorder kids) = false ->
            fold_left (li_walk true) kids a = a.
Proof.
  induction kids as [|k kids IH]; intros a H; [reflexivity|].
  cbn [flat_map] in H. apply existsb_app_false in H as [H1 H2].
  cbn [fold_left]. rewrite li_walk_nested by assumption. now apply IH.
Qed.

Lemma li_walk_item (it : node) (a : acc) :
  plain_item it -> li_walk false a it = a.
Proof.
  intros [Hn Hb]. destruct it as [s|c s|name cls attrs kids];
    [discriminate|discriminate|].
  cbn [has_name] in Hn. cbn [preorder existsb has_name] in Hb.
  apply orb_false_iff in Hb as [Hbr Hk].
  cbn [li_walk]. rewrite Hbr, Hn. cbn [orb]. now apply fold_nested.
Qed.

Lemma li_walk_sublist (name : string) (cls : list string)
      (attrs : list (string * ustr)) (items : list node) (a : acc) :
  String.eqb name "br" = false -> String.eqb name "li" = false ->
  Forall plain_item items ->
  li_walk false a (Elem name cls attrs items) = a.
Proof.
  intros Hbr Hli Hi. cbn [li_walk]. rewrite Hbr, Hli. cbn [orb].
  induction Hi as [|it items Hit _ IH]; [reflexivity|].
  cbn [fold_left]. now rewrite li_walk_item.
Qed.

End NestedItems.

(** X8. The text of a list item leaves out the items of a list nested in
    it, as long as they hold no [br]. *)
Theorem nested_items_left_out (name : string) (cls licls : list string)
        (attrs liattrs : list (string * ustr)) (pre post items : list node) :
  String.eqb name "br" = false -> String.eqb name "li" = false ->
  Forall plain_item items ->
  extract_text_from_li (Elem "li" licls liattrs
                             (pre ++ Elem name cls attrs items :: post))
  = extract_text_from_li (Elem "li" licls liattrs (pre ++ post)).
Proof.
  intros Hbr Hli Hi. unfold extract_text_from_li. cbn [children].
  rewrite !fold_left_app. cbn [fold_left]. now rewrite li_walk_sublist.
Qed.

Lemma nested_items_left_out_witness :
  extract_text_from_li nested_list = U "專輯".
Proof.
  refine (eq_trans (@nested_items_left_out
                      "ul" [] [] [] [] [Text (U "專輯")] []
                      [Elem "li" [] [] [Text (U "看我72變")]] _ _ _) _).
  - reflexivity.
  - reflexivity.
  - constructor; [|constructor]. split; vm_compute; reflexivity.
  - vm_compute. reflexivity.
Defined.

Section CellText.

Lemma replace_char (x y : N) :
  forall n s, length s < n ->
              replace_fuel n [x] [y] s = map (fun c => if (x =? c)%N then y else c) s.
Proof.
  induction n as [|n IH]; intros s Hn; [lia|]. destruct s as [|c t]; [reflexivity|].
  cbn [replace_fuel starts_with length skipn map app] in *.
  rewrite andb_true_r. destruct (x =? c)%N; f_equal; apply IH; lia.
Qed.

Lemma drop_run_forall (Q : N -> Prop) (p : N -> bool) (s : ustr) :
  Forall Q s -> Forall Q (drop_run p s).
Proof.
  intros H. rewrite (run_split p s) in H. apply Forall_app in H. apply H.
Qed.

Lemma squeezed_forall (Q : N -> Prop) :
  Q SP ->
  forall n b a, Forall Q a ->
                Forall Q (sub_loop n Tidy.re_hspace (expand [TLit [SP]]) b a).
Proof.
  intros Hsp. induction n as [|n IH]; intros b a Ha; [exact Ha|].
  destruct a as [|c t]; [now rewrite sub_loop_nil by apply hspace_nil|].
  rewrite hspace_step. inversion Ha; subst. destruct (is_hspace c).
  - constructor; [assumption|]. apply IH. now apply drop_run_forall.
  - constructor; [assumption|]. now apply IH.
Qed.

End CellText.

(** X5. A table cell is rendered on one line: its text holds no line
    break, every run of blanks in it is one space, and it neither starts
    nor ends with whitespace. *)
Theorem cell_text_one_line (cl : node) :
  Forall (fun c => c <> NL) (cell_text cl)
  /\ single_spaced false (cell_text cl) = true
  /\ strip (cell_text cl) = cell_text cl.
Proof.
  change (cell_text cl) with (squeeze (replace [NL] [SP] (smart_text cl))).
  split; [|split; [apply squeeze_single_spaced|apply squeeze_stripped]].
  unfold squeeze, sub, sub_fn. apply squeezed_forall; [discriminate|].
  apply strip_forall. unfold replace. rewrite replace_char by lia.
  apply Forall_forall. intros c Hc. apply in_map_iff in Hc.
  destruct Hc as (x & <- & _). destruct (NL =? x)%N eqn:E; [discriminate|].
  apply N.eqb_neq in E. congruence.
Qed.

(** X2. Whenever [html_to_text] returns the text of a page, the text
    holds no three line breaks in a row. *)
Theorem html_to_text_short_breaks (soup : node) (exclude_sections : list ustr)
        (text : ustr) :
  html_to_text soup exclude_sections = Done text ->
  short_breaks 0 text = true.
Proof.
  unfold html_to_text.
  destruct (walk_elements exclude_sections (elements_of (select_root soup)))
    as [w| |]; cbn [bind]; [|discriminate|discriminate].
  intros [= <-]. apply zh_tidy_breaks.
Qed.

Lemma html_to_text_short_breaks_witness :
  short_breaks 0 article_text = true.
Proof.
  apply (@html_to_text_short_breaks article DEFAULT_EXCLUDE article_text).
  vm_compute. reflexivity.
Defined.

Lemma main_loop_forced_witness :
  NoDup (titles (all_data
                   (main_loop (fun t => Some (article, t)) (fun _ => None)
                              (fun _ => None) (fun h => h) (fun _ _ => None)
                              (fun r => r) (fun _ => true) DEFAULT_EXCLUDE true
                              [(U "蔡依林", false, U "targets.txt")] old_data))).
Proof.
  apply (proj1 (proj2 (proj2 (@main_loop_forced
           node (fun t => Some (article, t)) (fun _ => None) (fun _ => None)
           (fun h => h) (fun _ _ => None) (fun r => r) (fun _ => true)
           DEFAULT_EXCLUDE [(U "蔡依林", false, U "targets.txt")] old_data)))).
  vm_compute. repeat constructor.
  - intros [H|[]]. discriminate H.
  - intros [].
Defined.

(* ================================================================= *)
(** ** Label/value repair: text without a colon *)

Lemma sub_fn_needs_colon (labels : list ustr) (f : mstate -> ustr) (text : ustr) :
  ~ In COLON_FULL text -> sub_fn (missing_after labels) f text = text.
Proof.
  intros H. unfold sub_fn.
  apply (@sub_loop_id (missing_after labels) f (fun a => ~ In COLON_FULL a)).
  - intros w a Hwa Ha. apply Hwa. apply in_or_app. now right.
  - intros b a s' Ha E. exfalso. apply missing_after_match in E.
    destruct E as (label & _ & Ea & _). apply Ha. rewrite Ea.
    apply in_or_app. right. now left.
  - exact H.
Qed.

Section NoColon.

Variable _fetch_langlink_title : ustr -> ustr -> option ustr.

(** X21. Label repair never changes a text without a full-width colon:
    neither the repair inside a paragraph nor the final one with
    inter-language links. *)
Theorem repair_needs_colon (el : node) (after : list node) (text title : ustr) :
  ~ In COLON_FULL text ->
  fill_labels_if_missing el after text = text
  /\ ensure_labels_after_marker _fetch_langlink_title text title = text.
Proof.
  intros H. split.
  - unfold fill_labels_if_missing.
    change _MISSING_AFTER_LABEL with (missing_after LABELS).
    now apply sub_fn_needs_colon.
  - unfold ensure_labels_after_marker.
    change _MISSING_AFTER_LABEL with (missing_after LABELS).
    now apply sub_fn_needs_colon.
Qed.

End NoColon.

Lemma repair_needs_colon_witness :
  fill_labels_if_missing masou_paragraph [] (U "學名:，") = U "學名:，"
  /\ ensure_labels_after_marker (fun _ _ => Some (U "x")) (U "學名:，") (U "櫻花鉤吻鮭")
     = U "學名:，".
Proof.
  apply (@repair_needs_colon (fun _ _ => Some (U "x")) masou_paragraph []
                             (U "學名:，") (U "櫻花鉤吻鮭")).
  vm_compute. intros [H|[H|[H|[H|[]]]]]; discriminate H.
Defined.

(* ================================================================= *)
(** ** The failures of the driver *)

Section DriverFailures.

Variable html : Type.
Variables fetch_html_action fetch_html_rest : ustr -> option (html * ustr).
Variable detect_redirect_from_html : html -> option ustr.
Variable parse : html -> node.
Variable _fetch_langlink_title : ustr -> ustr -> option ustr.
Variable path_exists : ustr -> bool.
Variable url_to_title : ustr -> ustr.

Let run := process_one fetch_html_action fetch_html_rest
                       detect_redirect_from_html parse _fetch_langlink_title
                       path_exists url_to_title.

Lemma fetch_none (t : ustr) :
  fetch fetch_html_action fetch_html_rest t = None ->
  fetch_html_action t = None /\ fetch_html_rest t = None.
Proof. unfold fetch. destruct (fetch_html_action t); [discriminate|auto]. Qed.

Lemma refetch_err (t : ustr) (e : failure) :
  refetch fetch_html_action fetch_html_rest t = Err e ->
  e = RedirectFetchFailed t
  /\ fetch_html_action t = None /\ fetch_html_rest t = None.
Proof.
  unfold refetch. destruct (fetch _ _ t) eqn:E; [discriminate|].
  intros [= <-]. split; [reflexivity|]. now apply fetch_none.
Qed.

Lemma to_text_err (h : html) (ex : list ustr) (e : failure) :
  to_text parse h ex = Err e -> e = WalkFailed.
Proof.
  unfold to_text. destruct (html_to_text _ _); intros [= <-]; reflexivity.
Qed.

Lemma differs_spec (target : option ustr) (title : ustr) :
  differs target title = true ->
  exists t, target = Some t /\ t <> [] /\ t <> title.
Proof.
  unfold differs, truthy. destruct target as [t|]; [|discriminate].
  cbn [or_empty]. intros H. apply andb_true_iff in H as [Ht Hd].
  exists t. split; [reflexivity|]. split; [now apply nonempty_true|].
  apply negb_true_iff in Hd. intros ->.
  assert (ustr_eqb title title = true) by now apply ustr_eqb_spec. congruence.
Qed.

Lemma to_text_ok (h : html) (ex : list ustr) :
  exists t, to_text parse h ex = Ok t.
Proof.
  unfold to_text, html_to_text, walk_elements.
  destruct (@walk_fold_spaced ex (elements_of (select_root (parse h)))
                              (Walk [] false []) eq_refl) as (w & -> & _).
  cbn [bind]. eauto.
Qed.

Lemma redirect_failure (target : option ustr) (title : ustr) (e : failure) :
  differs target title = true ->
  refetch fetch_html_action fetch_html_rest (or_empty target) = Err e ->
  exists t, e = RedirectFetchFailed t /\ t <> [] /\ t <> title
            /\ fetch_html_action t = None /\ fetch_html_rest t = None.
Proof.
  intros Hd Hr. apply differs_spec in Hd. destruct Hd as (t & -> & Hne & Hneq).
  cbn [or_empty] in Hr. apply refetch_err in Hr. destruct Hr as (-> & H1 & H2).
  exists t. auto.
Qed.

Lemma assemble_failures (title : ustr) (ex : list ustr) (e : failure) :
  assemble fetch_html_action fetch_html_rest detect_redirect_from_html parse
           _fetch_langlink_title title ex = Err e ->
  (e = FetchFailed title /\ fetch_html_action title = None
   /\ fetch_html_rest title = None)
  \/ (exists t, e = RedirectFetchFailed t /\ t <> [] /\ t <> title
                /\ fetch_html_action t = None /\ fetch_html_rest t = None).
Proof.
  unfold assemble.
  destruct (fetch fetch_html_action fetch_html_rest title) as [[h actual]|] eqn:Ef;
    cbn [rbind].
  2:{ intros [= <-]. left. split; [reflexivity|]. now apply fetch_none. }
  destruct (differs (detect_redirect_from_html h) title) eqn:Ed1.
  - destruct (refetch fetch_html_action fetch_html_rest
                      (or_empty (detect_redirect_from_html h)))
      as [[h1 actual1]|e1] eqn:Er1; cbn [rbind].
    2:{ intros [= <-]. right. exact (@redirect_failure _ _ _ Ed1 Er1). }
    destruct (to_text_ok h1 ex) as (text & ->). cbn [rbind].
    destruct (differs (detect_redirect text) title) eqn:Ed2.
    + destruct (refetch fetch_html_action fetch_html_rest
                        (or_empty (detect_redirect text)))
        as [[h2 actual2]|e2] eqn:Er2; cbn [rbind].
      2:{ intros [= <-]. right. exact (@redirect_failure _ _ _ Ed2 Er2). }
      destruct (to_text_ok h2 ex) as (text2 & ->). cbn [rbind]. discriminate.
    + cbn [rbind]. discriminate.
  - cbn [rbind]. destruct (to_text_ok h ex) as (text & ->). cbn [rbind].
    destruct (differs (detect_redirect text) title) eqn:Ed2.
    + destruct (refetch fetch_html_action fetch_html_rest
                        (or_empty (detect_redirect text)))
        as [[h2 actual2]|e2] eqn:Er2; cbn [rbind].
      2:{ intros [= <-]. right. exact (@redirect_failure _ _ _ Ed2 Er2). }
      destruct (to_text_ok h2 ex) as (text2 & ->). cbn [rbind]. discriminate.
    + cbn [rbind]. discriminate.
Qed.

(** X22. A run that ends with a failed retrieval had both services fail:
    [FetchFailed] names the requested title, which neither service
    delivered; [RedirectFetchFailed] names a redirect target, not empty and
    different from the requested title, which neither service delivered. *)
Theorem process_one_failures (raw : ustr) (kind_is_url : bool)
        (exclude_sections : list ustr) (force : bool) (t : ustr) :
  (run raw kind_is_url exclude_sections force = Err (FetchFailed t) ->
   t = requested url_to_title raw kind_is_url
   /\ fetch_html_action t = None /\ fetch_html_rest t = None)
  /\ (run raw kind_is_url exclude_sections force = Err (RedirectFetchFailed t) ->
      t <> [] /\ t <> requested url_to_title raw kind_is_url
      /\ fetch_html_action t = None /\ fetch_html_rest t = None).
Proof.
  assert (H : forall e, run raw kind_is_url exclude_sections force = Err e ->
                        match e with
                        | FetchFailed t =>
                          t = requested url_to_title raw kind_is_url
                          /\ fetch_html_action t = None /\ fetch_html_rest t = None
                        | RedirectFetchFailed t =>
                          t <> [] /\ t <> requested url_to_title raw kind_is_url
                          /\ fetch_html_action t = None /\ fetch_html_rest t = None
                        | _ => True
                        end).
  { intros e. unfold run, process_one, requested.
    destruct (negb force && path_exists _); [discriminate|].
    destruct (assemble _ _ _ _ _ _ _) as [[[text actual] rt]|e0] eqn:Ea;
      cbn [rbind].
    - destruct (length (strip text) =? 0).
      + intros [= <-]. exact I.
      + destruct (negb force && path_exists _); discriminate.
    - intros [= <-]. apply assemble_failures in Ea.
      destruct Ea as [(-> & H1 & H2)|(t' & -> & Hne & Hneq & H1 & H2)]; auto. }
  split; intros E; exact (H _ E).
Qed.

End DriverFailures.

Lemma process_one_failures_witness :
  U "不存在" = requested (fun r => r) (U "不存在") false
  /\ (fun _ : ustr => @None (node * ustr)) (U "不存在") = None
  /\ (fun _ : ustr => @None (node * ustr)) (U "不存在") = None.
Proof.
  apply (proj1 (@process_one_failures
           node (fun _ => None) (fun _ => None) (fun _ => None) (fun h => h)
           (fun _ _ => None) (fun _ => false) (fun r => r)
           (U "不存在") false DEFAULT_EXCLUDE false (U "不存在"))).
  vm_compute. reflexivity.
Defined.

(* ================================================================= *)
(** ** Redirect markers *)

Section Redirects.

Lemma search_without (P : N -> bool) (r : re) :
  starts_in P r ->
  forall b a, Forall (fun c => P c = false) a -> search_loop r b a = None.
Proof.
  intros Hr b a Ha. revert b. induction Ha as [|c t Hc Ht IH]; intros b.
  - cbn [search_loop]. rewrite (@no_match_without P r b [] Hr); [reflexivity|constructor].
  - cbn [search_loop].
    rewrite (@no_match_without P r b (c :: t) Hr); [apply IH|now constructor].
Qed.

Lemma first_search_without (P : N -> bool) (ps : list re) (text : ustr) :
  Forall (starts_in P) ps ->
  Forall (fun c => P c = false) text -> first_search ps text = None.
Proof.
  intros Hp Ht. induction Hp as [|r ps Hr _ IH]; [reflexivity|].
  cbn [first_search]. unfold search. now rewrite (@search_without P r Hr [] text Ht).
Qed.

Lemma lower_hash (x : N) : (lower_ascii x =? 35)%N = true -> x = 35%N.
Proof.
  unfold lower_ascii. destruct ((65 <=? x) && (x <=? 90))%N eqn:E; intros H;
    apply N.eqb_eq in H; [|assumption].
  apply andb_true_iff in E as [E1 E2]. apply N.leb_le in E1. lia.
Qed.

Lemma redirect_patterns_start : Forall (starts_in redirect_mark) redirect_patterns.
Proof.
  unfold redirect_patterns. repeat apply Forall_cons; try apply Forall_nil.
  - left. apply lit_starts. reflexivity.
  - left. apply lit_starts. reflexivity.
  - left.
    change (starts_in redirect_mark
                      (Seq (ichr 35) (seqs (map ichr (U "REDIRECT"))))).
    left. intros c H. apply orb_true_iff in H as [H|H]; [|discriminate].
    apply lower_hash in H. subst c. reflexivity.
  - left. apply lit_starts. reflexivity.
Qed.

End Redirects.

(** X23. A text that holds neither [#] nor the first character of the Chinese
    redirect phrases is never taken for a redirect page. *)
Theorem detect_redirect_needs_mark (text : ustr) :
  Forall (fun c => redirect_mark c = false) text -> detect_redirect text = None.
Proof.
  intros H. unfold detect_redirect.
  now rewrite (@first_search_without redirect_mark redirect_patterns text
                                     redirect_patterns_start H).
Qed.

Lemma detect_redirect_needs_mark_witness :
  detect_redirect (U "蔡依林是臺灣歌手。") = None.
Proof.
  apply detect_redirect_needs_mark. vm_compute. repeat constructor.
Defined.

(* ================================================================= *)
(** ** Label/value repair: the value the anchor scan returns *)

Section AnchorScanValue.

Variable maxlen : nat.

Lemma find_anchor_first (label : ustr) (before : list node) (anchor : node)
      (rest : list node) :
  Forall (fun d => exact_text label d = false) before ->
  exact_text label anchor = true ->
  find_anchor label (before ++ anchor :: rest) = Some rest.
Proof.
  intros Hb Ha. induction Hb as [|d before Hd _ IH]; cbn [app find_anchor].
  - now rewrite Ha.
  - now rewrite Hd.
Qed.

Lemma scan_colon (r : ustr) (nd : node) (following : list node)
      (parts : list ustr) :
  colon_then r nd ->
  label_scan maxlen (nd :: following) false parts
  = label_scan maxlen (Text r :: following) true parts.
Proof.
  intros (s & Hs & Hr).
  destruct nd as [s'|k s'|name cls attrs kids]; cbn [string_of] in Hs;
    [injection Hs as ->|injection Hs as ->|discriminate Hs];
    cbn [label_scan]; now rewrite Hr.
Qed.

Lemma sum_len_app (a b : list ustr) : sum_len (a ++ b) = sum_len a + sum_len b.
Proof. induction a as [|p a IH]; [reflexivity|]. cbn [app sum_len fold_right] in *. unfold sum_len in *. lia. Qed.

Lemma until_stop_none (s : ustr) : no_stop s -> until_stop s = (s, false).
Proof.
  induction 1 as [|c t Hc _ IH]; [reflexivity|]. cbn [until_stop].
  now rewrite Hc, IH.
Qed.

Lemma until_stop_at (last : ustr) (c : N) (more : ustr) :
  no_stop last -> in_str _STOP_CHARS c = true ->
  until_stop (last ++ c :: more) = (last, true).
Proof.
  intros Hl Hc. induction Hl as [|x t Hx _ IH]; cbn [app until_stop].
  - now rewrite Hc.
  - now rewrite Hx, IH.
Qed.

Lemma scan_gone_through (mid rest : list node) :
  Forall gone_through mid ->
  forall parts,
    sum_len (parts ++ pieces mid) <= maxlen * 2 ->
    label_scan maxlen (mid ++ rest) true parts
    = label_scan maxlen rest true (parts ++ pieces mid).
Proof.
  induction 1 as [|nd mid Hnd _ IH]; intros parts Hsum.
  - cbn [pieces flat_map app]. now rewrite app_nil_r.
  - assert (Hs : forall s, string_of nd = Some s -> no_stop (strip s) ->
                 label_scan maxlen ((nd :: mid) ++ rest) true parts
                 = label_scan maxlen rest true (parts ++ pieces (nd :: mid))).
    { intros s Hs Hfree.
      assert (E : label_scan maxlen ((nd :: mid) ++ rest) true parts
                  = label_scan maxlen (Text s :: mid ++ rest) true parts).
      { destruct nd as [s'|k s'|name cls attrs kids]; cbn [string_of] in Hs;
          [injection Hs as ->|injection Hs as ->|discriminate Hs]; reflexivity. }
      rewrite E. cbn [label_scan]. unfold cut_at_stop.
      rewrite (@until_stop_none (strip s) Hfree).
      unfold pieces in *. cbn [flat_map] in *. rewrite Hs in *.
      destruct (nonempty (strip s)).
      - rewrite app_assoc in Hsum.
        assert (Hle : sum_len (parts ++ [strip s]) <= maxlen * 2).
        { rewrite sum_len_app in Hsum. lia. }
        apply Nat.ltb_ge in Hle. rewrite Hle.
        rewrite IH by exact Hsum. now rewrite <- app_assoc.
      - cbn [app] in *.
        assert (Hle : sum_len parts <= maxlen * 2).
        { rewrite sum_len_app in Hsum. lia. }
        apply Nat.ltb_ge in Hle. rewrite Hle. now apply IH. }
    destruct nd as [s|k s|name cls attrs kids]; cbn [gone_through] in Hnd.
    + now apply (Hs s).
    + now apply (Hs s).
    + cbn [app label_scan]. rewrite Hnd.
      unfold pieces in *. cbn [flat_map string_of app] in *.
      assert (Hle : sum_len parts <= maxlen * 2).
      { rewrite sum_len_app in Hsum. lia. }
      apply Nat.ltb_ge in Hle. rewrite Hle. now apply IH.
Qed.

Lemma scan_stops_after (last : ustr) (nd : node) (tail : list node)
      (parts : list ustr) :
  stops_after last nd ->
  label_scan maxlen (nd :: tail) true parts
  = if nonempty last then parts ++ [last] else parts.
Proof.
  intros (s & c & more & Hs & Hstrip & Hfree & Hc).
  destruct nd as [s'|k s'|name cls attrs kids]; cbn [string_of] in Hs;
    [injection Hs as ->|injection Hs as ->|discriminate Hs];
    cbn [label_scan]; unfold cut_at_stop; rewrite Hstrip;
    rewrite (@until_stop_at last c more Hfree Hc); reflexivity.
Qed.

End AnchorScanValue.

Lemma strip_tight (s : ustr) : nonempty (strip s) = true -> tight (strip s).
Proof.
  intros Hn. split.
  - destruct (strip_shape s) as [E|H]; [rewrite E in Hn; discriminate Hn|exact H].
  - destruct (strip_ends s) as [E|H]; [rewrite E in Hn; discriminate Hn|exact H].
Qed.

Lemma pieces_tight (nds : list node) : Forall tight (pieces nds).
Proof.
  induction nds as [|nd nds IH]; [constructor|]. unfold pieces in *.
  cbn [flat_map]. apply Forall_app. split; [|exact IH].
  destruct (string_of nd) as [s|]; [|constructor].
  destruct (nonempty (strip s)) eqn:E; [|constructor].
  constructor; [now apply strip_tight|constructor].
Qed.

Lemma join_tight (sep : ustr) (p : ustr) (ps : list ustr) :
  Forall tight (p :: ps) ->
  tight (join sep (p :: ps)) /\ sum_len (p :: ps) <= length (join sep (p :: ps)).
Proof.
  revert p. induction ps as [|q ps IH]; intros p Hp.
  - cbn [join]. split; [exact (Forall_inv Hp)|]. unfold sum_len. cbn [fold_right]. lia.
  - rewrite join_cons by discriminate.
    pose proof (Forall_inv Hp) as ((c & t & Ec & Hc) & _).
    destruct (IH q (Forall_inv_tail Hp)) as ((_ & (o & d & Ed & Hd)) & Hlen).
    split; [split|].
    + exists c, (t ++ sep ++ join sep (q :: ps)). now rewrite Ec.
    + exists (p ++ sep ++ o), d. rewrite Ed. now rewrite <- !app_assoc.
    + rewrite !length_app. unfold sum_len in *. cbn [fold_right] in *. lia.
Qed.

Lemma join_snoc (sep : ustr) (ps : list ustr) (l : ustr) :
  ps <> [] -> join sep (ps ++ [l]) = join sep ps ++ sep ++ l.
Proof.
  induction ps as [|p ps IH]; [congruence|]. intros _.
  destruct ps as [|q ps]; [reflexivity|].
  specialize (IH ltac:(discriminate)). cbn [app] in IH |- *.
  rewrite join_cons by discriminate. rewrite IH.
  rewrite (@join_cons sep p (q :: ps)) by discriminate.
  now rewrite <- !app_assoc.
Qed.

Lemma lstrip_app (x y : ustr) :
  lstrip (x ++ y) = lstrip x ++ y \/ lstrip (x ++ y) = lstrip y.
Proof.
  induction x as [|c x IH]; [now right|]. cbn [app lstrip].
  destruct (is_space c); [exact IH|now left].
Qed.

Lemma strip_tight_prefix (a b : ustr) :
  tight a -> exists b', strip (a ++ b) = a ++ b'.
Proof.
  intros ((c & t & Ec & Hc) & (o & d & Ed & Hd)).
  unfold strip.
  assert (El : lstrip (a ++ b) = a ++ b).
  { rewrite Ec. cbn [app lstrip]. now rewrite Hc. }
  rewrite El. unfold rstrip. rewrite rev_app_distr.
  assert (Er : lstrip (rev a) = rev a).
  { rewrite Ed, rev_app_distr. cbn [rev app lstrip]. now rewrite Hd. }
  destruct (lstrip_app (rev b) (rev a)) as [E|E]; rewrite E.
  - rewrite rev_app_distr, rev_involutive. now exists (rev (lstrip (rev b))).
  - rewrite Er, rev_involutive. exists []. now rewrite app_nil_r.
Qed.

Lemma filter_tight (ps : list ustr) : Forall tight ps -> filter nonempty ps = ps.
Proof.
  induction 1 as [|p ps Hp _ IH]; [reflexivity|]. cbn [filter].
  destruct Hp as ((c & t & -> & _) & _). change (nonempty (c :: t)) with true.
  cbv iota. now rewrite IH.
Qed.

Lemma join_parts_last (ps : list ustr) (last : ustr) :
  join_parts (if nonempty last then ps ++ [last] else ps) = join_parts (ps ++ [last]).
Proof.
  unfold join_parts. destruct (nonempty last) eqn:E; [reflexivity|].
  rewrite filter_app. cbn [filter]. rewrite E. now rewrite app_nil_r.
Qed.

(** The pieces collected before the stop are no longer than the value they
    are part of. *)
Lemma pieces_bound (nds : list node) (last : ustr) :
  sum_len (pieces nds) <= length (strip (join_parts (pieces nds ++ [last]))).
Proof.
  pose proof (pieces_tight nds) as Ht. unfold join_parts.
  rewrite filter_app, (@filter_tight (pieces nds) Ht).
  destruct (pieces nds) as [|p ps] eqn:E; [cbn; lia|].
  destruct (@join_tight [SP] p ps Ht) as (Hj & Hlen).
  cbn [filter]. destruct (nonempty last).
  - rewrite join_snoc by discriminate.
    destruct (@strip_tight_prefix (join [SP] (p :: ps)) ([SP] ++ last) Hj) as (b' & ->).
    rewrite length_app. lia.
  - rewrite app_nil_r.
    destruct (@strip_tight_prefix (join [SP] (p :: ps)) [] Hj) as (b' & Eb).
    rewrite app_nil_r in Eb. rewrite Eb, length_app. lia.
Qed.

(** The anchor scan returns the value that stands, piece by piece, between
    the colon after the first node that reads as the label and the next
    stop character. *)
Lemma collect_value (el : node) (after before : list node) (anchor : node)
      (rest skip following mid tail : list node) (colon stop : node)
      (label r last v : ustr) :
  descendants el = before ++ anchor :: rest ->
  Forall (fun d => exact_text label d = false) before ->
  exact_text label anchor = true ->
  rest ++ after = skip ++ colon :: following ->
  Forall before_colon skip ->
  colon_then r colon ->
  Text r :: following = mid ++ stop :: tail ->
  Forall gone_through mid ->
  stops_after last stop ->
  strip (join_parts (pieces mid ++ [last])) = v ->
  length v <= 240 ->
  _collect_value_after_label el after label 120 = cap_value 120 v.
Proof.
  intros Hd Hb Ha Hrest Hskip Hcolon Hmid Hgone Hstop Hv Hlen.
  unfold _collect_value_after_label.
  rewrite Hd, (@find_anchor_first label before anchor rest Hb Ha), Hrest.
  rewrite scan_before_colon by assumption.
  rewrite (@scan_colon 120 r colon following [] Hcolon), Hmid.
  rewrite scan_gone_through; [|assumption|].
  - rewrite (@scan_stops_after 120 last stop tail _ Hstop).
    cbn [app]. now rewrite join_parts_last, Hv.
  - cbn [app]. pose proof (@pieces_bound mid last) as Hp. rewrite Hv in Hp.
    change (120 * 2) with 240. lia.
Qed.

(** C6, as stated, fails: with a line break between the colon and the
    name the scan stops before it reaches the name, no text node holds
    the label with its colon for the second method, and the text stays as
    it was. *)
Lemma label_repair_counterexample :
  contains (U "學名：，") (squeeze (smart_text masou_break)) = true
  /\ label_before_value masou_break
  /\ fill_labels_if_missing masou_break [] (squeeze (smart_text masou_break))
     = U "學名：，台灣特有亞種。"
  /\ contains (U "學名：Oncorhynchus masou formosanus，")
              (fill_labels_if_missing masou_break []
                                      (squeeze (smart_text masou_break))) = false.
Proof.
  split; [vm_compute; reflexivity|]. split; [|split; vm_compute; reflexivity].
  exists [], (Elem "b" [] [] [Text (U "學名")]),
         [Text (U "學名"); Text (U "：");
          Elem "ul" [] [] [Elem "br" [] [] []; Text MASOU]; Elem "br" [] [] []],
         [Text (U "，台灣特有亞種。")].
  split; [reflexivity|]. split; [vm_compute; reflexivity|].
  repeat constructor.
Qed.

(** With two labels in the paragraph the scan starts at the first one, and
    the value written at the second is the one that follows the first. *)
Lemma label_repair_first_label :
  label_before_value masou_twice
  /\ fill_labels_if_missing masou_twice [] (squeeze (smart_text masou_twice))
     = U "學名：Salmo formosanus，今作學名：Salmo formosanus，台灣特有亞種。".
Proof.
  split; [|vm_compute; reflexivity].
  exists [Elem "b" [] [] [Text (U "學名")]; Text (U "學名"); Text (U "：");
          Elem "i" [] [] [Text (U "Salmo formosanus")];
          Text (U "Salmo formosanus"); Text (U "，今作")],
         (Elem "b" [] [] [Text (U "學名")]),
         [Text (U "學名"); Text (U "："); Elem "ul" [] [] [Text MASOU]],
         [Text (U "，台灣特有亞種。")].
  split; [reflexivity|]. split; [vm_compute; reflexivity|].
  repeat constructor.
Qed.

(** C6. A paragraph text that holds "學名：" directly followed by "，" is
    repaired by the anchor scan when, in the tree, the first node whose own
    text is exactly "學名" is followed in document order by a string with a
    colon, with only strings without a colon and tags other than [br]
    before it, and what stands between that colon and the next stop
    character, in strings and in tags other than [br], reads, piece by
    piece and joined by blanks, "Oncorhynchus masou formosanus": the
    repaired text holds "學名：Oncorhynchus masou formosanus，". *)
Theorem label_repair_anchor_scan (el : node) (after : list node) (pre suf : ustr)
        (before : list node) (anchor : node)
        (rest skip following mid tail : list node) (colon stop : node)
        (r last : ustr) :
  descendants el = before ++ anchor :: rest ->
  Forall (fun d => exact_text (U "學名") d = false) before ->
  exact_text (U "學名") anchor = true ->
  rest ++ after = skip ++ colon :: following ->
  Forall before_colon skip ->
  colon_then r colon ->
  Text r :: following = mid ++ stop :: tail ->
  Forall gone_through mid ->
  stops_after last stop ->
  strip (join_parts (pieces mid ++ [last])) = U "Oncorhynchus masou formosanus" ->
  contains (U "學名：Oncorhynchus masou formosanus，")
           (fill_labels_if_missing el after (pre ++ U "學名：，" ++ suf)) = true.
Proof.
  intros Hd Hb Ha Hrest Hskip Hcolon Hmid Hgone Hstop Hv.
  assert (Hval : _collect_value_after_label el after SCI_NAME 120 = Some MASOU).
  { rewrite (@collect_value el after before anchor rest skip following mid tail
                            colon stop SCI_NAME r last MASOU
                            Hd Hb Ha Hrest Hskip Hcolon Hmid Hgone Hstop Hv);
      [reflexivity|vm_compute; lia]. }
  unfold fill_labels_if_missing, sub_fn.
  set (f := fill_repl el after).
  change (U "學名：，" ++ suf)
    with (SCI_HEAD :: tl SCI_NAME ++ COLON_FULL :: COMMA :: suf).
  change _MISSING_AFTER_LABEL with (missing_after LABELS).
  destruct (@sub_loop_reaches LABELS f SCI_HEAD
              (tl SCI_NAME ++ COLON_FULL :: COMMA :: suf) labels_apart_sci
              (S (length (pre ++ SCI_HEAD :: tl SCI_NAME ++ COLON_FULL :: COMMA :: suf)))
              pre [] ltac:(lia))
    as (out & b' & n' & Hn' & ->).
  destruct n' as [|n1]; [lia|]. cbn [sub_loop].
  change (missing_after LABELS) with _MISSING_AFTER_LABEL.
  change (SCI_HEAD :: tl SCI_NAME ++ COLON_FULL :: COMMA :: suf)
    with (SCI_NAME ++ COLON_FULL :: COMMA :: suf) in *.
  destruct (match_at_sci b' suf) as (s' & -> & Eaft & Eg).
  assert (Hlt : length (aft s') < length (SCI_NAME ++ COLON_FULL :: COMMA :: suf))
    by (rewrite Eaft; simpl; lia).
  apply Nat.ltb_lt in Hlt. rewrite Hlt, Eaft.
  destruct n1 as [|n2]; [simpl in Hn'; lia|]. cbn [sub_loop].
  rewrite no_match_at_comma.
  assert (Ef : f s' = SCI_NAME ++ [COLON_FULL] ++ MASOU).
  { unfold f, fill_repl, group_or_empty. rewrite Eg, Hval. reflexivity. }
  rewrite Ef.
  change ((SCI_NAME ++ [COLON_FULL] ++ MASOU)
            ++ COMMA :: sub_loop n2 _MISSING_AFTER_LABEL f (COMMA :: bef s') suf)
    with (U "學名：Oncorhynchus masou formosanus，"
            ++ sub_loop n2 _MISSING_AFTER_LABEL f (COMMA :: bef s') suf).
  apply contains_app.
Qed.

Lemma label_repair_anchor_scan_witness :
  squeeze (smart_text masou_pieces) = U "學名：，台灣特有亞種。"
  /\ contains (U "學名：Oncorhynchus masou formosanus，")
              (fill_labels_if_missing masou_pieces []
                                      (squeeze (smart_text masou_pieces))) = true.
Proof.
  split; [vm_compute; reflexivity|].
  change (squeeze (smart_text masou_pieces))
    with ([] ++ U "學名：，" ++ U "台灣特有亞種。").
  apply (@label_repair_anchor_scan masou_pieces [] [] (U "台灣特有亞種。")
           [] (Elem "b" [] [] [Text (U "學名")])
           [Text (U "學名"); Text (U "：");
            Elem "ul" [] [] [Elem "i" [] [] [Text (U "Oncorhynchus")];
                             Text (U " masou formosanus ，")];
            Elem "i" [] [] [Text (U "Oncorhynchus")]; Text (U "Oncorhynchus");
            Text (U " masou formosanus ，"); Text (U "，台灣特有亞種。")]
           [Text (U "學名")]
           [Elem "ul" [] [] [Elem "i" [] [] [Text (U "Oncorhynchus")];
                             Text (U " masou formosanus ，")];
            Elem "i" [] [] [Text (U "Oncorhynchus")]; Text (U "Oncorhynchus");
            Text (U " masou formosanus ，"); Text (U "，台灣特有亞種。")]
           [Text [];
            Elem "ul" [] [] [Elem "i" [] [] [Text (U "Oncorhynchus")];
                             Text (U " masou formosanus ，")];
            Elem "i" [] [] [Text (U "Oncorhynchus")]; Text (U "Oncorhynchus")]
           [Text (U "，台灣特有亞種。")]
           (Text (U "：")) (Text (U " masou formosanus ，"))
           [] (U "masou formosanus ")).
  - reflexivity.
  - constructor.
  - vm_compute; reflexivity.
  - reflexivity.
  - repeat constructor.
  - exists (U "："). split; vm_compute; reflexivity.
  - reflexivity.
  - repeat constructor.
  - exists (U " masou formosanus ，"), COMMA, []. split; [reflexivity|].
    split; [vm_compute; reflexivity|]. split; [|vm_compute; reflexivity].
    vm_compute. repeat constructor.
  - vm_compute; reflexivity.
Defined.
